(** * QuantilyxDoc: the rendering and caching core

    A shallow embedding of the five pieces of infrastructure of
    [src/core]: the page image cache ([PageCache.cpp]), the multi-policy
    cache ([IntelligentCache.cpp]), the task and worker pool
    ([ThreadPool.cpp]), the render worker ([RenderThread.cpp]) and the
    lazy-load scheduler ([LazyLoader.cpp]).

    Conventions of the embedding.
    - Every public member function takes the object's private data and
      returns the new private data (and the C++ return value, when there
      is one).  Each function below is one critical section of the
      source; a mutex is modelled where a function calls, with the mutex
      locked, a function that locks it again (the pool of [ThreadPool]).
    - [qint64], [int] and [quintptr] values are integers of [Z].  Signed
      overflow is undefined in C++, so the model covers the executions in
      which byte totals and counters stay inside their machine range.
    - [qreal] values are exact rationals.
    - A [QHash] is an association list without duplicate keys; the order of
      the list stands for the iteration order of the table, which Qt leaves
      unspecified.  A new key is appended.
    - The clock ([QDateTime::currentDateTime], [currentMSecsSinceEpoch]) is
      an input: a function that reads it takes the value read, in
      milliseconds.
    - Qt signals and [LOG_DEBUG]/[LOG_INFO] lines are not part of the state;
      [LOG_WARN] lines are recorded where a cache emits them. *)

From Stdlib Require Import ZArith List Bool Lia String.
From Stdlib Require Import QArith Qcanon Qround Qabs Qminmax.
From Stdlib Require Import Permutation Sorted.
Import ListNotations.
Local Open Scope Z_scope.

(** ** Qt containers *)

Module QHash.
Section Assoc.
Context {K V : Type}.
Variable eqb : K -> K -> bool.

Definition t := list (K * V).

Fixpoint find (key : K) (m : t) : option V :=
  match m with
  | [] => None
  | (k, v) :: rest => if eqb key k then Some v else find key rest
  end.

Definition contains (key : K) (m : t) : bool :=
  match find key m with Some _ => true | None => false end.

(** [erase]: the entry of [key] leaves the table, the others keep their
    order. *)
Fixpoint erase (key : K) (m : t) : t :=
  match m with
  | [] => []
  | (k, v) :: rest => if eqb key k then rest else (k, v) :: erase key rest
  end.

(** Writing through an iterator ([it->field = ...]). *)
Fixpoint update (key : K) (f : V -> V) (m : t) : t :=
  match m with
  | [] => []
  | (k, v) :: rest =>
      if eqb key k then (k, f v) :: rest else (k, v) :: update key f rest
  end.

(** [insert]: replaces the value of a key that is there, else adds the
    entry. *)
Definition insert (key : K) (v : V) (m : t) : t :=
  if contains key m then update key (fun _ => v) m else m ++ [(key, v)].

Definition keys (m : t) : list K := map fst m.
Definition values (m : t) : list V := map snd m.
Definition size (m : t) : Z := Z.of_nat (List.length m).

Definition isEmpty (m : t) : bool :=
match m with [] => true | _ :: _ => false end.

(** The sum of a weight over the stored values. *)
Definition total (weight : V -> Z) (m : t) : Z :=
fold_right (fun e acc => weight (snd e) + acc) 0 m.
End Assoc.
End QHash.

Module QList.
Section Seq.
Context {A : Type}.
Variable eqb : A -> A -> bool.

Definition removeAll (x : A) (l : list A) : list A :=
  filter (fun y => negb (eqb x y)) l.

Definition enqueue (x : A) (l : list A) : list A := l ++ [x].
End Seq.
End QList.

(** ** PageCache.h, PageCache.cpp *)

Module PageCache.

(** [QSize] of integers. *)
Definition QSize := (Z * Z)%type.

Definition QSize_eqb (a b : QSize) : bool :=
  (fst a =? fst b) && (snd a =? snd b).

Record CacheKey := mkCacheKey {
  documentId : Z;
  pageIndex : Z;
  zoomLevel : Qc;
  rotation : Z;
  targetSize : QSize
}.

(** [qFuzzyCompare(double, double)] of [qglobal.h]:
    [qAbs(p1 - p2) * 1000000000000. <= qMin(qAbs(p1), qAbs(p2))]. *)
Definition qFuzzyCompare (p1 p2 : Qc) : bool :=
  Qle_bool (Qabs (p1 - p2) * 1000000000000)%Q (Qmin (Qabs p1) (Qabs p2)).

(** [CacheKey::operator==]: the zoom levels are compared with
    [qFuzzyCompare], the other fields exactly.  [lruQueue.removeAll(key)]
    compares the queued keys with it, one after the other. *)
Definition operator_eq (a other : CacheKey) : bool :=
  (documentId a =? documentId other) &&
  (pageIndex a =? pageIndex other) &&
  qFuzzyCompare (zoomLevel a) (zoomLevel other) &&
  (rotation a =? rotation other) &&
  QSize_eqb (targetSize a) (targetSize other).

(** The comparison of [cacheMap]: the table finds an entry by its hash
    value and only then asks [operator==].  [CacheKeyHash] hashes the
    exact double of the zoom level, so two keys whose zoom levels differ
    have different hash values, however close the zoom levels are, and
    are two entries of the table; two different keys with one hash value
    are outside the model. *)
Definition CacheKey_eqb (a other : CacheKey) : bool :=
  (documentId a =? documentId other) &&
  (pageIndex a =? pageIndex other) &&
  Qc_eq_bool (zoomLevel a) (zoomLevel other) &&
  (rotation a =? rotation other) &&
  QSize_eqb (targetSize a) (targetSize other).

(** A [QImage] as far as the cache looks at it. *)
Record QImage := mkQImage { width : Z; height : Z; depth : Z }.

Definition nullImage : QImage := mkQImage 0 0 0.

Definition isNull (image : QImage) : bool :=
  (width image <=? 0) || (height image <=? 0).

(** [Private::calculateImageSizeBytes]. *)
Definition calculateImageSizeBytes (image : QImage) : Z :=
  if isNull image then 0
  else width image * height image * (depth image / 8).

Record CachedItem := mkCachedItem {
  image : QImage;
  timestamp : Z;
  accessCount : Z
}.

(** [PageCache::Private]. *)
Record Private := mkPrivate {
  cacheMap : QHash.t (K := CacheKey) (V := CachedItem);
  lruQueue : list CacheKey;
  maxSizeBytes : Z;
  currentSizeBytes : Z
}.

(** The constructor: 50 MB, nothing cached. *)
Definition init : Private := mkPrivate [] [] (50 * 1024 * 1024) 0.

Definition setLruQueue (p : Private) q :=
  mkPrivate (cacheMap p) q (maxSizeBytes p) (currentSizeBytes p).

(** [Private::removeItem]. *)
Definition removeItem (p : Private) (key : CacheKey) : Private :=
  match QHash.find CacheKey_eqb key (cacheMap p) with
  | Some it =>
      mkPrivate (QHash.erase CacheKey_eqb key (cacheMap p))
                (QList.removeAll operator_eq key (lruQueue p))
                (maxSizeBytes p)
                (currentSizeBytes p - calculateImageSizeBytes (image it))
  | None => p
  end.

(** The loop of [PageCache::evictIfNecessary]; every turn takes one key off
    the queue, so the length of the queue bounds the number of turns. *)
Fixpoint evictLoop (turns : nat) (p : Private) : Private :=
  match turns with
  | O => p
  | S turns' =>
      if maxSizeBytes p <? currentSizeBytes p then
        match lruQueue p with
        | [] => p
        | lruKey :: rest =>
            let p1 := setLruQueue p rest in
            evictLoop turns'
              (if QHash.contains CacheKey_eqb lruKey (cacheMap p1)
               then removeItem p1 lruKey else p1)
        end
      else p
  end.

Definition evictIfNecessary (p : Private) : Private :=
  evictLoop (List.length (lruQueue p)) p.

(** [PageCache::get]; [now] is the clock read for the timestamp. *)
Definition get (now : Z) (p : Private) (key : CacheKey) : QImage * Private :=
  match QHash.find CacheKey_eqb key (cacheMap p) with
  | Some it =>
      (image it,
       mkPrivate
         (QHash.update CacheKey_eqb key
            (fun i => mkCachedItem (image i) now (accessCount i + 1))
            (cacheMap p))
         (QList.enqueue key (QList.removeAll operator_eq key (lruQueue p)))
         (maxSizeBytes p) (currentSizeBytes p))
  | None => (nullImage, p)
  end.

(** [PageCache::put]. *)
Definition put (now : Z) (p : Private) (key : CacheKey) (img : QImage)
  : Private :=
  let imageSize := calculateImageSizeBytes img in
  if imageSize =? 0 then p
  else
    evictIfNecessary
      match QHash.find CacheKey_eqb key (cacheMap p) with
      | Some existing =>
          let oldSize := calculateImageSizeBytes (image existing) in
          mkPrivate
            (QHash.update CacheKey_eqb key
               (fun _ => mkCachedItem img now 1) (cacheMap p))
            (QList.enqueue key
               (QList.removeAll operator_eq key (lruQueue p)))
            (maxSizeBytes p)
            (currentSizeBytes p + (imageSize - oldSize))
      | None =>
          mkPrivate
            (QHash.insert CacheKey_eqb key (mkCachedItem img now 1)
               (cacheMap p))
            (QList.enqueue key (lruQueue p))
            (maxSizeBytes p)
            (currentSizeBytes p + imageSize)
      end.

Definition contains (p : Private) (key : CacheKey) : bool :=
  QHash.contains CacheKey_eqb key (cacheMap p).

(** The loop of [PageCache::clearForDocument] over the entries still to
    visit.  After [it = erase(it)] the iterator is on the entry that
    follows, and it is that entry's key that [lruQueue.removeAll(it.key())]
    receives; when the erased entry was the last one the iterator is
    [end()] and reading its key is undefined: [None]. *)
Fixpoint clearLoop (todo : QHash.t (K := CacheKey) (V := CachedItem))
    (doc : Z) (p : Private) : option Private :=
  match todo with
  | [] => Some p
  | (k, v) :: rest =>
      if documentId k =? doc then
        match rest with
        | [] => None
        | (next, _) :: _ =>
            clearLoop rest doc
              (mkPrivate
                 (QHash.erase CacheKey_eqb k (cacheMap p))
                 (QList.removeAll operator_eq next (lruQueue p))
                 (maxSizeBytes p)
                 (currentSizeBytes p - calculateImageSizeBytes (image v)))
        end
      else clearLoop rest doc p
  end.

Definition clearForDocument (p : Private) (doc : Z) : option Private :=
  clearLoop (cacheMap p) doc p.

(** [PageCache::clear]. *)
Definition clear (p : Private) : Private :=
  mkPrivate [] [] (maxSizeBytes p) 0.

(** [PageCache::setMaxSizeBytes]. *)
Definition setMaxSizeBytes (p : Private) (size : Z) : Private :=
  evictIfNecessary
    (mkPrivate (cacheMap p) (lruQueue p) size (currentSizeBytes p)).

Definition itemCount (p : Private) : Z := QHash.size (cacheMap p).

(** *** The operations as data, and what the properties speak about *)

Inductive Op :=
| Put (now : Z) (key : CacheKey) (img : QImage)
| Get (now : Z) (key : CacheKey)
| ClearForDocument (doc : Z)
| Clear
| SetMaxSizeBytes (size : Z).

(** One call; [None] when the call runs into the undefined read of
    [clearForDocument]. *)
Definition step (p : Private) (o : Op) : option Private :=
  match o with
  | Put now key img => Some (put now p key img)
  | Get now key => Some (snd (get now p key))
  | ClearForDocument doc => clearForDocument p doc
  | Clear => Some (clear p)
  | SetMaxSizeBytes size => Some (setMaxSizeBytes p size)
  end.

Fixpoint run (p : Private) (ops : list Op) : option Private :=
  match ops with
  | [] => Some p
  | o :: rest =>
      match step p o with
      | Some p' => run p' rest
      | None => None
      end
  end.

(** The cost of a stored item, as [put] and [removeItem] count it. *)
Definition cost (it : CachedItem) : Z := calculateImageSizeBytes (image it).

(** The tracked byte total is the sum of the costs of the stored items. *)
Definition tracked (p : Private) : Prop :=
  currentSizeBytes p = QHash.total cost (cacheMap p).

(** The table and the queue agree: no key twice in the table, and every
    cached key waits in the queue. *)
Record consistent (p : Private) : Prop := mkConsistent {
  consistent_tracked : tracked p;
  consistent_unique : NoDup (QHash.keys (cacheMap p));
  consistent_queued :
    forall k, In k (QHash.keys (cacheMap p)) -> In k (lruQueue p)
}.

Definition withinBudget (p : Private) : Prop :=
  currentSizeBytes p <= maxSizeBytes p.

(** Operations of a sequence that never calls [clearForDocument] and never
    sets a negative ceiling. *)
Definition plainOp (o : Op) : Prop :=
  match o with
  | ClearForDocument _ => False
  | SetMaxSizeBytes size => 0 <= size
  | _ => True
  end.

(** What a sequence without [clearForDocument] and without a negative
    ceiling keeps true. *)
Definition sound (p : Private) : Prop :=
  consistent p /\ 0 <= maxSizeBytes p /\ withinBudget p.


(** Keys that [operator==] tells apart: two of them that it takes for
    equal are one key. *)
Definition separated (keys : list CacheKey) : Prop :=
  forall a b, In a keys -> In b keys -> operator_eq a b = true -> a = b.

(** The keys that a call names. *)
Definition opKeys (o : Op) : list CacheKey :=
  match o with
  | Put _ key _ => [key]
  | Get _ key => [key]
  | _ => []
  end.

(** The table and the queue hold the same keys and the queue holds each
    of them once: the queue then lists the cached keys from the least to
    the most recently used. *)
Record aligned (p : Private) : Prop := mkAligned {
  aligned_consistent : consistent p;
  aligned_once : NoDup (lruQueue p);
  aligned_cached :
    forall k, In k (lruQueue p) -> In k (QHash.keys (cacheMap p))
}.

(** The cache as [put] has it when it calls [evictIfNecessary]. *)
Definition inserted (now : Z) (p : Private) (key : CacheKey) (img : QImage)
  : Private :=
  match QHash.find CacheKey_eqb key (cacheMap p) with
  | Some existing =>
      mkPrivate
        (QHash.update CacheKey_eqb key
           (fun _ => mkCachedItem img now 1) (cacheMap p))
        (QList.enqueue key (QList.removeAll operator_eq key (lruQueue p)))
        (maxSizeBytes p)
        (currentSizeBytes p +
         (calculateImageSizeBytes img -
          calculateImageSizeBytes (image existing)))
  | None =>
      mkPrivate
        (QHash.insert CacheKey_eqb key (mkCachedItem img now 1) (cacheMap p))
        (QList.enqueue key (lruQueue p))
        (maxSizeBytes p)
        (currentSizeBytes p + calculateImageSizeBytes img)
  end.

(** The bytes that the cached images of [keys] take. *)
Definition bytesOf (p : Private) (keys : list CacheKey) : Z :=
  fold_right
    (fun k acc =>
       match QHash.find CacheKey_eqb k (cacheMap p) with
       | Some it => cost it + acc
       | None => acc
       end)
    0 keys.

(** Example data: four pages of one document and a 500 x 200 image of
    32 bits per pixel, 400,000 bytes. *)
Definition pageKey (n : Z) : CacheKey := mkCacheKey 1 n (Q2Qc 1) 0 (500, 200).

(** The same pages at a zoom level that is larger by 2^-50: other keys
    of the table, and the same keys for [operator==]. *)
Definition closeKey (n : Z) : CacheKey :=
  mkCacheKey 1 n (Q2Qc (1 + (1 # 1125899906842624))) 0 (500, 200).
Definition image400k : QImage := mkQImage 500 200 32.
Definition image4M : QImage := mkQImage 1000 1000 32.

End PageCache.


(** ** IntelligentCache.h, IntelligentCache.cpp *)

Module IntelligentCache.

(** A [QVariant] as far as [calculateItemSizeBytes] looks at it: the
    conversions it answers to ([canConvert<T>()] is [true] when the field
    is [Some]) with, for each, the size the function reads off the
    converted value, and the [sizeInBytes()] the function asks of a
    metadata value. *)
Record QVariant := mkQVariant {
  toString : option string;
  toImageSizeInBytes : option Z;
  toByteArraySize : option Z;
  sizeInBytes : Z
}.

Definition QVariantMap := list (string * QVariant).

Record CachedItem := mkCachedItem {
  data : QVariant;
  sizeBytes : Z;
  lastAccessTime : Z;
  creationTime : Z;
  accessCount : Z;
  priority : Q;
  key : string;
  metadata : QVariantMap
}.

Inductive EvictionPolicy := LRU | LFU | Priority | Predictive.

(** [IntelligentCache::Private], with the [LOG_WARN] lines written so
    far. *)
Record Private := mkPrivate {
  cacheData : QHash.t (K := string) (V := CachedItem);
  maxSizeBytes : Z;
  currentSizeBytes : Z;
  evictionPolicy : EvictionPolicy;
  warnings : list string
}.

(** The constructor: 50 MB, LRU. *)
Definition init : Private := mkPrivate [] (50 * 1024 * 1024) 0 LRU [].

Definition INT_MAX : Z := 2147483647.

(** [std::numeric_limits<qreal>::max()], the largest finite double. *)
Definition qreal_max : Q := inject_Z (2 ^ 1024 - 2 ^ 971).

Definition Qlt_bool (a b : Q) : bool := negb (Qle_bool b a).

Definition sizeofQChar : Z := 2.

Definition QString_size (s : string) : Z := Z.of_nat (String.length s).

Definition QString_isEmpty (s : string) : bool :=
  match s with EmptyString => true | String _ _ => false end.

(** [Private::calculateItemSizeBytes]. *)
Definition calculateItemSizeBytes (item : CachedItem) : Z :=
  let size :=
    match toString (data item) with
    | Some s => QString_size s * sizeofQChar
    | None =>
        match toImageSizeInBytes (data item) with
        | Some n => n
        | None =>
            match toByteArraySize (data item) with
            | Some n => n
            | None => 0
            end
        end
    end in
  let size := size + QString_size (key item) * sizeofQChar in
  fold_left
    (fun acc e => acc + (QString_size (fst e) * sizeofQChar + sizeInBytes (snd e)))
    (metadata item) size.

(** The scans of [evictIfNeeded]: the running minimum starts at [start]
    with an empty [keyToEvict]; an entry strictly below the minimum takes
    its place. *)
Definition scan {T : Type} (ltb : T -> T -> bool) (measure : CachedItem -> T)
    (start : T) (m : QHash.t (K := string) (V := CachedItem)) : T * string :=
  fold_left
    (fun acc e =>
       if ltb (measure (snd e)) (fst acc) then (measure (snd e), fst e)
       else acc)
    m (start, EmptyString).

(** The key one turn of the loop picks; [now] is the clock as the LRU and
    Predictive branches read it. *)
Definition keyToEvict (now : Z) (p : Private) : string :=
  match evictionPolicy p with
  | LRU => snd (scan Z.ltb lastAccessTime now (cacheData p))
  | LFU => snd (scan Z.ltb accessCount INT_MAX (cacheData p))
  | Priority => snd (scan Qlt_bool priority qreal_max (cacheData p))
  | Predictive => snd (scan Z.ltb lastAccessTime now (cacheData p))
  end.

Definition noCandidateWarning : string :=
  "Cache size exceeded limit but no item found for eviction!".

(** The loop of [Private::evictIfNeeded].  [clock n] is the time read in
    turn [n] of the loop.  A turn that finds a key removes one entry, so
    the number of entries bounds the number of turns. *)
Fixpoint evictLoop (turns : nat) (clock : nat -> Z) (n : nat) (p : Private)
  : Private :=
  match turns with
  | O => p
  | S turns' =>
      if (maxSizeBytes p <? currentSizeBytes p)
         && negb (QHash.isEmpty (cacheData p))
      then
        let k := keyToEvict (clock n) p in
        if negb (QString_isEmpty k) then
          match QHash.find String.eqb k (cacheData p) with
          | Some item =>
              evictLoop turns' clock (S n)
                (mkPrivate (QHash.erase String.eqb k (cacheData p))
                           (maxSizeBytes p)
                           (currentSizeBytes p - sizeBytes item)
                           (evictionPolicy p) (warnings p))
          | None => p
          end
        else
          mkPrivate (cacheData p) (maxSizeBytes p) (currentSizeBytes p)
                    (evictionPolicy p) (warnings p ++ [noCandidateWarning])
      else p
  end.

Definition evictIfNeeded (clock : nat -> Z) (p : Private) : Private :=
  evictLoop (List.length (cacheData p)) clock 0 p.

(** The size [put] gives the item: the hint when it is positive, else
    the estimate. *)
Definition itemSizeOf (k : string) (d : QVariant) (sizeHint : Z)
    (md : QVariantMap) : Z :=
  if 0 <? sizeHint then sizeHint
  else calculateItemSizeBytes (mkCachedItem d 0 0 0 0 0 k md).

(** [IntelligentCache::put] up to the eviction pass: an existing entry of
    the key is erased and uncounted, the new item is inserted and
    counted.  [now] is the clock read for the item's timestamps. *)
Definition insertItem (now : Z) (p : Private) (k : string) (d : QVariant)
    (sizeHint : Z) (md : QVariantMap) : Private :=
  let itemSize := itemSizeOf k d sizeHint md in
  let p1 :=
    match QHash.find String.eqb k (cacheData p) with
    | Some existing =>
        mkPrivate (QHash.erase String.eqb k (cacheData p))
                  (maxSizeBytes p)
                  (currentSizeBytes p - sizeBytes existing)
                  (evictionPolicy p) (warnings p)
    | None => p
    end in
  let item := mkCachedItem d itemSize now now 1 1 k md in
  mkPrivate (QHash.insert String.eqb k item (cacheData p1))
            (maxSizeBytes p1)
            (currentSizeBytes p1 + itemSize)
            (evictionPolicy p1) (warnings p1).

(** [IntelligentCache::put]; [clock] gives the readings of the eviction
    pass that runs before the function returns [true]. *)
Definition put (now : Z) (clock : nat -> Z) (p : Private) (k : string)
    (d : QVariant) (sizeHint : Z) (md : QVariantMap) : bool * Private :=
  (true, evictIfNeeded clock (insertItem now p k d sizeHint md)).

(** [IntelligentCache::get]; [None] is the invalid [QVariant]. *)
Definition get (now : Z) (p : Private) (k : string)
  : option QVariant * Private :=
  match QHash.find String.eqb k (cacheData p) with
  | Some it =>
      (Some (data it),
       mkPrivate
         (QHash.update String.eqb k
            (fun i =>
               mkCachedItem (data i) (sizeBytes i) now (creationTime i)
                 (accessCount i + 1) (priority i + (1 # 10))%Q (key i)
                 (metadata i))
            (cacheData p))
         (maxSizeBytes p) (currentSizeBytes p) (evictionPolicy p)
         (warnings p))
  | None => (None, p)
  end.

Definition contains (p : Private) (k : string) : bool :=
  QHash.contains String.eqb k (cacheData p).

(** [IntelligentCache::remove]. *)
Definition remove (p : Private) (k : string) : bool * Private :=
  match QHash.find String.eqb k (cacheData p) with
  | Some it =>
      (true,
       mkPrivate (QHash.erase String.eqb k (cacheData p))
                 (maxSizeBytes p)
                 (currentSizeBytes p - sizeBytes it)
                 (evictionPolicy p) (warnings p))
  | None => (false, p)
  end.

(** [IntelligentCache::clear]. *)
Definition clear (p : Private) : Private :=
  mkPrivate [] (maxSizeBytes p) 0 (evictionPolicy p) (warnings p).

(** [IntelligentCache::setMaxSizeBytes]. *)
Definition setMaxSizeBytes (clock : nat -> Z) (p : Private) (size : Z)
  : Private :=
  if size <=? 0 then p
  else if negb (maxSizeBytes p =? size) then
    evictIfNeeded clock
      (mkPrivate (cacheData p) size (currentSizeBytes p)
                 (evictionPolicy p) (warnings p))
  else p.

(** [IntelligentCache::setEvictionPolicy]. *)
Definition setEvictionPolicy (p : Private) (policy : EvictionPolicy)
  : Private :=
  mkPrivate (cacheData p) (maxSizeBytes p) (currentSizeBytes p) policy
            (warnings p).

(** [IntelligentCache::hintAccess]. *)
Definition hintAccess (now : Z) (p : Private) (k : string) : Private :=
  match QHash.find String.eqb k (cacheData p) with
  | Some _ =>
      mkPrivate
        (QHash.update String.eqb k
           (fun i =>
              mkCachedItem (data i) (sizeBytes i) now (creationTime i)
                (accessCount i) (priority i + (1 # 2))%Q (key i) (metadata i))
           (cacheData p))
        (maxSizeBytes p) (currentSizeBytes p) (evictionPolicy p)
        (warnings p)
  | None => p
  end.

Definition itemCount (p : Private) : Z := QHash.size (cacheData p).

(** *** The operations as data, and what the properties speak about *)

Inductive Op :=
| Put (now : Z) (clock : nat -> Z) (k : string) (d : QVariant)
      (sizeHint : Z) (md : QVariantMap)
| Get (now : Z) (k : string)
| Remove (k : string)
| Clear
| SetMaxSizeBytes (clock : nat -> Z) (size : Z)
| SetEvictionPolicy (policy : EvictionPolicy)
| HintAccess (now : Z) (k : string).

Definition step (p : Private) (o : Op) : Private :=
  match o with
  | Put now clock k d sizeHint md => snd (put now clock p k d sizeHint md)
  | Get now k => snd (get now p k)
  | Remove k => snd (remove p k)
  | Clear => clear p
  | SetMaxSizeBytes clock size => setMaxSizeBytes clock p size
  | SetEvictionPolicy policy => setEvictionPolicy p policy
  | HintAccess now k => hintAccess now p k
  end.

Definition run (p : Private) (ops : list Op) : Private :=
  fold_left step ops p.

(** The tracked byte total is the sum of the sizes of the stored items. *)
Definition tracked (p : Private) : Prop :=
  currentSizeBytes p = QHash.total sizeBytes (cacheData p).

Record consistent (p : Private) : Prop := mkConsistent {
  consistent_tracked : tracked p;
  consistent_unique : NoDup (QHash.keys (cacheData p))
}.

Definition withinBudget (p : Private) : Prop :=
  currentSizeBytes p <= maxSizeBytes p.

(** Some eviction pass has written its warning since [p0]. *)
Definition warnedSince (p0 p : Private) : Prop :=
  (List.length (warnings p0) < List.length (warnings p))%nat.

Definition nonnegativeSizes (p : Private) : Prop :=
  Forall (fun e => 0 <= sizeBytes (snd e)) (cacheData p).

(** What every sequence of calls keeps true of a cache that started from
    [p0]: the total is within the ceiling unless an eviction pass gave up
    with its warning. *)
Definition sound (p0 p : Private) : Prop :=
  consistent p /\ nonnegativeSizes p /\ 0 < maxSizeBytes p /\
  (List.length (warnings p0) <= List.length (warnings p))%nat /\
  (withinBudget p \/ warnedSince p0 p).

(** A [put] whose item gets a size that is not negative: a positive hint,
    or an estimate over sizes that are not negative. *)
Definition sizedOp (o : Op) : Prop :=
  match o with
  | Put _ _ k d sizeHint md => 0 <= itemSizeOf k d sizeHint md
  | _ => True
  end.

(** Example data. *)
Definition plainData : QVariant := mkQVariant None None None 0.
Definition sameInstant (t : Z) : nat -> Z := fun _ => t.

End IntelligentCache.

(** ** ThreadPool.h, ThreadPool.cpp *)

Module ThreadPool.

(** [Task::State] and [Task::Priority]. *)
Inductive State := Queued | Running | Finished | Canceled.
Inductive Priority := Low | Normal | High | Critical.

Definition State_eqb (a b : State) : bool :=
  match a, b with
  | Queued, Queued | Running, Running
  | Finished, Finished | Canceled, Canceled => true
  | _, _ => false
  end.

(** [Task::Private].  [hasRunnable] tells whether the [std::function] holds
    a callable; [bodyRuns] counts the calls of it, which is all the model
    keeps of what the body does. *)
Record Task := mkTask {
  hasRunnable : bool;
  name : string;
  priority : Priority;
  state : State;
  enqueueTime : Z;
  startTime : option Z;
  finishTime : option Z;
  canceled : bool;
  autoDelete : bool;
  bodyRuns : nat
}.

(** [Task::Task]. *)
Definition newTask (now : Z) (runnable : bool) (nm : string)
    (prio : Priority) : Task :=
  mkTask runnable nm prio Queued now None None false true 0.

(** [Task::run], in the three parts its mutex makes of it: the locked
    entry, the body that runs unlocked, the locked exit. *)
Definition runEnter (now : Z) (t : Task) : Task * bool :=
  if canceled t then
    (mkTask (hasRunnable t) (name t) (priority t) Canceled (enqueueTime t)
            (startTime t) (finishTime t) (canceled t) (autoDelete t)
            (bodyRuns t), false)
  else
    (mkTask (hasRunnable t) (name t) (priority t) Running (enqueueTime t)
            (Some now) (finishTime t) (canceled t) (autoDelete t)
            (bodyRuns t), true).

(** The body: the callable is called when there is one; whatever it
    throws is caught and logged, and [run] goes on. *)
Definition runBody (t : Task) : Task :=
  if hasRunnable t then
    mkTask (hasRunnable t) (name t) (priority t) (state t) (enqueueTime t)
           (startTime t) (finishTime t) (canceled t) (autoDelete t)
           (S (bodyRuns t))
  else t.

Definition runExit (now : Z) (t : Task) : Task :=
  mkTask (hasRunnable t) (name t) (priority t) Finished (enqueueTime t)
         (startTime t) (Some now) (canceled t) (autoDelete t) (bodyRuns t).

(** [Task::run] with nothing in between its parts. *)
Definition run (start finish : Z) (t : Task) : Task :=
  let (t1, go) := runEnter start t in
  if go then runExit finish (runBody t1) else t1.

(** [Task::cancel]. *)
Definition cancel (t : Task) : bool * Task :=
  match state t with
  | Queued =>
      (true,
       mkTask (hasRunnable t) (name t) (priority t) Canceled (enqueueTime t)
              (startTime t) (finishTime t) true (autoDelete t) (bodyRuns t))
  | _ => (false, t)
  end.

Definition wasCanceled (t : Task) : bool := canceled t.

(** [ThreadPool::Private].  A [Task*] is the address of the task, [0] the
    null pointer; [tasksByState] gives the set kept for each state. *)
Record Private := mkPrivate {
  allTasks : list Z;
  tasksByState : State -> list Z;
  totalSubmitted : Z;
  totalCompleted : Z
}.

(** The pool and the tasks it points to.  [mutex] tells whether
    [d->mutex] is locked between two calls.  A member function that
    returns has unlocked it, so it is locked there only for a caller that
    does not return. *)
Record World := mkWorld {
  heap : QHash.t (K := Z) (V := Task);
  d : Private;
  mutex : bool
}.

Definition init : World := mkWorld [] (mkPrivate [] (fun _ => []) 0 0) false.

(** [QMutexLocker locker(&d->mutex)].  A [QMutex] is not recursive: who
    asks for it while it is locked waits until it is unlocked, and that
    includes the thread that has locked it.  [None]: the caller waits. *)
Definition lock (w : World) : option World :=
  if mutex w then None else Some (mkWorld (heap w) (d w) true).

(** The end of the scope of a [QMutexLocker]. *)
Definition unlock (w : World) : World := mkWorld (heap w) (d w) false.

(** A call of a [const] member function that locks the mutex, reads and
    returns what it has read. *)
Definition underMutex {A : Type} (read : World -> A) (w : World) : option A :=
  match lock w with
  | Some w1 => Some (read w1)
  | None => None
  end.

(** [quint64] increment. *)
Definition incr64 (n : Z) : Z := (n + 1) mod 2 ^ 64.

(** [QSet<Task*>]. *)
Fixpoint setRemove (x : Z) (s : list Z) : list Z :=
  match s with
  | [] => []
  | y :: rest => if x =? y then rest else y :: setRemove x rest
  end.

Definition setMember (x : Z) (s : list Z) : bool :=
  existsb (Z.eqb x) s.

Definition setInsert (x : Z) (s : list Z) : list Z :=
  if setMember x s then s else s ++ [x].

Definition setSets (f : State -> list Z) (st : State) (s : list Z)
  : State -> list Z :=
  fun st' => if State_eqb st st' then s else f st'.

(** [ThreadPool::submitTask] on a task pointer; the hand-over to [QThreadPool::start]
    shows as the later [RunEnter], [RunBody] and [RunExit] of the task.
    The block that writes the pool is a scope of its own with its locker;
    the counts for [queueStatusChanged] are read after it, with the mutex
    unlocked.  On a mutex that is locked the caller waits in front of the
    block and nothing is written. *)
Definition submitTask (w : World) (task : Z) : World :=
  if task =? 0 then w
  else
    match lock w with
    | Some w1 =>
        unlock
          (mkWorld (heap w1)
             (mkPrivate
                (setInsert task (allTasks (d w1)))
                (setSets (tasksByState (d w1)) Queued
                   (setInsert task (tasksByState (d w1) Queued)))
                (incr64 (totalSubmitted (d w1)))
                (totalCompleted (d w1)))
             (mutex w1))
    | None => w
    end.

(** [ThreadPool::submitTask(func, name, priority)]: [new Task] at a fresh
    address, then the submission. *)
Definition submitNew (now : Z) (w : World) (task : Z) (runnable : bool)
    (nm : string) (prio : Priority) : World :=
  submitTask
    (mkWorld (QHash.insert Z.eqb task (newTask now runnable nm prio) (heap w))
             (d w) (mutex w))
    task.

(** A member function of a task; it locks the mutex of the task, which is
    not the one of the pool. *)
Definition onTask (w : World) (task : Z) (f : Task -> Task) : World :=
  mkWorld (QHash.update Z.eqb task f (heap w)) (d w) (mutex w).

(** [ThreadPool::cancelTask]; the pointer is null or points to a task of
    the heap. *)
Definition cancelTask (w : World) (task : Z) : bool * World :=
  if task =? 0 then (false, w)
  else
    match QHash.find Z.eqb task (heap w) with
    | Some t => (fst (cancel t), onTask w task (fun t => snd (cancel t)))
    | None => (false, w)
    end.

(** The loop of [ThreadPool::cancelAllQueuedTasks] over the copy of the
    Queued set. *)
Fixpoint cancelEach (queued : list Z) (w : World) (count : Z) : Z * World :=
  match queued with
  | [] => (count, w)
  | task :: rest =>
      match QHash.find Z.eqb task (heap w) with
      | Some t =>
          if fst (cancel t) then
            let sets1 :=
              setSets (tasksByState (d w)) Queued
                (setRemove task (tasksByState (d w) Queued)) in
            let sets2 :=
              setSets sets1 Canceled (setInsert task (sets1 Canceled)) in
            cancelEach rest
              (mkWorld
                 (QHash.update Z.eqb task (fun t => snd (cancel t)) (heap w))
                 (mkPrivate (allTasks (d w)) sets2 (totalSubmitted (d w))
                            (incr64 (totalCompleted (d w))))
                 (mutex w))
              (count + 1)
          else cancelEach rest w count
      | None => cancelEach rest w count
      end
  end.


Definition queuedTaskCount (w : World) : Z :=
  Z.of_nat (List.length (tasksByState (d w) Queued)).

(** [ThreadPool::cancelAllQueuedTasks].  The locker of the function lasts
    to its end.  After the loop the function calls [queuedTaskCount()]
    for the arguments of [queueStatusChanged], and [queuedTaskCount]
    begins with a locker of the same mutex.  The result is [Some] of the
    count when the function returns and [None] when the caller waits. *)
Definition cancelAllQueuedTasks (w : World) : option Z * World :=
  match lock w with
  | Some w1 =>
      let r := cancelEach (tasksByState (d w1) Queued) w1 0 in
      match underMutex queuedTaskCount (snd r) with
      | Some _ => (Some (fst r), unlock (snd r))
      | None => (None, snd r)
      end
  | None => (None, w)
  end.

Definition totalTasksSubmitted (w : World) : Z := totalSubmitted (d w).
Definition totalTasksCompleted (w : World) : Z := totalCompleted (d w).

(** What happens to a pool, one call or one critical section of
    [Task::run] at a time. *)
Inductive Event :=
| Submit (now : Z) (task : Z) (runnable : bool) (nm : string)
         (prio : Priority)
| RunEnter (now : Z) (task : Z)
| RunBody (task : Z)
| RunExit (now : Z) (task : Z)
| CancelTask (task : Z)
| CancelAllQueuedTasks.

Definition step (w : World) (e : Event) : World :=
  match e with
  | Submit now task runnable nm prio => submitNew now w task runnable nm prio
  | RunEnter now task => onTask w task (fun t => fst (runEnter now t))
  | RunBody task => onTask w task runBody
  | RunExit now task => onTask w task (runExit now)
  | CancelTask task => snd (cancelTask w task)
  | CancelAllQueuedTasks => snd (cancelAllQueuedTasks w)
  end.

Definition steps (w : World) (es : list Event) : World := fold_left step es w.

(** What can happen to one task once it exists: a thread of the pool calls
    [run], or someone calls [cancel]. *)
Inductive Call := CallRun (start finish : Z) | CallCancel.

Definition call (t : Task) (c : Call) : Task :=
  match c with
  | CallRun start finish => run start finish t
  | CallCancel => snd (cancel t)
  end.

Definition calls (t : Task) (cs : list Call) : Task := fold_left call cs t.

Definition UINT_MAX : Z := 4294967295.

(** An [int] read as [unsigned], as [msecs == UINT_MAX] compares it. *)
Definition toUnsigned (n : Z) : Z := n mod 2 ^ 32.

(** The condition of the [while] of [ThreadPool::waitForDone]. *)
Definition mustWait (p : Private) (msecs : Z) : bool :=
  (totalCompleted p <? totalSubmitted p) &&
  ((toUnsigned msecs =? UINT_MAX) || (0 <? msecs)).

(** [ThreadPool::waitForDone] on a pool that nothing else touches in the
    meantime.  [waits] gives how long each [condition.wait] took; the
    result is [Some] of what is left of [msecs] when the loop is left, and
    [None] when the caller is still inside the loop after all of
    [waits]. *)
Fixpoint waitForDone (p : Private) (msecs : Z) (waits : list Z) : option Z :=
  match waits with
  | [] => if mustWait p msecs then None else Some msecs
  | elapsed :: rest =>
      if mustWait p msecs then
        waitForDone p
          (if negb (toUnsigned msecs =? UINT_MAX) then msecs - elapsed
           else msecs)
          rest
      else Some msecs
  end.

(** The default argument [UINT_MAX], arriving in the [int] parameter. *)
Definition forever : Z := -1.

Definition terminal (t : Task) : bool :=
  match state t with
  | Finished | Canceled => true
  | _ => false
  end.

(** Example: one task submitted at address 1 and run to its end. *)
Definition oneTaskDone : World :=
  steps init
    [Submit 10 1 true "job"%string Normal; RunEnter 11 1; RunBody 1; RunExit 12 1].

End ThreadPool.

(** ** ThreadRender.h, RenderThread.cpp *)

Module RenderThread.

(** A [Page] as far as the worker looks at it: where it lives, its index
    and its natural size in points. *)
Record Page := mkPage {
  address : Z;
  pageIndex : Z;
  pageSize : Q * Q
}.

(** [RenderRequest]; [page] is [None] for the null pointer. *)
Record RenderRequest := mkRenderRequest {
  page : option Page;
  targetSize : Z * Z;
  zoomLevel : Q;
  rotation : Z;
  clipRect : Q * Q * Q * Q;
  highQuality : bool;
  requestId : Z;
  canceled : bool
}.

(** [RenderResult]; the image is its size in pixels, [None] for the null
    image. *)
Record RenderResult := mkRenderResult {
  resultId : Z;
  image : option (Z * Z);
  success : bool;
  errorMessage : string
}.

Record Private := mkPrivate {
  requestQueue : list RenderRequest;
  activeRequestIds : list Z;
  shouldQuit : bool;
  isProcessing : bool
}.

Inductive Signal :=
| queueStatusChanged (pendingCount activeCount : Z)
| renderCompleted (result : RenderResult).

Definition init : Private := mkPrivate [] [] false false.

(** [QSizeF::isEmpty]. *)
Definition QSizeF_isEmpty (s : Q * Q) : bool :=
  Qle_bool (fst s) 0 || Qle_bool (snd s) 0.

(** [qRound]: to the nearest integer, halves away from zero. *)
Definition qRound (x : Q) : Z :=
  if Qle_bool 0 x then Qfloor (x + (1 # 2)) else Qceiling (x - (1 # 2)).

Definition qMin (a b : Q) : Q := if Qle_bool a b then a else b.

Definition dpi : Q := 72.

Definition scaleX (req : RenderRequest) (size : Q * Q) : Q :=
  if 0 <? fst (targetSize req)
  then (inject_Z (fst (targetSize req)) / fst size * 72 / dpi)%Q
  else 1%Q.

Definition scaleY (req : RenderRequest) (size : Q * Q) : Q :=
  if 0 <? snd (targetSize req)
  then (inject_Z (snd (targetSize req)) / snd size * 72 / dpi)%Q
  else 1%Q.

Definition renderSize (req : RenderRequest) (size : Q * Q) : Z * Z :=
  let scale := qMin (scaleX req size) (scaleY req size) in
  (qRound (fst size * scale), qRound (snd size * scale)).

(** A [QImage] of a size that is not positive in both directions is null
    (running out of memory is outside the model). *)
Definition QImage_isNull (size : Z * Z) : bool :=
  (fst size <=? 0) || (snd size <=? 0).

Definition failed (req : RenderRequest) (message : string) : RenderResult :=
  mkRenderResult (requestId req) None false message.

(** [Private::processRequest].  The painter of an image that is not null
    is active; what it paints does not show in the model. *)
Definition processRequest (req : RenderRequest) : RenderResult :=
  if canceled req then failed req "Request was canceled."
  else
    match page req with
    | None => failed req "Invalid page pointer."
    | Some pg =>
        if QSizeF_isEmpty (pageSize pg)
        then failed req "Page has invalid size."
        else
          let size := renderSize req (pageSize pg) in
          if QImage_isNull size
          then failed req "Failed to create image buffer."
          else mkRenderResult (requestId req) (Some size) true ""
    end.

Definition count {A : Type} (l : list A) : Z := Z.of_nat (List.length l).

(** [RenderThread::submitRequest], with the signals it emits. *)
Definition submitRequest (p : Private) (request : RenderRequest)
  : Private * list Signal :=
  let q := QList.enqueue request (requestQueue p) in
  (mkPrivate q (activeRequestIds p) (shouldQuit p) (isProcessing p),
   [queueStatusChanged (count q) (count (activeRequestIds p))]).

Definition markFirst (requestId' : Z) : list RenderRequest -> list RenderRequest :=
  fix go (l : list RenderRequest) : list RenderRequest :=
    match l with
    | [] => []
    | r :: rest =>
        if requestId r =? requestId' then
          mkRenderRequest (page r) (targetSize r) (zoomLevel r) (rotation r)
            (clipRect r) (highQuality r) (requestId r) true :: rest
        else r :: go rest
    end.

(** [RenderThread::cancelRequest]. *)
Definition cancelRequest (p : Private) (id : Z) : Private :=
  mkPrivate (markFirst id (requestQueue p)) (activeRequestIds p)
            (shouldQuit p) (isProcessing p).

(** [RenderThread::cancelAllRequests]. *)
Definition cancelAllRequests (p : Private) : Private :=
  mkPrivate
    (map (fun r =>
            mkRenderRequest (page r) (targetSize r) (zoomLevel r)
              (rotation r) (clipRect r) (highQuality r) (requestId r) true)
         (requestQueue p))
    (activeRequestIds p) (shouldQuit p) (isProcessing p).

(** One turn of the [forever] of [RenderThread::run] that finds a request:
    the head of the queue is taken, processed outside the lock, and the
    result is emitted.  [None] when the thread waits or quits instead. *)
Definition workerTurn (p : Private) : option (Private * list Signal) :=
  if shouldQuit p then None
  else
    match requestQueue p with
    | [] => None
    | request :: rest =>
        let result := processRequest request in
        let active :=
          filter (fun i => negb (i =? requestId request))
                 (activeRequestIds p) in
        Some (mkPrivate rest active (shouldQuit p) false,
              [queueStatusChanged (count rest) (count active);
               renderCompleted result])
    end.

Definition markCanceled (r : RenderRequest) : RenderRequest :=
  mkRenderRequest (page r) (targetSize r) (zoomLevel r) (rotation r)
    (clipRect r) (highQuality r) (requestId r) true.

(** [req.page == page], a comparison of pointers. *)
Definition samePage (a : option Page) (pg : Page) : bool :=
  match a with
  | Some x => address x =? address pg
  | None => false
  end.

(** [RenderThread::cancelRequestsForPage]; [None] is the null pointer. *)
Definition cancelRequestsForPage (p : Private) (pg : option Page) : Private :=
  match pg with
  | None => p
  | Some pg =>
      mkPrivate
        (map (fun r => if samePage (page r) pg then markCanceled r else r)
             (requestQueue p))
        (activeRequestIds p) (shouldQuit p) (isProcessing p)
  end.

(** [RenderThread::isBusy] and [RenderThread::pendingRequestCount]. *)
Definition isBusy (p : Private) : bool :=
  isProcessing p ||
  negb match requestQueue p with [] => true | _ :: _ => false end.

Definition pendingRequestCount (p : Private) : Z := count (requestQueue p).

(** [RenderThread::run] for at most [n] turns with nobody else at the
    queue: the worker stops early when it would wait or quit. *)
Fixpoint workerTurns (n : nat) (p : Private) : Private * list Signal :=
  match n with
  | O => (p, [])
  | S n' =>
      match workerTurn p with
      | None => (p, [])
      | Some (p1, signals) =>
          let (p2, later) := workerTurns n' p1 in (p2, signals ++ later)
      end
  end.

(** The results that a run of signals delivers, in order. *)
Fixpoint completed (signals : list Signal) : list RenderResult :=
  match signals with
  | [] => []
  | renderCompleted result :: rest => result :: completed rest
  | queueStatusChanged _ _ :: rest => completed rest
  end.

(** Example data: a US Letter page, a request with no page and a request
    of size 0 x 0. *)
Definition letterPage : Page := mkPage 4096 0 (612, 792)%Q.
Definition nullPageRequest : RenderRequest :=
  mkRenderRequest None (800, 600) 1 0 (0, 0, 0, 0)%Q true 7 false.
Definition zeroSizeRequest : RenderRequest :=
  mkRenderRequest (Some letterPage) (0, 0) 1 0 (0, 0, 0, 0)%Q true 8 false.

End RenderThread.

(** ** LazyLoader.h, LazyLoader.cpp *)

Module LazyLoader.

Inductive ResourceType :=
| PageContent | PageThumbnail | EmbeddedImage | Font | Annotation | FormField.

(** [LoadRequest].  A callback is the number of the callable it holds,
    [None] when the [std::function] is empty. *)
Record LoadRequest := mkLoadRequest {
  key : string;
  type : ResourceType;
  parameters : list (string * string);
  onSuccess : option nat;
  onError : option nat;
  priority : Z;
  requestTime : Z
}.

(** Modelled from the spec: [operator==] of [LoadRequest], which
    [requestQueue.contains(request)] needs and no file under [src/]
    declares.  The spec has the uniqueness of requests enforced by key. *)
Definition LoadRequest_eqb (a b : LoadRequest) : bool :=
  String.eqb (key a) (key b).

(** [LazyLoader::Private], with two effects on the outside: [dispatched],
    the requests whose task went to [ThreadPool::submitTask], in order, and
    [posted], the number of queued invocations of [processNextRequest]
    that wait in the event loop. *)
Record Private := mkPrivate {
  requestQueue : list LoadRequest;
  activeRequests : list string;
  maxConcurrent : Z;
  activeCount : Z;
  dispatched : list LoadRequest;
  posted : nat
}.

(** The constructor: four loads at a time. *)
Definition init : Private := mkPrivate [] [] 4 0 [] 0.

(** The comparison of [Private::sortQueue]. *)
Definition lessThan (a b : LoadRequest) : bool :=
  if negb (priority a =? priority b) then priority b <? priority a
  else requestTime a <? requestTime b.

(** What [std::sort] promises for a comparison: the result holds the same
    elements and no element is before one that is less than it.  It
    promises nothing on the order of elements that compare equal. *)
Definition sortedBy (lt : LoadRequest -> LoadRequest -> bool)
    (l : list LoadRequest) : Prop :=
  StronglySorted (fun a b => lt b a = false) l.

Definition conforming
    (sort : (LoadRequest -> LoadRequest -> bool) ->
            list LoadRequest -> list LoadRequest) : Prop :=
  forall l, Permutation l (sort lessThan l) /\ sortedBy lessThan (sort lessThan l).

(** [Private::findRequestIndex]. *)
Fixpoint findRequestIndex (k : string) (q : list LoadRequest) : Z :=
  match q with
  | [] => -1
  | r :: rest =>
      if String.eqb (key r) k then 0
      else
        let i := findRequestIndex k rest in
        if i <? 0 then -1 else i + 1
  end.

Definition setMember (k : string) (s : list string) : bool :=
  existsb (String.eqb k) s.

Definition setInsert (k : string) (s : list string) : list string :=
  if setMember k s then s else s ++ [k].

Definition setRemove (k : string) (s : list string) : list string :=
  filter (fun x => negb (String.eqb k x)) s.

Section Scheduler.

(** [std::sort], of the C++ library. *)
Variable std_sort :
  (LoadRequest -> LoadRequest -> bool) -> list LoadRequest -> list LoadRequest.

(** [Private::sortQueue]. *)
Definition sortQueue (p : Private) : Private :=
  mkPrivate (std_sort lessThan (requestQueue p)) (activeRequests p)
            (maxConcurrent p) (activeCount p) (dispatched p) (posted p).

(** [LazyLoader::queueRequest]; [now] is the clock read for
    [requestTime]. *)
Definition queueRequest (now : Z) (p : Private) (request : LoadRequest)
  : Private :=
  if existsb (LoadRequest_eqb request) (requestQueue p)
     || setMember (key request) (activeRequests p)
  then p
  else
    let req :=
      mkLoadRequest (key request) (type request) (parameters request)
        (onSuccess request) (onError request) (priority request) now in
    let p1 :=
      sortQueue
        (mkPrivate (QList.enqueue req (requestQueue p)) (activeRequests p)
                   (maxConcurrent p) (activeCount p) (dispatched p)
                   (posted p)) in
    mkPrivate (requestQueue p1) (activeRequests p1) (maxConcurrent p1)
              (activeCount p1) (dispatched p1) (S (posted p1)).

Definition removeKey (k : string) : list LoadRequest -> list LoadRequest :=
  fix go (q : list LoadRequest) : list LoadRequest :=
    match q with
    | [] => []
    | r :: rest => if String.eqb (key r) k then rest else r :: go rest
    end.

(** [LazyLoader::cancelRequest]. *)
Definition cancelRequest (p : Private) (k : string) : bool * Private :=
  if setMember k (activeRequests p) then (false, p)
  else if 0 <=? findRequestIndex k (requestQueue p) then
    (true,
     mkPrivate (removeKey k (requestQueue p)) (activeRequests p)
               (maxConcurrent p) (activeCount p) (dispatched p) (posted p))
  else (false, p).

(** [qint64] addition, for a priority, which is any value the caller
    likes.  C++ leaves the overflow of a signed addition undefined; the
    compiled addition wraps around, and so does this one. *)
Definition add64 (a b : Z) : Z := (a + b + 2 ^ 63) mod 2 ^ 64 - 2 ^ 63.

(** [requestQueue[index].priority += 1000] and the new [requestTime], on
    the first request of the key. *)
Definition bump (now : Z) (k : string) : list LoadRequest -> list LoadRequest :=
  fix go (q : list LoadRequest) : list LoadRequest :=
    match q with
    | [] => []
    | r :: rest =>
        if String.eqb (key r) k then
          mkLoadRequest (key r) (type r) (parameters r) (onSuccess r)
            (onError r) (add64 (priority r) 1000) now :: rest
        else r :: go rest
    end.

(** [LazyLoader::hintResourceNeeded]. *)
Definition hintResourceNeeded (now : Z) (p : Private) (k : string)
  : Private :=
  if 0 <=? findRequestIndex k (requestQueue p) then
    sortQueue
      (mkPrivate (bump now k (requestQueue p)) (activeRequests p)
                 (maxConcurrent p) (activeCount p) (dispatched p) (posted p))
  else p.

(** [LazyLoader::processNextRequest]: the head of the queue becomes
    active and its task goes to the pool. *)
Definition processNextRequest (p : Private) : Private :=
  if (maxConcurrent p <=? activeCount p)
     || match requestQueue p with [] => true | _ :: _ => false end
  then p
  else
    match requestQueue p with
    | [] => p
    | request :: rest =>
        mkPrivate rest (setInsert (key request) (activeRequests p))
                  (maxConcurrent p) (activeCount p + 1)
                  (dispatched p ++ [request]) (posted p)
    end.

(** The event loop delivers one queued invocation. *)
Definition deliver (p : Private) : Private :=
  match posted p with
  | O => p
  | S n =>
      processNextRequest
        (mkPrivate (requestQueue p) (activeRequests p) (maxConcurrent p)
                   (activeCount p) (dispatched p) n)
  end.


End Scheduler.

(** The request as [queueRequest] stores it. *)
Definition stamped (now : Z) (r : LoadRequest) : LoadRequest :=
  mkLoadRequest (key r) (type r) (parameters r) (onSuccess r) (onError r)
                (priority r) now.

(** The insertion sort that the C++ libraries run for [std::sort] on a
    range as short as the queues of the examples: the elements are
    inserted one by one from the left, each behind the elements that are
    not greater than it.  It keeps the promise of [std::sort], and it
    keeps elements that compare equal in the order they came in. *)
Fixpoint insertAfter (lt : LoadRequest -> LoadRequest -> bool)
    (x : LoadRequest) (l : list LoadRequest) : list LoadRequest :=
  match l with
  | [] => [x]
  | y :: rest => if lt x y then x :: l else y :: insertAfter lt x rest
  end.

Definition sortKeepingTies (lt : LoadRequest -> LoadRequest -> bool)
    (l : list LoadRequest) : list LoadRequest :=
  fold_left (fun acc x => insertAfter lt x acc) l [].

(** Example data: the four requests of the scenario. *)
Definition request (k : string) (prio : Z) : LoadRequest :=
  mkLoadRequest k PageThumbnail [] (Some 0%nat) (Some 1%nat) prio 0.
Definition reqA : LoadRequest := request "a" 5.
Definition reqB : LoadRequest := request "b" 1.
Definition reqC : LoadRequest := request "c" 5.

(** [LazyLoader::cancelAllRequests]. *)
Definition cancelAllRequests (p : Private) : Private :=
  mkPrivate [] (activeRequests p) (maxConcurrent p) (activeCount p)
            (dispatched p) (posted p).

(** [LazyLoader::setMaxConcurrentLoads]; a change posts one invocation of
    [processNextRequest]. *)
Definition setMaxConcurrentLoads (p : Private) (count : Z) : Private :=
  if count <? 1 then p
  else if negb (maxConcurrent p =? count) then
    mkPrivate (requestQueue p) (activeRequests p) count (activeCount p)
              (dispatched p) (S (posted p))
  else p.

(** What the end of a load shows to the outside. *)
Inductive Outcome :=
| calledOnSuccess (callback : nat)
| resourceLoaded (k : string)
| calledOnError (callback : nat)
| resourceLoadFailed (k : string).

(** The callback that the task of a dispatched request posts to the main
    thread when its load has ended; [success] is what the load said.  It
    ends by posting one invocation of [processNextRequest]. *)
Definition loadFinished (p : Private) (request : LoadRequest)
    (success : bool) : Private * list Outcome :=
  (mkPrivate (requestQueue p) (setRemove (key request) (activeRequests p))
             (maxConcurrent p) (activeCount p - 1) (dispatched p)
             (S (posted p)),
   if success then
     match onSuccess request with
     | Some f => [calledOnSuccess f; resourceLoaded (key request)]
     | None => []
     end
   else
     match onError request with
     | Some f => [calledOnError f; resourceLoadFailed (key request)]
     | None => []
     end).

(** The calls that reach a scheduler. *)
Inductive Call :=
| QueueRequest (now : Z) (request : LoadRequest)
| CancelRequest (k : string)
| CancelAllRequests
| SetMaxConcurrentLoads (count : Z)
| HintResourceNeeded (now : Z) (k : string)
| Preload (clock : nat -> Z) (resourceKeys : list string) (prio : Z)
| Deliver
| LoadFinished (request : LoadRequest) (success : bool).

Section Calls.

Variable std_sort :
  (LoadRequest -> LoadRequest -> bool) -> list LoadRequest -> list LoadRequest.

(** The loop of [LazyLoader::preload]; [clock n] is the time that the hint
    for the key of index [n] reads. *)
Fixpoint preloadFrom (clock : nat -> Z) (n : nat) (p : Private)
    (resourceKeys : list string) : Private :=
  match resourceKeys with
  | [] => p
  | k :: rest =>
      preloadFrom clock (S n) (hintResourceNeeded std_sort (clock n) p k) rest
  end.

(** [LazyLoader::preload]; the function logs [prio] and never uses it. *)
Definition preload (clock : nat -> Z) (p : Private)
    (resourceKeys : list string) (prio : Z) : Private :=
  preloadFrom clock 0 p resourceKeys.

(** [processNextRequest] called [n] times in a row. *)
Fixpoint processRequests (n : nat) (p : Private) : Private :=
  match n with
  | O => p
  | S n' => processRequests n' (processNextRequest p)
  end.

(** One call.  The callback of a load exists only while the key of its
    request is active: there is nothing to deliver otherwise, [None]. *)
Definition step (p : Private) (c : Call) : option Private :=
  match c with
  | QueueRequest now request => Some (queueRequest std_sort now p request)
  | CancelRequest k => Some (snd (cancelRequest p k))
  | CancelAllRequests => Some (cancelAllRequests p)
  | SetMaxConcurrentLoads count => Some (setMaxConcurrentLoads p count)
  | HintResourceNeeded now k => Some (hintResourceNeeded std_sort now p k)
  | Preload clock resourceKeys prio =>
      Some (preload clock p resourceKeys prio)
  | Deliver => Some (deliver p)
  | LoadFinished request success =>
      if setMember (key request) (activeRequests p)
      then Some (fst (loadFinished p request success))
      else None
  end.

Fixpoint run (p : Private) (cs : list Call) : option Private :=
  match cs with
  | [] => Some p
  | c :: rest =>
      match step p c with
      | Some p' => run p' rest
      | None => None
      end
  end.

End Calls.

(** No key is queued twice, no key is queued and active at once, and the
    counter of active loads is the number of active keys. *)
Record wellFormed (p : Private) : Prop := mkWellFormed {
  wellFormed_queued_once : NoDup (map key (requestQueue p));
  wellFormed_active_once : NoDup (activeRequests p);
  wellFormed_apart :
    forall k, In k (map key (requestQueue p)) -> ~ In k (activeRequests p);
  wellFormed_count :
    activeCount p = Z.of_nat (List.length (activeRequests p))
}.

End LazyLoader.
(** ** Facts about the containers *)

Module QHashFacts.
Section Facts.
Context {K V : Type}.
Variable eqb : K -> K -> bool.
Hypothesis eqb_eq : forall a b, eqb a b = true <-> a = b.

Local Abbreviation table := (QHash.t (K := K) (V := V)).

Lemma eqb_refl : forall a, eqb a a = true.
Proof. intro a. apply eqb_eq. reflexivity. Qed.

Lemma eqb_neq : forall a b, a <> b -> eqb a b = false.
Proof.
  intros a b H. destruct (eqb a b) eqn:E; [|reflexivity].
  apply eqb_eq in E. contradiction.
Qed.

Lemma find_In : forall key (m : table) v,
  QHash.find eqb key m = Some v -> In (key, v) m.
Proof.
  induction m as [|[k w] rest IH]; simpl; intros v H; [discriminate|].
  destruct (eqb key k) eqn:E.
  - apply eqb_eq in E. inversion H. subst. now left.
  - right. now apply IH.
Qed.

Lemma find_None : forall key (m : table),
  QHash.find eqb key m = None <-> ~ In key (QHash.keys m).
Proof.
  induction m as [|[k w] rest IH]; simpl.
  - split; auto.
  - destruct (eqb key k) eqn:E.
    + apply eqb_eq in E. subst. split; [discriminate|].
      intro H. exfalso. apply H. now left.
    + rewrite IH. split.
      * intros H [H1|H1]; [|auto]. subst.
        rewrite eqb_refl in E. discriminate.
      * intros H H1. apply H. now right.
Qed.

Lemma contains_In : forall key (m : table),
  QHash.contains eqb key m = true <-> In key (QHash.keys m).
Proof.
  intros key m. unfold QHash.contains.
  destruct (QHash.find eqb key m) eqn:E.
  - split; [|reflexivity]. intros _.
    apply find_In in E. now apply (in_map fst) in E.
  - apply find_None in E. split; [discriminate|contradiction].
Qed.

Lemma contains_false : forall key (m : table),
  QHash.contains eqb key m = false <-> ~ In key (QHash.keys m).
Proof.
  intros key m. rewrite <- contains_In.
  destruct (QHash.contains eqb key m); split; congruence.
Qed.

Lemma keys_update : forall key f (m : table),
  QHash.keys (QHash.update eqb key f m) = QHash.keys m.
Proof.
  induction m as [|[k w] rest IH]; simpl; [reflexivity|].
  destruct (eqb key k); simpl; [reflexivity|]. now rewrite IH.
Qed.

Lemma keys_erase_incl : forall key (m : table) k,
  In k (QHash.keys (QHash.erase eqb key m)) -> In k (QHash.keys m).
Proof.
  induction m as [|[k0 w] rest IH]; simpl; intros k H; [auto|].
  destruct (eqb key k0); simpl in *; [now right|].
  destruct H as [H|H]; [now left|right; now apply IH].
Qed.

Lemma keys_erase : forall key (m : table) k,
  NoDup (QHash.keys m) ->
  (In k (QHash.keys (QHash.erase eqb key m)) <->
   k <> key /\ In k (QHash.keys m)).
Proof.
  induction m as [|[k0 w] rest IH]; simpl; intros k ND.
  - tauto.
  - inversion ND as [|? ? Hnot ND']; subst.
    destruct (eqb key k0) eqn:E; simpl.
    + apply eqb_eq in E. subst k0. split.
      * intro H. split; [|now right]. intro; subst. contradiction.
      * intros [H1 [H2|H2]]; [congruence|assumption].
    + rewrite (IH k ND'). split.
      * intros [H|[H1 H2]]; [|tauto]. subst k0. split; [|now left].
        intro; subst. rewrite eqb_refl in E. discriminate.
      * intros [H1 [H2|H2]]; tauto.
Qed.

Lemma NoDup_erase : forall key (m : table),
  NoDup (QHash.keys m) -> NoDup (QHash.keys (QHash.erase eqb key m)).
Proof.
  induction m as [|[k0 w] rest IH]; simpl; intro ND; [constructor|].
  inversion ND as [|? ? Hnot ND']; subst.
  destruct (eqb key k0); simpl; [assumption|].
  constructor; [|now apply IH].
  intro H. apply Hnot. now apply keys_erase_incl in H.
Qed.

Lemma keys_insert_new : forall key v (m : table),
  QHash.contains eqb key m = false ->
  QHash.keys (QHash.insert eqb key v m) = QHash.keys m ++ [key].
Proof.
  intros key v m H. unfold QHash.insert. rewrite H.
  unfold QHash.keys. now rewrite map_app.
Qed.

Lemma find_erase_same : forall key (m : table),
  NoDup (QHash.keys m) -> QHash.find eqb key (QHash.erase eqb key m) = None.
Proof.
  intros key m ND. apply find_None. rewrite keys_erase by assumption.
  tauto.
Qed.

Lemma find_erase_other : forall key k (m : table),
  k <> key ->
  QHash.find eqb k (QHash.erase eqb key m) = QHash.find eqb k m.
Proof.
  induction m as [|[k0 w] rest IH]; simpl; intro Hne; [reflexivity|].
  destruct (eqb key k0) eqn:E.
  - apply eqb_eq in E. subst k0. now rewrite eqb_neq.
  - simpl. destruct (eqb k k0); [reflexivity|]. now apply IH.
Qed.

Lemma find_update_same : forall key f (m : table) v,
  QHash.find eqb key m = Some v ->
  QHash.find eqb key (QHash.update eqb key f m) = Some (f v).
Proof.
  induction m as [|[k w] rest IH]; simpl; intros v H; [discriminate|].
  destruct (eqb key k) eqn:E; simpl; rewrite E.
  - now inversion H.
  - now apply IH.
Qed.

Lemma find_update_other : forall key k f (m : table),
  k <> key ->
  QHash.find eqb k (QHash.update eqb key f m) = QHash.find eqb k m.
Proof.
  induction m as [|[k0 w] rest IH]; simpl; intro Hne; [reflexivity|].
  destruct (eqb key k0) eqn:E; simpl.
  - apply eqb_eq in E. subst k0. now rewrite eqb_neq.
  - destruct (eqb k k0); [reflexivity|]. now apply IH.
Qed.

Lemma find_app_new : forall key k v (m : table),
  QHash.find eqb k (m ++ [(key, v)]) =
  match QHash.find eqb k m with
  | Some w => Some w
  | None => if eqb k key then Some v else None
  end.
Proof.
  induction m as [|[k0 w] rest IH]; simpl; [reflexivity|].
  destruct (eqb k k0); [reflexivity|apply IH].
Qed.

Lemma In_removeAll : forall x y (l : list K),
  In y (QList.removeAll eqb x l) <-> y <> x /\ In y l.
Proof.
  intros x y l. unfold QList.removeAll. rewrite filter_In.
  split.
  - intros [H1 H2]. split; [|assumption]. intro; subst.
    rewrite eqb_refl in H2. discriminate.
  - intros [H1 H2]. split; [assumption|].
    rewrite eqb_neq; [reflexivity|congruence].
Qed.

Lemma length_removeAll : forall x (l : list K),
  (List.length (QList.removeAll eqb x l) <= List.length l)%nat.
Proof. intros. apply filter_length_le. Qed.

Lemma Forall_erase : forall (P : K * V -> Prop) key (m : table),
  Forall P m -> Forall P (QHash.erase eqb key m).
Proof.
  induction m as [|[k v] m IH]; simpl; intro H; [constructor|].
  inversion H; subst. destruct (eqb key k); [assumption|].
  constructor; [assumption|now apply IH].
Qed.

Lemma Forall_update : forall (P : K * V -> Prop) key f (m : table),
  Forall P m -> (forall k v, P (k, v) -> P (k, f v)) ->
  Forall P (QHash.update eqb key f m).
Proof.
  induction m as [|[k v] m IH]; simpl; intros H Hf; [constructor|].
  inversion H; subst. destruct (eqb key k).
  - constructor; [now apply Hf|assumption].
  - constructor; [assumption|now apply IH].
Qed.

Lemma length_erase : forall key (m : table) v,
  QHash.find eqb key m = Some v ->
  S (List.length (QHash.erase eqb key m)) = List.length m.
Proof.
  induction m as [|[k w] m IH]; simpl; intros v H; [discriminate|].
  destruct (eqb key k); [reflexivity|]. simpl. f_equal. now apply (IH v).
Qed.

Lemma In_keys_find : forall key (m : table),
  In key (QHash.keys m) -> exists v, QHash.find eqb key m = Some v.
Proof.
  intros key m H. destruct (QHash.find eqb key m) as [v|] eqn:E.
  - now exists v.
  - apply find_None in E. contradiction.
Qed.

Lemma In_find : forall key v (m : table),
  NoDup (QHash.keys m) -> In (key, v) m -> QHash.find eqb key m = Some v.
Proof.
  induction m as [|[k w] m IH]; simpl; intros ND H; [contradiction|].
  inversion ND as [|? ? Hnot ND']; subst.
  destruct H as [H|H].
  - inversion H; subst. now rewrite eqb_refl.
  - destruct (eqb key k) eqn:E; [|now apply IH].
    apply eqb_eq in E. subst k. exfalso. apply Hnot.
    now apply (in_map fst) in H.
Qed.

Section Weighted.
Variable weight : V -> Z.
Local Abbreviation total := (QHash.total weight).

Lemma total_app : forall (m1 : table) (m2 : table), total (m1 ++ m2) = total m1 + total m2.
Proof.
  induction m1 as [|e m1 IH]; simpl; intros m2; [reflexivity|].
  rewrite IH. lia.
Qed.

Lemma total_erase : forall key (m : table) v,
  QHash.find eqb key m = Some v ->
  total (QHash.erase eqb key m) = total m - weight v.
Proof.
  induction m as [|[k w] rest IH]; simpl; intros v H; [discriminate|].
  destruct (eqb key k).
  - inversion H; subst. lia.
  - simpl. rewrite (IH v H). lia.
Qed.

Lemma total_update : forall key f (m : table) v,
  QHash.find eqb key m = Some v ->
  total (QHash.update eqb key f m) = total m - weight v + weight (f v).
Proof.
  induction m as [|[k w] rest IH]; simpl; intros v H; [discriminate|].
  destruct (eqb key k).
  - inversion H; subst. simpl. lia.
  - simpl. rewrite (IH v H). lia.
Qed.

Lemma total_insert_new : forall key v (m : table),
  QHash.contains eqb key m = false ->
  total (QHash.insert eqb key v m) = total m + weight v.
Proof.
  intros key v m H. unfold QHash.insert. rewrite H.
  rewrite total_app. simpl. lia.
Qed.

Lemma total_nil_of_keys : forall (m : table), QHash.keys m = [] -> total m = 0.
Proof. intros [|e m]; simpl; [reflexivity|discriminate]. Qed.

Lemma total_nonneg : forall (m : table),
  Forall (fun e => 0 <= weight (snd e)) m -> 0 <= total m.
Proof.
  induction 1 as [|e m He HF IH]; simpl; lia.
Qed.

Lemma total_ge_member : forall key (m : table) v,
  Forall (fun e => 0 <= weight (snd e)) m ->
  QHash.find eqb key m = Some v -> weight v <= total m.
Proof.
  induction m as [|[k w] rest IH]; simpl; intros v HF H; [discriminate|].
  inversion HF as [|? ? Hw HF']; subst. simpl in Hw.
  pose proof (total_nonneg rest HF').
  destruct (eqb key k).
  - inversion H; subst. lia.
  - specialize (IH v HF' H). lia.
Qed.
End Weighted.
End Facts.
End QHashFacts.

(** ** PageCache: the table, the queue and the byte total *)

Module PageCacheFacts.
Import PageCache.

Lemma CacheKey_eqb_eq : forall a b, CacheKey_eqb a b = true <-> a = b.
Proof.
  intros [d1 p1 z1 r1 [w1 h1]] [d2 p2 z2 r2 [w2 h2]].
  unfold CacheKey_eqb, QSize_eqb; simpl. split.
  - intro H. repeat rewrite andb_true_iff in H.
    destruct H as [[[[Hd Hp] Hz] Hr] [Hw Hh]].
    apply Z.eqb_eq in Hd, Hp, Hr, Hw, Hh.
    apply Qc_eq_bool_correct in Hz. now subst.
  - intro H. inversion H; subst.
    rewrite !Z.eqb_refl. simpl.
    unfold Qc_eq_bool. destruct (Qc_eq_dec z2 z2); [reflexivity|congruence].
Qed.

Lemma CacheKey_eqb_refl : forall a, CacheKey_eqb a a = true.
Proof. intro a. now apply CacheKey_eqb_eq. Qed.

Arguments CacheKey_eqb : simpl never.
Arguments calculateImageSizeBytes : simpl never.

Ltac case_contains :=
  match goal with
  | |- context [if QHash.contains ?e ?k ?m then _ else _] =>
      destruct (QHash.contains e k m) eqn:?
  end.

Lemma CacheKey_eqb_neq : forall a b, a <> b -> CacheKey_eqb a b = false.
Proof. apply QHashFacts.eqb_neq, CacheKey_eqb_eq. Qed.

(** *** operator== and the keys it tells apart *)

Lemma qFuzzyCompare_refl : forall z, qFuzzyCompare z z = true.
Proof.
  intro z. unfold qFuzzyCompare. apply Qle_bool_iff.
  setoid_replace (z - z)%Q with 0%Q by ring.
  change (Qabs 0) with 0%Q. rewrite Qmult_0_l.
  apply Q.min_glb; apply Qabs_nonneg.
Qed.

Lemma operator_eq_refl : forall a, operator_eq a a = true.
Proof.
  intros [d p z r [w h]]. unfold operator_eq, QSize_eqb. simpl.
  now rewrite !Z.eqb_refl, qFuzzyCompare_refl.
Qed.

Lemma separated_incl : forall l1 l2,
  incl l1 l2 -> separated l2 -> separated l1.
Proof. intros l1 l2 Hi Hs a b Ha Hb. apply Hs; now apply Hi. Qed.

Lemma separated_tail : forall x l, separated (x :: l) -> separated l.
Proof. intros x l. apply separated_incl. now apply incl_tl, incl_refl. Qed.

(** Among keys that [operator==] tells apart, [removeAll] takes the key
    and nothing else. *)
Lemma removeAll_exact : forall x (l : list CacheKey),
  separated (x :: l) ->
  QList.removeAll operator_eq x l = QList.removeAll CacheKey_eqb x l.
Proof.
  intros x l Hs. unfold QList.removeAll. apply filter_ext_in.
  intros y Hy. f_equal.
  destruct (operator_eq x y) eqn:E.
  - assert (x = y) as <- by (apply Hs; [now left|now right|exact E]).
    now rewrite CacheKey_eqb_refl.
  - symmetry. apply CacheKey_eqb_neq. intros <-.
    rewrite operator_eq_refl in E. discriminate.
Qed.

(** [removeAll] only takes keys away. *)
Lemma removeAll_incl : forall x y (l : list CacheKey),
  In y (QList.removeAll operator_eq x l) -> In y l.
Proof.
  intros x y l H. unfold QList.removeAll in H.
  now apply filter_In in H.
Qed.

Lemma removeAll_not_In : forall x (l : list CacheKey),
  ~ In x (QList.removeAll operator_eq x l).
Proof.
  intros x l H. unfold QList.removeAll in H. apply filter_In in H.
  destruct H as [_ H]. now rewrite operator_eq_refl in H.
Qed.

(** *** removeItem *)

Lemma removeItem_tracked : forall p key,
  tracked p -> tracked (removeItem p key).
Proof.
  unfold tracked, removeItem. intros p key H.
  destruct (QHash.find CacheKey_eqb key (cacheMap p)) as [it|] eqn:E;
    [|assumption].
  simpl. rewrite (QHashFacts.total_erase CacheKey_eqb cost key _ it E).
  unfold cost at 2. lia.
Qed.

Lemma removeItem_max : forall p key,
  maxSizeBytes (removeItem p key) = maxSizeBytes p.
Proof.
  intros p key. unfold removeItem.
  now destruct (QHash.find CacheKey_eqb key (cacheMap p)).
Qed.

Lemma removeItem_queue_length : forall p key,
  (List.length (lruQueue (removeItem p key)) <= List.length (lruQueue p))%nat.
Proof.
  intros p key. unfold removeItem.
  destruct (QHash.find CacheKey_eqb key (cacheMap p)); simpl; [|lia].
  unfold QList.removeAll. apply filter_length_le.
Qed.

Lemma removeItem_queue_incl : forall p key x,
  In x (lruQueue (removeItem p key)) -> In x (lruQueue p).
Proof.
  intros p key x. unfold removeItem.
  destruct (QHash.find CacheKey_eqb key (cacheMap p)); simpl; [|trivial].
  apply removeAll_incl.
Qed.

(** *** The eviction loop *)

Lemma evictLoop_tracked : forall turns p,
  tracked p -> tracked (evictLoop turns p).
Proof.
  induction turns as [|n IH]; simpl; intros p H; [assumption|].
  destruct (maxSizeBytes p <? currentSizeBytes p); [|assumption].
  destruct (lruQueue p) as [|k rest] eqn:Q; [assumption|].
  apply IH. case_contains.
  - apply removeItem_tracked. exact H.
  - exact H.
Qed.

Lemma evictLoop_max : forall turns p,
  maxSizeBytes (evictLoop turns p) = maxSizeBytes p.
Proof.
  induction turns as [|n IH]; simpl; intros p; [reflexivity|].
  destruct (maxSizeBytes p <? currentSizeBytes p); [|reflexivity].
  destruct (lruQueue p) as [|k rest]; [reflexivity|].
  rewrite IH. case_contains; [now rewrite removeItem_max|reflexivity].
Qed.

(** One turn of the loop keeps the table and the queue in agreement. *)
Lemma evict_turn_consistent : forall p k rest,
  tracked p -> NoDup (QHash.keys (cacheMap p)) ->
  (forall x, In x (QHash.keys (cacheMap p)) -> In x (k :: rest)) ->
  lruQueue p = k :: rest ->
  separated (k :: rest) ->
  consistent
    (if QHash.contains CacheKey_eqb k (cacheMap (setLruQueue p rest))
     then removeItem (setLruQueue p rest) k else setLruQueue p rest).
Proof.
  intros p k rest HT ND HQ Q Hsep. simpl.
  destruct (QHash.contains CacheKey_eqb k (cacheMap p)) eqn:C.
  - pose proof (removeItem_tracked (setLruQueue p rest) k HT) as HT'.
    unfold removeItem in *. simpl in *.
    destruct (QHash.find CacheKey_eqb k (cacheMap p)) as [it|] eqn:E.
    + constructor; simpl.
      * exact HT'.
      * now apply QHashFacts.NoDup_erase.
      * intros x Hx.
        apply (QHashFacts.keys_erase CacheKey_eqb CacheKey_eqb_eq) in Hx;
          [|exact ND].
        destruct Hx as [Hne Hin].
        rewrite (removeAll_exact k rest Hsep).
        apply (QHashFacts.In_removeAll CacheKey_eqb CacheKey_eqb_eq).
        split; [assumption|].
        destruct (HQ x Hin) as [->|]; [congruence|assumption].
    + unfold QHash.contains in C. rewrite E in C. discriminate.
  - apply (QHashFacts.contains_false CacheKey_eqb CacheKey_eqb_eq) in C.
    constructor; simpl; [exact HT|exact ND|].
    intros x Hx. destruct (HQ x Hx) as [->|]; [contradiction|assumption].
Qed.

(** The queue after a turn holds keys of the queue before it. *)
Lemma evict_turn_queue_incl : forall p k rest x,
  In x (lruQueue
          (if QHash.contains CacheKey_eqb k (cacheMap (setLruQueue p rest))
           then removeItem (setLruQueue p rest) k else setLruQueue p rest)) ->
  In x rest.
Proof.
  intros p k rest x. case_contains; [|trivial].
  intro H. now apply removeItem_queue_incl in H.
Qed.

Lemma evictLoop_queue_incl : forall turns p x,
  In x (lruQueue (evictLoop turns p)) -> In x (lruQueue p).
Proof.
  induction turns as [|n IH]; simpl; intros p x H; [assumption|].
  destruct (maxSizeBytes p <? currentSizeBytes p); [|assumption].
  destruct (lruQueue p) as [|k rest] eqn:Q; [now rewrite Q in H|].
  right. apply IH in H. now apply evict_turn_queue_incl in H.
Qed.

Lemma evictLoop_consistent : forall turns p,
  separated (lruQueue p) ->
  consistent p -> consistent (evictLoop turns p).
Proof.
  induction turns as [|n IH]; simpl; intros p Hsep H; [assumption|].
  destruct (maxSizeBytes p <? currentSizeBytes p); [|assumption].
  destruct (lruQueue p) as [|k rest] eqn:Q; [assumption|].
  apply IH.
  - apply (separated_incl _ (k :: rest)); [|exact Hsep].
    intros x Hx. right. now apply evict_turn_queue_incl in Hx.
  - destruct H as [HT ND HQ].
    apply evict_turn_consistent; try assumption. now rewrite <- Q.
Qed.

(** With as many turns as the queue is long the loop ends for one of the
    two reasons of its [while]: the total is within the ceiling, or the
    queue is empty. *)
Lemma evictLoop_exit : forall turns p,
  (List.length (lruQueue p) <= turns)%nat ->
  withinBudget (evictLoop turns p) \/ lruQueue (evictLoop turns p) = [].
Proof.
  induction turns as [|n IH]; simpl; intros p Hlen.
  - right. destruct (lruQueue p); [reflexivity|simpl in Hlen; lia].
  - destruct (maxSizeBytes p <? currentSizeBytes p) eqn:Over.
    + destruct (lruQueue p) as [|k rest] eqn:Q; [now right|].
      apply IH. simpl in Hlen. case_contains.
      * etransitivity; [apply removeItem_queue_length|]. simpl. lia.
      * simpl. lia.
    + left. unfold withinBudget. apply Z.ltb_ge in Over. exact Over.
Qed.

Lemma consistent_empty_queue : forall p,
  consistent p -> lruQueue p = [] ->
  cacheMap p = [] /\ currentSizeBytes p = 0.
Proof.
  intros p [HT ND HQ] Q.
  assert (cacheMap p = []) as M.
  { destruct (cacheMap p) as [|[k v] m] eqn:E; [reflexivity|].
    exfalso. specialize (HQ k). rewrite Q in HQ. apply HQ. now left. }
  split; [assumption|]. unfold tracked in HT. now rewrite HT, M.
Qed.

Lemma evictIfNecessary_consistent : forall p,
  separated (lruQueue p) ->
  consistent p -> consistent (evictIfNecessary p).
Proof. intros. now apply evictLoop_consistent. Qed.

Lemma evictIfNecessary_queue_incl : forall p x,
  In x (lruQueue (evictIfNecessary p)) -> In x (lruQueue p).
Proof. intros p x. apply evictLoop_queue_incl. Qed.

Lemma evictIfNecessary_max : forall p,
  maxSizeBytes (evictIfNecessary p) = maxSizeBytes p.
Proof. intros. apply evictLoop_max. Qed.

Lemma evictIfNecessary_withinBudget : forall p,
  separated (lruQueue p) ->
  consistent p -> 0 <= maxSizeBytes p -> withinBudget (evictIfNecessary p).
Proof.
  intros p Hsep HC Hmax. unfold evictIfNecessary.
  destruct (evictLoop_exit (List.length (lruQueue p)) p (le_n _)) as [H|H];
    [assumption|].
  pose proof (evictLoop_consistent (List.length (lruQueue p)) p Hsep HC)
    as HC'.
  destruct (consistent_empty_queue _ HC' H) as [_ H0].
  unfold withinBudget. rewrite H0, evictLoop_max. assumption.
Qed.

(** *** The public operations keep the table and the queue in agreement *)

Lemma find_contains : forall key (m : QHash.t (K := CacheKey) (V := CachedItem)),
  QHash.contains CacheKey_eqb key m =
  match QHash.find CacheKey_eqb key m with Some _ => true | None => false end.
Proof. reflexivity. Qed.

Lemma put_stage_consistent : forall now p key img,
  separated (key :: lruQueue p) ->
  consistent p ->
  consistent
    match QHash.find CacheKey_eqb key (cacheMap p) with
    | Some existing =>
        mkPrivate
          (QHash.update CacheKey_eqb key
             (fun _ => mkCachedItem img now 1) (cacheMap p))
          (QList.enqueue key (QList.removeAll operator_eq key (lruQueue p)))
          (maxSizeBytes p)
          (currentSizeBytes p +
           (calculateImageSizeBytes img -
            calculateImageSizeBytes (image existing)))
    | None =>
        mkPrivate
          (QHash.insert CacheKey_eqb key (mkCachedItem img now 1) (cacheMap p))
          (QList.enqueue key (lruQueue p))
          (maxSizeBytes p)
          (currentSizeBytes p + calculateImageSizeBytes img)
    end.
Proof.
  intros now p key img Hsep [HT ND HQ].
  destruct (QHash.find CacheKey_eqb key (cacheMap p)) as [it|] eqn:E.
  - rewrite (removeAll_exact key (lruQueue p) Hsep).
    constructor; simpl.
    + unfold tracked; simpl.
      rewrite (QHashFacts.total_update CacheKey_eqb cost key _ _ it E).
      unfold tracked in HT. unfold cost at 2 3. simpl. lia.
    + now rewrite QHashFacts.keys_update.
    + intros k Hk. rewrite QHashFacts.keys_update in Hk.
      unfold QList.enqueue. apply in_or_app.
      destruct (CacheKey_eqb k key) eqn:Ek.
      * apply CacheKey_eqb_eq in Ek. subst. right. now left.
      * left. apply (QHashFacts.In_removeAll CacheKey_eqb CacheKey_eqb_eq).
        split; [|now apply HQ].
        intro; subst. rewrite CacheKey_eqb_refl in Ek. discriminate.
  - assert (QHash.contains CacheKey_eqb key (cacheMap p) = false) as C
      by (rewrite find_contains, E; reflexivity).
    constructor; simpl.
    + unfold tracked; simpl.
      rewrite (QHashFacts.total_insert_new CacheKey_eqb cost key _ _ C).
      unfold tracked in HT. unfold cost at 2. simpl. lia.
    + rewrite (QHashFacts.keys_insert_new CacheKey_eqb key _ _ C).
      apply NoDup_app; [assumption|constructor; [intros []|constructor]|].
      intros x Hx [<-|[]].
      apply (QHashFacts.contains_false CacheKey_eqb CacheKey_eqb_eq) in C.
      contradiction.
    + intros k Hk.
      rewrite (QHashFacts.keys_insert_new CacheKey_eqb key _ _ C) in Hk.
      unfold QList.enqueue. apply in_or_app. apply in_app_or in Hk.
      destruct Hk as [Hk|Hk]; [left; now apply HQ|now right].
Qed.

(** The queue that [put] hands to its eviction pass holds the key and
    keys of the queue before. *)
Lemma put_stage_queue_incl : forall now p key img x,
  In x (lruQueue
          match QHash.find CacheKey_eqb key (cacheMap p) with
          | Some existing =>
              mkPrivate
                (QHash.update CacheKey_eqb key
                   (fun _ => mkCachedItem img now 1) (cacheMap p))
                (QList.enqueue key
                   (QList.removeAll operator_eq key (lruQueue p)))
                (maxSizeBytes p)
                (currentSizeBytes p +
                 (calculateImageSizeBytes img -
                  calculateImageSizeBytes (image existing)))
          | None =>
              mkPrivate
                (QHash.insert CacheKey_eqb key (mkCachedItem img now 1)
                   (cacheMap p))
                (QList.enqueue key (lruQueue p))
                (maxSizeBytes p)
                (currentSizeBytes p + calculateImageSizeBytes img)
          end) ->
  In x (key :: lruQueue p).
Proof.
  intros now p key img x.
  destruct (QHash.find CacheKey_eqb key (cacheMap p)); simpl;
    unfold QList.enqueue; intro H; apply in_app_or in H;
    destruct H as [H|[<-|[]]]; try (now left); right;
    [now apply removeAll_incl in H|exact H].
Qed.

Lemma put_queue_incl : forall now p key img x,
  In x (lruQueue (put now p key img)) -> In x (key :: lruQueue p).
Proof.
  intros now p key img x. unfold put.
  destruct (calculateImageSizeBytes img =? 0); [now right|].
  intro H. apply evictIfNecessary_queue_incl in H.
  now apply put_stage_queue_incl in H.
Qed.

Lemma put_consistent : forall now p key img,
  separated (key :: lruQueue p) ->
  consistent p -> consistent (put now p key img).
Proof.
  intros now p key img Hsep H. unfold put.
  destruct (calculateImageSizeBytes img =? 0); [assumption|].
  apply evictIfNecessary_consistent; [|now apply put_stage_consistent].
  apply (separated_incl _ (key :: lruQueue p)); [|exact Hsep].
  intros x. apply put_stage_queue_incl.
Qed.

Lemma put_max : forall now p key img,
  maxSizeBytes (put now p key img) = maxSizeBytes p.
Proof.
  intros now p key img. unfold put.
  destruct (calculateImageSizeBytes img =? 0); [reflexivity|].
  rewrite evictIfNecessary_max.
  now destruct (QHash.find CacheKey_eqb key (cacheMap p)).
Qed.

Lemma put_withinBudget : forall now p key img,
  separated (key :: lruQueue p) ->
  consistent p -> 0 <= maxSizeBytes p -> withinBudget p ->
  withinBudget (put now p key img).
Proof.
  intros now p key img Hsep HC Hmax HB. unfold put.
  destruct (calculateImageSizeBytes img =? 0); [assumption|].
  apply evictIfNecessary_withinBudget.
  - apply (separated_incl _ (key :: lruQueue p)); [|exact Hsep].
    intros x. apply put_stage_queue_incl.
  - now apply put_stage_consistent.
  - now destruct (QHash.find CacheKey_eqb key (cacheMap p)).
Qed.

Lemma get_queue_incl : forall now p key x,
  In x (lruQueue (snd (get now p key))) -> In x (key :: lruQueue p).
Proof.
  intros now p key x. unfold get.
  destruct (QHash.find CacheKey_eqb key (cacheMap p)); simpl;
    [|now right].
  unfold QList.enqueue. intro H. apply in_app_or in H.
  destruct H as [H|[<-|[]]]; [right|now left].
  now apply removeAll_incl in H.
Qed.

Lemma get_consistent : forall now p key,
  separated (key :: lruQueue p) ->
  consistent p -> consistent (snd (get now p key)).
Proof.
  intros now p key Hsep [HT ND HQ]. unfold get.
  destruct (QHash.find CacheKey_eqb key (cacheMap p)) as [it|] eqn:E;
    simpl; [|now constructor].
  rewrite (removeAll_exact key (lruQueue p) Hsep).
  constructor; simpl.
  - unfold tracked; simpl.
    rewrite (QHashFacts.total_update CacheKey_eqb cost key _ _ it E).
    unfold tracked in HT. unfold cost at 2 3. simpl. lia.
  - now rewrite QHashFacts.keys_update.
  - intros k Hk. rewrite QHashFacts.keys_update in Hk.
    unfold QList.enqueue. apply in_or_app.
    destruct (CacheKey_eqb k key) eqn:Ek.
    + apply CacheKey_eqb_eq in Ek. subst. right. now left.
    + left. apply (QHashFacts.In_removeAll CacheKey_eqb CacheKey_eqb_eq).
      split; [|now apply HQ].
      intro; subst. rewrite CacheKey_eqb_refl in Ek. discriminate.
Qed.

Lemma get_sizes : forall now p key,
  currentSizeBytes (snd (get now p key)) = currentSizeBytes p /\
  maxSizeBytes (snd (get now p key)) = maxSizeBytes p.
Proof.
  intros now p key. unfold get.
  now destruct (QHash.find CacheKey_eqb key (cacheMap p)).
Qed.

Lemma clear_consistent : forall p, consistent (clear p).
Proof.
  intro p. constructor; simpl; [reflexivity|constructor|intros k []].
Qed.

Lemma setMaxSizeBytes_consistent : forall p size,
  separated (lruQueue p) ->
  consistent p -> consistent (setMaxSizeBytes p size).
Proof.
  intros p size Hsep [HT ND HQ]. apply evictIfNecessary_consistent.
  - exact Hsep.
  - now constructor.
Qed.

Lemma setMaxSizeBytes_withinBudget : forall p size,
  separated (lruQueue p) ->
  consistent p -> 0 <= size -> withinBudget (setMaxSizeBytes p size).
Proof.
  intros p size Hsep [HT ND HQ] Hs. apply evictIfNecessary_withinBudget;
    [exact Hsep|now constructor|assumption].
Qed.

Lemma setMaxSizeBytes_queue_incl : forall p size x,
  In x (lruQueue (setMaxSizeBytes p size)) -> In x (lruQueue p).
Proof.
  intros p size x H. now apply evictIfNecessary_queue_incl in H.
Qed.

Lemma setMaxSizeBytes_max : forall p size,
  maxSizeBytes (setMaxSizeBytes p size) = size.
Proof. intros. unfold setMaxSizeBytes. now rewrite evictIfNecessary_max. Qed.

(** *** clearForDocument and the byte total *)

Lemma erase_after_kept : forall key v
    (kept rest : QHash.t (K := CacheKey) (V := CachedItem)),
  ~ In key (QHash.keys kept) ->
  QHash.erase CacheKey_eqb key (kept ++ (key, v) :: rest) = kept ++ rest.
Proof.
  induction kept as [|[k w] kept IH]; simpl; intros rest Hn.
  - now rewrite CacheKey_eqb_refl.
  - rewrite CacheKey_eqb_neq by (intro; subst; apply Hn; now left).
    f_equal. apply IH. intro. apply Hn. now right.
Qed.

Lemma clearLoop_tracked : forall todo doc kept p p',
  cacheMap p = kept ++ todo ->
  Forall (fun e => documentId (fst e) <> doc) kept ->
  tracked p ->
  clearLoop todo doc p = Some p' ->
  tracked p'.
Proof.
  induction todo as [|[k v] rest IH]; simpl; intros doc kept p p' M K HT R.
  - now inversion R; subst.
  - destruct (documentId k =? doc) eqn:D.
    + destruct rest as [|[next w] rest']; [discriminate|].
      apply Z.eqb_eq in D.
      assert (~ In k (QHash.keys kept)) as Hn.
      { intro Hin. apply in_map_iff in Hin. destruct Hin as [e [He Hin]].
        rewrite Forall_forall in K. apply (K e Hin). now rewrite He. }
      apply (IH doc kept _ p') in R; [exact R| | exact K|].
      * simpl. rewrite M. now apply erase_after_kept.
      * unfold tracked in *. simpl. rewrite M, erase_after_kept by exact Hn.
        rewrite HT, M, !QHashFacts.total_app. simpl.
        unfold cost at 2. lia.
    + apply (IH doc (kept ++ [(k, v)]) p p') in R; [exact R| |  |exact HT].
      * now rewrite <- app_assoc.
      * apply Forall_app. split; [exact K|]. constructor; [|constructor].
        simpl. now apply Z.eqb_neq.
Qed.

Lemma clearForDocument_tracked : forall p doc p',
  tracked p -> clearForDocument p doc = Some p' -> tracked p'.
Proof.
  intros p doc p' HT R. unfold clearForDocument in R.
  now apply (clearLoop_tracked _ doc [] p p') in R.
Qed.

(** *** Sequences of calls *)

Lemma put_tracked : forall now p key img,
  tracked p -> tracked (put now p key img).
Proof.
  intros now p key img HT. unfold put.
  destruct (calculateImageSizeBytes img =? 0); [assumption|].
  apply evictLoop_tracked.
  destruct (QHash.find CacheKey_eqb key (cacheMap p)) as [it|] eqn:E;
    unfold tracked in *; simpl.
  - rewrite (QHashFacts.total_update CacheKey_eqb cost key _ _ it E).
    unfold cost at 2 3. simpl. lia.
  - rewrite QHashFacts.total_insert_new
      by (rewrite find_contains, E; reflexivity).
    unfold cost at 2. simpl. lia.
Qed.

Lemma get_tracked : forall now p key,
  tracked p -> tracked (snd (get now p key)).
Proof.
  intros now p key HT. unfold get.
  destruct (QHash.find CacheKey_eqb key (cacheMap p)) as [it|] eqn:E;
    simpl; [|assumption].
  unfold tracked in *; simpl.
  rewrite (QHashFacts.total_update CacheKey_eqb cost key _ _ it E).
  unfold cost at 2 3. simpl. lia.
Qed.

Lemma step_tracked : forall p o p',
  tracked p -> step p o = Some p' -> tracked p'.
Proof.
  intros p [now key img|now key|doc| |size] p' HT R; simpl in R.
  - inversion R; subst. now apply put_tracked.
  - inversion R; subst. now apply get_tracked.
  - now apply (clearForDocument_tracked p doc).
  - inversion R; subst. reflexivity.
  - inversion R; subst. now apply evictLoop_tracked.
Qed.

Lemma run_tracked : forall ops p p',
  tracked p -> run p ops = Some p' -> tracked p'.
Proof.
  induction ops as [|o ops IH]; simpl; intros p p' HT R.
  - now inversion R; subst.
  - destruct (step p o) as [p1|] eqn:S; [|discriminate].
    apply (IH p1 p'); [|assumption]. now apply (step_tracked p o).
Qed.

(** A call leaves in the queue keys that were there, or the key it
    names. *)
Lemma clearLoop_queue_within : forall todo doc p p' x,
  clearLoop todo doc p = Some p' ->
  In x (lruQueue p') -> In x (lruQueue p).
Proof.
  induction todo as [|[k v] rest IH]; simpl; intros doc p p' x R H.
  - now inversion R; subst.
  - destruct (documentId k =? doc).
    + destruct rest as [|[next w] rest']; [discriminate|].
      apply (IH doc _ p' x R) in H. simpl in H.
      now apply removeAll_incl in H.
    + now apply (IH doc p p' x R).
Qed.

Lemma step_queue_incl : forall p o p' x,
  step p o = Some p' ->
  In x (lruQueue p') -> In x (opKeys o ++ lruQueue p).
Proof.
  intros p [now key img|now key|doc| |size] p' x R H; simpl in *.
  - inversion R; subst. now apply put_queue_incl in H.
  - inversion R; subst. now apply get_queue_incl in H.
  - now apply (clearLoop_queue_within _ doc p p' x R).
  - inversion R; subst. destruct H.
  - inversion R; subst. now apply setMaxSizeBytes_queue_incl in H.
Qed.

Lemma step_sound : forall p o,
  separated (opKeys o ++ lruQueue p) ->
  plainOp o -> sound p -> exists p', step p o = Some p' /\ sound p'.
Proof.
  intros p [now key img|now key|doc| |size] Hsep Hop (HC & Hmax & HB);
    simpl in *; try contradiction; eexists; (split; [reflexivity|]).
  - split; [|split].
    + now apply put_consistent.
    + now rewrite put_max.
    + now apply put_withinBudget.
  - destruct (get_sizes now p key) as [Hc Hm]. split; [|split].
    + now apply get_consistent.
    + now rewrite Hm.
    + unfold withinBudget. now rewrite Hc, Hm.
  - split; [|split]; [apply clear_consistent|exact Hmax|exact Hmax].
  - split; [|split].
    + now apply setMaxSizeBytes_consistent.
    + now rewrite setMaxSizeBytes_max.
    + now apply setMaxSizeBytes_withinBudget.
Qed.

(** The keys of a sequence of calls and of the queue, for the next call
    and for the calls after it. *)
Lemma separated_step : forall o ops p p',
  separated (flat_map opKeys (o :: ops) ++ lruQueue p) ->
  step p o = Some p' ->
  separated (opKeys o ++ lruQueue p) /\
  separated (flat_map opKeys ops ++ lruQueue p').
Proof.
  intros o ops p p' Hsep R. split.
  - apply (separated_incl _ _ ) with (2 := Hsep).
    intros x Hx. simpl. apply in_app_or in Hx.
    rewrite <- app_assoc. apply in_or_app.
    destruct Hx as [Hx|Hx]; [now left|].
    right. apply in_or_app. now right.
  - apply (separated_incl _ _ ) with (2 := Hsep).
    intros x Hx. simpl. apply in_app_or in Hx.
    rewrite <- app_assoc.
    destruct Hx as [Hx|Hx].
    + apply in_or_app. right. apply in_or_app. now left.
    + apply (step_queue_incl p o p' x R) in Hx.
      apply in_app_or in Hx. apply in_or_app.
      destruct Hx as [Hx|Hx]; [now left|].
      right. apply in_or_app. now right.
Qed.

Lemma run_sound : forall ops p,
  separated (flat_map opKeys ops ++ lruQueue p) ->
  Forall plainOp ops -> sound p -> exists p', run p ops = Some p' /\ sound p'.
Proof.
  induction ops as [|o ops IH]; simpl; intros p Hsep HF HS.
  - now exists p.
  - inversion HF as [|? ? Ho HF']; subst.
    assert (exists p1, step p o = Some p1) as [p1 S1].
    { destruct o; simpl in *; try contradiction; eexists; reflexivity. }
    destruct (separated_step o ops p p1 Hsep S1) as [Hs1 Hs2].
    destruct (step_sound p o Hs1 Ho HS) as [p1' [S1' HS1]].
    rewrite S1 in S1'. inversion S1'; subst p1'.
    rewrite S1. now apply IH.
Qed.

Lemma init_sound : sound init.
Proof.
  split; [|split].
  - constructor; simpl; [reflexivity|constructor|intros k []].
  - simpl; lia.
  - unfold withinBudget; simpl; lia.
Qed.

(** *** Stepping through a concrete run *)

Lemma evictLoop_within : forall n p, withinBudget p -> evictLoop n p = p.
Proof.
  intros [|n] p H; simpl; [reflexivity|].
  unfold withinBudget in H. apply Z.ltb_ge in H. now rewrite H.
Qed.

Lemma evictLoop_turn : forall n p k rest it,
  lruQueue p = k :: rest ->
  maxSizeBytes p < currentSizeBytes p ->
  QHash.find CacheKey_eqb k (cacheMap p) = Some it ->
  evictLoop (S n) p =
  evictLoop n
    (mkPrivate (QHash.erase CacheKey_eqb k (cacheMap p))
               (QList.removeAll operator_eq k rest)
               (maxSizeBytes p)
               (currentSizeBytes p - calculateImageSizeBytes (image it))).
Proof.
  intros n p k rest it Q Over F. simpl.
  apply Z.ltb_lt in Over. rewrite Over, Q.
  unfold QHash.contains, removeItem. simpl. now rewrite F.
Qed.

Lemma put_new : forall now p key img,
  calculateImageSizeBytes img <> 0 ->
  QHash.find CacheKey_eqb key (cacheMap p) = None ->
  put now p key img =
  evictIfNecessary
    (mkPrivate (cacheMap p ++ [(key, mkCachedItem img now 1)])
               (lruQueue p ++ [key])
               (maxSizeBytes p)
               (currentSizeBytes p + calculateImageSizeBytes img)).
Proof.
  intros now p key img Hs F. unfold put.
  apply Z.eqb_neq in Hs. rewrite Hs, F.
  unfold QHash.insert, QHash.contains. now rewrite F.
Qed.

(** *** A put larger than the whole ceiling *)



(** The loop only takes entries away: what it leaves was there before. *)
Lemma evictLoop_finds : forall turns p k v,
  NoDup (QHash.keys (cacheMap p)) ->
  QHash.find CacheKey_eqb k (cacheMap (evictLoop turns p)) = Some v ->
  QHash.find CacheKey_eqb k (cacheMap p) = Some v.
Proof.
  induction turns as [|n IH]; simpl; intros p k v ND H; [assumption|].
  destruct (maxSizeBytes p <? currentSizeBytes p); [|assumption].
  destruct (lruQueue p) as [|k0 rest]; [assumption|].
  apply IH in H.
  - revert H. case_contains; [|trivial].
    unfold removeItem. simpl.
    destruct (QHash.find CacheKey_eqb k0 (cacheMap p)); [|trivial].
    simpl. intro H.
    destruct (CacheKey_eqb k k0) eqn:E.
    + apply CacheKey_eqb_eq in E. subst k0.
      rewrite (QHashFacts.find_erase_same CacheKey_eqb CacheKey_eqb_eq) in H
        by assumption.
      discriminate.
    + rewrite (QHashFacts.find_erase_other CacheKey_eqb CacheKey_eqb_eq) in H;
        [assumption|].
      intro; subst. rewrite CacheKey_eqb_refl in E. discriminate.
  - case_contains; [|exact ND].
    unfold removeItem. simpl.
    destruct (QHash.find CacheKey_eqb k0 (cacheMap p)); [|exact ND].
    simpl. now apply QHashFacts.NoDup_erase.
Qed.



(** *** get *)

Lemma get_present : forall now p key it,
  QHash.find CacheKey_eqb key (cacheMap p) = Some it ->
  get now p key =
  (image it,
   mkPrivate
     (QHash.update CacheKey_eqb key
        (fun i => mkCachedItem (image i) now (accessCount i + 1))
        (cacheMap p))
     (QList.enqueue key (QList.removeAll operator_eq key (lruQueue p)))
     (maxSizeBytes p) (currentSizeBytes p)).
Proof. intros now p key it F. unfold get. now rewrite F. Qed.

End PageCacheFacts.

(** ** IntelligentCache: the table and the byte total *)

Module IntelligentCacheFacts.
Import IntelligentCache.

Local Abbreviation table := (QHash.t (K := string) (V := CachedItem)).

Lemma ic_eqb_eq : forall a b : string, String.eqb a b = true <-> a = b.
Proof. exact String.eqb_eq. Qed.

Lemma ic_isEmpty_true : forall s, QString_isEmpty s = true <-> s = EmptyString.
Proof. intros [|c s]; simpl; split; congruence. Qed.

(** *** The scans *)

Lemma ic_scan_key : forall (T : Type) (ltb : T -> T -> bool)
    (measure : CachedItem -> T) (m : table) (acc : T * string),
  let r :=
    fold_left
      (fun acc e =>
         if ltb (measure (snd e)) (fst acc) then (measure (snd e), fst e)
         else acc) m acc in
  snd r = snd acc \/ In (snd r) (QHash.keys m).
Proof.
  intros T ltb measure. induction m as [|[k v] m IH]; simpl; intro acc.
  - now left.
  - destruct (IH (if ltb (measure v) (fst acc) then (measure v, k) else acc))
      as [H|H].
    + destruct (ltb (measure v) (fst acc)); simpl in H.
      * right. left. now rewrite H.
      * now left.
    + right. now right.
Qed.

Lemma ic_scan_in : forall (T : Type) (ltb : T -> T -> bool)
    (measure : CachedItem -> T) (start : T) (m : table),
  QString_isEmpty (snd (scan ltb measure start m)) = false ->
  In (snd (scan ltb measure start m)) (QHash.keys m).
Proof.
  intros T ltb measure start m H. unfold scan in *.
  destruct (ic_scan_key T ltb measure m (start, EmptyString)) as [E|E];
    [|exact E].
  simpl in E. rewrite E in H. discriminate.
Qed.

Lemma ic_keyToEvict_in : forall now p,
  QString_isEmpty (keyToEvict now p) = false ->
  In (keyToEvict now p) (QHash.keys (cacheData p)).
Proof.
  intros now p H. unfold keyToEvict in *.
  destruct (evictionPolicy p); now apply ic_scan_in.
Qed.



(** *** The eviction loop *)

Lemma ic_evictLoop_max : forall turns clock n p,
  maxSizeBytes (evictLoop turns clock n p) = maxSizeBytes p.
Proof.
  induction turns as [|t IH]; simpl; intros clock n p; [reflexivity|].
  destruct ((maxSizeBytes p <? currentSizeBytes p)
            && negb (QHash.isEmpty (cacheData p))); [|reflexivity].
  destruct (negb (QString_isEmpty (keyToEvict (clock n) p))); [|reflexivity].
  destruct (QHash.find String.eqb (keyToEvict (clock n) p) (cacheData p));
    [|reflexivity].
  now rewrite IH.
Qed.

Lemma ic_evictLoop_policy : forall turns clock n p,
  evictionPolicy (evictLoop turns clock n p) = evictionPolicy p.
Proof.
  induction turns as [|t IH]; simpl; intros clock n p; [reflexivity|].
  destruct ((maxSizeBytes p <? currentSizeBytes p)
            && negb (QHash.isEmpty (cacheData p))); [|reflexivity].
  destruct (negb (QString_isEmpty (keyToEvict (clock n) p))); [|reflexivity].
  destruct (QHash.find String.eqb (keyToEvict (clock n) p) (cacheData p));
    [|reflexivity].
  now rewrite IH.
Qed.

Lemma ic_evictLoop_consistent : forall turns clock n p,
  consistent p -> consistent (evictLoop turns clock n p).
Proof.
  induction turns as [|t IH]; simpl; intros clock n p HC; [assumption|].
  destruct ((maxSizeBytes p <? currentSizeBytes p)
            && negb (QHash.isEmpty (cacheData p))); [|assumption].
  destruct (negb (QString_isEmpty (keyToEvict (clock n) p))).
  - destruct (QHash.find String.eqb (keyToEvict (clock n) p) (cacheData p))
      as [item|] eqn:F; [|assumption].
    apply IH. destruct HC as [HT ND]. constructor; simpl.
    + unfold tracked in *. simpl.
      rewrite (QHashFacts.total_erase String.eqb sizeBytes _ _ item F). lia.
    + now apply QHashFacts.NoDup_erase.
  - destruct HC as [HT ND]. now constructor.
Qed.

Lemma ic_evictLoop_nonnegative : forall turns clock n p,
  nonnegativeSizes p -> nonnegativeSizes (evictLoop turns clock n p).
Proof.
  induction turns as [|t IH]; simpl; intros clock n p HN; [assumption|].
  destruct ((maxSizeBytes p <? currentSizeBytes p)
            && negb (QHash.isEmpty (cacheData p))); [|assumption].
  destruct (negb (QString_isEmpty (keyToEvict (clock n) p))); [|assumption].
  destruct (QHash.find String.eqb (keyToEvict (clock n) p) (cacheData p));
    [|assumption].
  apply IH. unfold nonnegativeSizes in *. simpl.
  now apply QHashFacts.Forall_erase.
Qed.

(** The pass writes at most one warning, its last act. *)
Lemma ic_evictLoop_warnings : forall turns clock n p,
  warnings (evictLoop turns clock n p) = warnings p \/
  warnings (evictLoop turns clock n p) = warnings p ++ [noCandidateWarning].
Proof.
  induction turns as [|t IH]; simpl; intros clock n p; [now left|].
  destruct ((maxSizeBytes p <? currentSizeBytes p)
            && negb (QHash.isEmpty (cacheData p))); [|now left].
  destruct (negb (QString_isEmpty (keyToEvict (clock n) p))); [|now right].
  destruct (QHash.find String.eqb (keyToEvict (clock n) p) (cacheData p))
    as [item|]; [|now left].
  exact (IH clock (S n)
           (mkPrivate
              (QHash.erase String.eqb (keyToEvict (clock n) p) (cacheData p))
              (maxSizeBytes p) (currentSizeBytes p - sizeBytes item)
              (evictionPolicy p) (warnings p))).
Qed.

(** With as many turns as the table has entries the loop ends for one of
    the reasons the source gives it: the total is within the ceiling, the
    table is empty, or no key was found and the warning was written. *)
Lemma ic_evictLoop_exit : forall turns clock n p,
  (List.length (cacheData p) <= turns)%nat ->
  withinBudget (evictLoop turns clock n p) \/
  cacheData (evictLoop turns clock n p) = [] \/
  warnings (evictLoop turns clock n p) = warnings p ++ [noCandidateWarning].
Proof.
  induction turns as [|t IH]; simpl; intros clock n p Hlen.
  - right. left. destruct (cacheData p); [reflexivity|simpl in Hlen; lia].
  - destruct (maxSizeBytes p <? currentSizeBytes p) eqn:Over; simpl.
    + destruct (QHash.isEmpty (cacheData p)) eqn:Emp; simpl.
      * right. left. destruct (cacheData p); [reflexivity|discriminate].
      * destruct (QString_isEmpty (keyToEvict (clock n) p)) eqn:K; simpl.
        -- right. now right.
        -- pose proof (ic_keyToEvict_in _ _ K) as Hin.
           apply (QHashFacts.In_keys_find String.eqb ic_eqb_eq) in Hin.
           destruct Hin as [item F]. rewrite F.
           pose proof (QHashFacts.length_erase String.eqb _ _ _ F) as HL.
           match goal with
           | |- context [evictLoop t clock (S n) ?q] =>
               specialize (IH clock (S n) q)
           end.
           simpl in IH. apply IH. lia.
    + left. unfold withinBudget. now apply Z.ltb_ge.
Qed.


Lemma ic_evictLoop_finds : forall turns clock n p k v,
  NoDup (QHash.keys (cacheData p)) ->
  QHash.find String.eqb k (cacheData (evictLoop turns clock n p)) = Some v ->
  QHash.find String.eqb k (cacheData p) = Some v.
Proof.
  induction turns as [|t IH]; simpl; intros clock n p k v ND H; [assumption|].
  destruct ((maxSizeBytes p <? currentSizeBytes p)
            && negb (QHash.isEmpty (cacheData p))); [|assumption].
  destruct (negb (QString_isEmpty (keyToEvict (clock n) p))); [|assumption].
  destruct (QHash.find String.eqb (keyToEvict (clock n) p) (cacheData p))
    eqn:F; [|assumption].
  apply IH in H; simpl in *; [|now apply QHashFacts.NoDup_erase].
  destruct (String.eqb k (keyToEvict (clock n) p)) eqn:E.
  - apply ic_eqb_eq in E. subst k.
    rewrite (QHashFacts.find_erase_same String.eqb ic_eqb_eq) in H
      by assumption.
    discriminate.
  - rewrite (QHashFacts.find_erase_other String.eqb ic_eqb_eq) in H;
      [assumption|].
    intro; subst. rewrite String.eqb_refl in E. discriminate.
Qed.

(** *** The public operations *)

Lemma ic_insertItem_find : forall now p k d sizeHint md,
  NoDup (QHash.keys (cacheData p)) ->
  QHash.find String.eqb k (cacheData (insertItem now p k d sizeHint md)) =
  Some (mkCachedItem d (itemSizeOf k d sizeHint md) now now 1 1 k md).
Proof.
  intros now p k d sizeHint md ND. unfold insertItem.
  destruct (QHash.find String.eqb k (cacheData p)) as [ex|] eqn:F; simpl.
  - unfold QHash.insert, QHash.contains.
    rewrite (QHashFacts.find_erase_same String.eqb ic_eqb_eq) by assumption.
    rewrite (QHashFacts.find_app_new String.eqb).
    rewrite (QHashFacts.find_erase_same String.eqb ic_eqb_eq) by assumption.
    now rewrite String.eqb_refl.
  - unfold QHash.insert, QHash.contains. rewrite F.
    rewrite (QHashFacts.find_app_new String.eqb), F.
    now rewrite String.eqb_refl.
Qed.

Lemma ic_insertItem_consistent : forall now p k d sizeHint md,
  consistent p -> consistent (insertItem now p k d sizeHint md).
Proof.
  intros now p k d sizeHint md [HT ND]. unfold insertItem.
  destruct (QHash.find String.eqb k (cacheData p)) as [ex|] eqn:F; simpl.
  - assert (QHash.contains String.eqb k
              (QHash.erase String.eqb k (cacheData p)) = false) as C.
    { unfold QHash.contains.
      now rewrite (QHashFacts.find_erase_same String.eqb ic_eqb_eq). }
    constructor; simpl.
    + unfold tracked in *. simpl.
      rewrite (QHashFacts.total_insert_new String.eqb sizeBytes _ _ _ C).
      rewrite (QHashFacts.total_erase String.eqb sizeBytes _ _ ex F).
      simpl. lia.
    + rewrite (QHashFacts.keys_insert_new String.eqb _ _ _ C).
      apply NoDup_app; [now apply QHashFacts.NoDup_erase
                       |constructor; [intros []|constructor]|].
      intros x Hx [<-|[]].
      apply (QHashFacts.contains_false String.eqb ic_eqb_eq) in C.
      contradiction.
  - assert (QHash.contains String.eqb k (cacheData p) = false) as C
      by (unfold QHash.contains; now rewrite F).
    constructor; simpl.
    + unfold tracked in *. simpl.
      rewrite (QHashFacts.total_insert_new String.eqb sizeBytes _ _ _ C).
      simpl. lia.
    + rewrite (QHashFacts.keys_insert_new String.eqb _ _ _ C).
      apply NoDup_app; [assumption|constructor; [intros []|constructor]|].
      intros x Hx [<-|[]].
      apply (QHashFacts.contains_false String.eqb ic_eqb_eq) in C.
      contradiction.
Qed.

Lemma ic_insertItem_nonnegative : forall now p k d sizeHint md,
  0 <= itemSizeOf k d sizeHint md ->
  nonnegativeSizes p -> nonnegativeSizes (insertItem now p k d sizeHint md).
Proof.
  intros now p k d sizeHint md Hs HN. unfold insertItem, nonnegativeSizes in *.
  assert (forall m : table,
            Forall (fun e => 0 <= sizeBytes (snd e)) m ->
            Forall (fun e => 0 <= sizeBytes (snd e))
              (QHash.insert String.eqb k
                 (mkCachedItem d (itemSizeOf k d sizeHint md) now now 1 1 k md)
                 m)) as Hins.
  { intros m Hm. unfold QHash.insert.
    destruct (QHash.contains String.eqb k m).
    - apply QHashFacts.Forall_update; [assumption|]. now intros.
    - apply Forall_app. split; [assumption|]. constructor; [|constructor].
      exact Hs. }
  destruct (QHash.find String.eqb k (cacheData p)); simpl; apply Hins;
    [now apply QHashFacts.Forall_erase|assumption].
Qed.

Lemma ic_insertItem_fields : forall now p k d sizeHint md,
  maxSizeBytes (insertItem now p k d sizeHint md) = maxSizeBytes p /\
  evictionPolicy (insertItem now p k d sizeHint md) = evictionPolicy p /\
  warnings (insertItem now p k d sizeHint md) = warnings p.
Proof.
  intros. unfold insertItem.
  now destruct (QHash.find String.eqb k (cacheData p)).
Qed.

Lemma ic_put_consistent : forall now clock p k d sizeHint md,
  consistent p -> consistent (snd (put now clock p k d sizeHint md)).
Proof.
  intros. simpl. apply ic_evictLoop_consistent. now apply ic_insertItem_consistent.
Qed.

Lemma ic_get_consistent : forall now p k,
  consistent p -> consistent (snd (get now p k)).
Proof.
  intros now p k [HT ND]. unfold get.
  destruct (QHash.find String.eqb k (cacheData p)) as [it|] eqn:F; simpl;
    [|now constructor].
  constructor; simpl.
  - unfold tracked in *. simpl.
    rewrite (QHashFacts.total_update String.eqb sizeBytes _ _ _ it F).
    simpl. lia.
  - now rewrite QHashFacts.keys_update.
Qed.

Lemma ic_hintAccess_consistent : forall now p k,
  consistent p -> consistent (hintAccess now p k).
Proof.
  intros now p k [HT ND]. unfold hintAccess.
  destruct (QHash.find String.eqb k (cacheData p)) as [it|] eqn:F; simpl;
    [|now constructor].
  constructor; simpl.
  - unfold tracked in *. simpl.
    rewrite (QHashFacts.total_update String.eqb sizeBytes _ _ _ it F).
    simpl. lia.
  - now rewrite QHashFacts.keys_update.
Qed.

Lemma ic_remove_consistent : forall p k,
  consistent p -> consistent (snd (remove p k)).
Proof.
  intros p k [HT ND]. unfold remove.
  destruct (QHash.find String.eqb k (cacheData p)) as [it|] eqn:F; simpl;
    [|now constructor].
  constructor; simpl.
  - unfold tracked in *. simpl.
    rewrite (QHashFacts.total_erase String.eqb sizeBytes _ _ it F). lia.
  - now apply QHashFacts.NoDup_erase.
Qed.

Lemma ic_setMaxSizeBytes_consistent : forall clock p size,
  consistent p -> consistent (setMaxSizeBytes clock p size).
Proof.
  intros clock p size HC. unfold setMaxSizeBytes.
  destruct (size <=? 0); [assumption|].
  destruct (negb (maxSizeBytes p =? size)); [|assumption].
  apply ic_evictLoop_consistent. destruct HC as [HT ND]. now constructor.
Qed.

Lemma ic_step_consistent : forall p o, consistent p -> consistent (step p o).
Proof.
  intros p [now clock k d sizeHint md|now k|k| |clock size|policy|now k] HC;
    simpl.
  - now apply (ic_put_consistent now clock p k d sizeHint md).
  - now apply ic_get_consistent.
  - now apply ic_remove_consistent.
  - constructor; simpl; [reflexivity|constructor].
  - now apply ic_setMaxSizeBytes_consistent.
  - destruct HC as [HT ND]. now constructor.
  - now apply ic_hintAccess_consistent.
Qed.

Lemma ic_run_consistent : forall ops p, consistent p -> consistent (run p ops).
Proof.
  unfold run. induction ops as [|o ops IH]; simpl; intros p HC; [assumption|].
  apply IH. now apply ic_step_consistent.
Qed.

Lemma ic_init_consistent : consistent init.
Proof. constructor; simpl; [reflexivity|constructor]. Qed.

(** *** The ceiling *)

Lemma ic_evictIfNeeded_budget : forall clock p,
  consistent p -> 0 <= maxSizeBytes p ->
  withinBudget (evictIfNeeded clock p) \/
  warnings (evictIfNeeded clock p) = warnings p ++ [noCandidateWarning].
Proof.
  intros clock p HC Hmax. unfold evictIfNeeded.
  destruct (ic_evictLoop_exit (List.length (cacheData p)) clock 0 p (le_n _))
    as [H|[H|H]]; [now left| |now right].
  left. unfold withinBudget.
  pose proof (consistent_tracked _
                (ic_evictLoop_consistent (List.length (cacheData p)) clock 0 p HC))
    as HT.
  unfold tracked in HT. rewrite H in HT. simpl in HT.
  rewrite HT, ic_evictLoop_max. exact Hmax.
Qed.

Lemma ic_find_nonnegative : forall p k it,
  nonnegativeSizes p ->
  QHash.find String.eqb k (cacheData p) = Some it -> 0 <= sizeBytes it.
Proof.
  intros p k it HN F. apply (QHashFacts.find_In String.eqb ic_eqb_eq) in F.
  unfold nonnegativeSizes in HN. rewrite Forall_forall in HN.
  exact (HN _ F).
Qed.

Lemma ic_length_app_one : forall (l : list string) w,
  (List.length l < List.length (l ++ [w]))%nat.
Proof. intros. rewrite length_app. simpl. lia. Qed.

Lemma ic_evict_sound : forall p0 p clock,
  consistent p -> nonnegativeSizes p -> 0 < maxSizeBytes p ->
  (List.length (warnings p0) <= List.length (warnings p))%nat ->
  sound p0 (evictIfNeeded clock p).
Proof.
  intros p0 p clock HC HN Hmax HW. unfold sound.
  split; [now apply ic_evictLoop_consistent|].
  split; [now apply ic_evictLoop_nonnegative|].
  split; [unfold evictIfNeeded; now rewrite ic_evictLoop_max|].
  assert (List.length (warnings p)
            <= List.length (warnings (evictIfNeeded clock p)))%nat as HW'.
  { destruct (ic_evictLoop_warnings (List.length (cacheData p)) clock 0 p)
      as [E|E]; unfold evictIfNeeded; rewrite E; [lia|].
    rewrite length_app. lia. }
  split; [lia|].
  destruct (ic_evictIfNeeded_budget clock p HC) as [H|H]; [lia|now left|].
  right. unfold warnedSince. rewrite H, length_app. simpl. lia.
Qed.

Lemma ic_step_sound : forall p0 p o,
  sizedOp o -> sound p0 p -> sound p0 (step p o).
Proof.
  intros p0 p o Hop HS. pose proof HS as (HC & HN & Hmax & HW & HB).
  destruct o as [now clock k d sizeHint md|now k|k| |clock size|policy|now k];
    simpl in *.
  - destruct (ic_insertItem_fields now p k d sizeHint md) as (Em & _ & Ew).
    apply ic_evict_sound.
    + now apply ic_insertItem_consistent.
    + now apply ic_insertItem_nonnegative.
    + now rewrite Em.
    + now rewrite Ew.
  - split; [now apply ic_get_consistent|].
    unfold get. unfold withinBudget, warnedSince in *.
    destruct (QHash.find String.eqb k (cacheData p)) as [it|] eqn:F; simpl;
      [|tauto].
    split; [|tauto]. unfold nonnegativeSizes in *. simpl.
    apply QHashFacts.Forall_update; [assumption|]. now intros.
  - split; [now apply ic_remove_consistent|].
    unfold remove. unfold withinBudget, warnedSince in *.
    destruct (QHash.find String.eqb k (cacheData p)) as [it|] eqn:F; simpl;
      [|tauto].
    pose proof (ic_find_nonnegative p k it HN F).
    split; [unfold nonnegativeSizes in *; simpl;
            now apply QHashFacts.Forall_erase|].
    split; [assumption|]. split; [assumption|].
    destruct HB; [left; lia|now right].
  - split; [constructor; simpl; [reflexivity|constructor]|].
    split; [constructor|]. split; [assumption|]. split; [assumption|].
    left. unfold withinBudget. simpl. lia.
  - unfold setMaxSizeBytes. destruct (size <=? 0) eqn:S0; [exact HS|].
    destruct (negb (maxSizeBytes p =? size)); [|exact HS].
    apply Z.leb_gt in S0. apply ic_evict_sound; simpl; try assumption.
    destruct HC as [HT ND]. now constructor.
  - split; [destruct HC; now constructor|]. now destruct HS as [_ HS].
  - split; [now apply ic_hintAccess_consistent|].
    unfold hintAccess. unfold withinBudget, warnedSince in *.
    destruct (QHash.find String.eqb k (cacheData p)) as [it|] eqn:F; simpl;
      [|tauto].
    split; [|tauto]. unfold nonnegativeSizes in *. simpl.
    apply QHashFacts.Forall_update; [assumption|]. now intros.
Qed.

Lemma ic_run_sound : forall ops p0 p,
  Forall sizedOp ops -> sound p0 p -> sound p0 (run p ops).
Proof.
  unfold run. induction ops as [|o ops IH]; simpl; intros p0 p HF HS;
    [assumption|].
  inversion HF; subst. apply IH; [assumption|]. now apply ic_step_sound.
Qed.

Lemma ic_init_sound : sound init init.
Proof.
  unfold sound. split; [apply ic_init_consistent|].
  split; [constructor|]. simpl. split; [lia|]. split; [lia|].
  left. unfold withinBudget. simpl. lia.
Qed.

(** *** A put larger than the whole ceiling *)

Lemma ic_put_oversized : forall now clock p k d sizeHint md,
  consistent p -> nonnegativeSizes p -> 0 <= maxSizeBytes p ->
  maxSizeBytes p < itemSizeOf k d sizeHint md ->
  let p' := snd (put now clock p k d sizeHint md) in
  contains p' k = false \/
  (contains p' k = true /\
   warnings p' = warnings p ++ [noCandidateWarning] /\
   maxSizeBytes p' < currentSizeBytes p').
Proof.
  intros now clock p k d sizeHint md HC HN Hmax Hbig. simpl.
  set (stage := insertItem now p k d sizeHint md).
  destruct (ic_insertItem_fields now p k d sizeHint md) as (Em & _ & Ew).
  fold stage in Em, Ew.
  pose proof (ic_insertItem_consistent now p k d sizeHint md HC) as HCs.
  fold stage in HCs.
  assert (nonnegativeSizes stage) as HNs
    by (apply ic_insertItem_nonnegative; [lia|assumption]).
  pose proof (ic_insertItem_find now p k d sizeHint md (consistent_unique _ HC))
    as Hfind. fold stage in Hfind.
  unfold contains, QHash.contains.
  destruct (QHash.find String.eqb k (cacheData (evictIfNeeded clock stage)))
    as [it|] eqn:F; [right|now left].
  split; [reflexivity|].
  pose proof (ic_evictLoop_finds _ _ _ _ _ _ (consistent_unique _ HCs) F) as F0.
  rewrite Hfind in F0. inversion F0; subst it. clear F0.
  pose proof (ic_evictLoop_nonnegative (List.length (cacheData stage)) clock 0
                stage HNs) as HN'.
  pose proof (QHashFacts.total_ge_member String.eqb sizeBytes k _ _ HN' F)
    as Hge. cbn [sizeBytes] in Hge.
  pose proof (consistent_tracked _
                (ic_evictLoop_consistent (List.length (cacheData stage)) clock 0
                   stage HCs)) as HT.
  unfold tracked in HT. fold (evictIfNeeded clock stage) in HT.
  assert (maxSizeBytes (evictIfNeeded clock stage) = maxSizeBytes p) as Em'
    by (unfold evictIfNeeded; now rewrite ic_evictLoop_max).
  fold (evictIfNeeded clock stage) in Hge.
  split; [|lia].
  destruct (ic_evictIfNeeded_budget clock stage HCs) as [H|H]; [lia| |].
  - unfold withinBudget in H. lia.
  - now rewrite H, Ew.
Qed.


(** *** get and hintAccess *)

Lemma ic_get_present : forall now p k it,
  QHash.find String.eqb k (cacheData p) = Some it ->
  get now p k =
  (Some (data it),
   mkPrivate
     (QHash.update String.eqb k
        (fun i =>
           mkCachedItem (data i) (sizeBytes i) now (creationTime i)
             (accessCount i + 1) (priority i + (1 # 10))%Q (key i)
             (metadata i))
        (cacheData p))
     (maxSizeBytes p) (currentSizeBytes p) (evictionPolicy p) (warnings p)).
Proof. intros now p k it F. unfold get. now rewrite F. Qed.

End IntelligentCacheFacts.

(** ** LazyLoader: the order of the queue *)

Module LazyLoaderFacts.
Import LazyLoader.

Lemma lessThan_spec : forall a b,
  lessThan a b = true <->
  priority b < priority a \/
  (priority a = priority b /\ requestTime a < requestTime b).
Proof.
  intros a b. unfold lessThan.
  destruct (priority a =? priority b) eqn:E; simpl.
  - apply Z.eqb_eq in E. rewrite Z.ltb_lt. lia.
  - apply Z.eqb_neq in E. rewrite Z.ltb_lt. lia.
Qed.

Lemma lessThan_false : forall a b,
  lessThan a b = false <->
  priority a < priority b \/
  (priority a = priority b /\ requestTime b <= requestTime a).
Proof.
  intros a b. pose proof (lessThan_spec a b) as H.
  destruct (lessThan a b); split; intro H1; try discriminate; try reflexivity.
  - exfalso. destruct H as [H _]. specialize (H eq_refl). lia.
  - destruct (Z_lt_ge_dec (priority a) (priority b)); [now left|].
    right. assert (~ (priority b < priority a \/
                      priority a = priority b /\
                      requestTime a < requestTime b)) as N
      by (intro N; apply H in N; discriminate).
    lia.
Qed.


(** *** The insertion sort keeps the promise of std::sort *)

Lemma insertAfter_perm : forall x l,
  Permutation (x :: l) (insertAfter lessThan x l).
Proof.
  induction l as [|y l IH]; simpl; [reflexivity|].
  destruct (lessThan x y); [reflexivity|].
  rewrite perm_swap. now constructor.
Qed.

Lemma insertAfter_sorted : forall x l,
  sortedBy lessThan l -> sortedBy lessThan (insertAfter lessThan x l).
Proof.
  unfold sortedBy. induction l as [|y l IH]; simpl; intro S.
  - constructor; constructor.
  - apply StronglySorted_inv in S. destruct S as [S F].
    destruct (lessThan x y) eqn:L.
    + constructor; [constructor; assumption|].
      apply lessThan_spec in L.
      constructor; [apply lessThan_false; lia|].
      rewrite Forall_forall in *. intros z Hz. specialize (F z Hz).
      apply lessThan_false in F. apply lessThan_false. lia.
    + constructor; [now apply IH|].
      apply (Permutation_Forall (insertAfter_perm x l)).
      constructor; assumption.
Qed.

Lemma fold_insert_conforming :
  forall (ins : LoadRequest -> list LoadRequest -> list LoadRequest),
  (forall x l, Permutation (x :: l) (ins x l)) ->
  (forall x l, sortedBy lessThan l -> sortedBy lessThan (ins x l)) ->
  forall l acc, sortedBy lessThan acc ->
  Permutation (acc ++ l) (fold_left (fun acc x => ins x acc) l acc) /\
  sortedBy lessThan (fold_left (fun acc x => ins x acc) l acc).
Proof.
  intros ins Hp Hs. induction l as [|x l IH]; simpl; intros acc S.
  - rewrite app_nil_r. split; [reflexivity|assumption].
  - destruct (IH (ins x acc) (Hs x acc S)) as [P S']. split; [|assumption].
    apply Permutation_trans with (ins x acc ++ l); [|exact P].
    apply Permutation_trans with ((x :: acc) ++ l).
    + apply Permutation_sym, Permutation_middle.
    + apply Permutation_app_tail, Hp.
Qed.

Lemma sortKeepingTies_conforming : conforming sortKeepingTies.
Proof.
  intro l. unfold sortKeepingTies.
  apply (fold_insert_conforming (insertAfter lessThan)
           insertAfter_perm insertAfter_sorted l []).
  constructor.
Qed.

(** *** queueRequest and the dispatcher *)



Lemma queueRequest_duplicate : forall sort now p r,
  (exists q, In q (requestQueue p) /\ key q = key r) \/
  In (key r) (activeRequests p) ->
  queueRequest sort now p r = p.
Proof.
  intros sort now p r H. unfold queueRequest.
  assert (existsb (LoadRequest_eqb r) (requestQueue p)
          || setMember (key r) (activeRequests p) = true) as E.
  { apply orb_true_iff. destruct H as [[q [Hin Hk]]|Hin].
    - left. apply existsb_exists. exists q. split; [assumption|].
      unfold LoadRequest_eqb. rewrite Hk. apply String.eqb_refl.
    - right. unfold setMember. apply existsb_exists.
      exists (key r). split; [assumption|apply String.eqb_refl]. }
  now rewrite E.
Qed.






End LazyLoaderFacts.

(** ** ThreadPool: what moves the counters *)

Module ThreadPoolFacts.
Import ThreadPool.

Lemma mustWait_behind : forall p msecs,
  totalCompleted p < totalSubmitted p ->
  mustWait p msecs = (toUnsigned msecs =? UINT_MAX) || (0 <? msecs).
Proof.
  intros p msecs H. unfold mustWait.
  apply Z.ltb_lt in H. now rewrite H.
Qed.

(** With the default argument the caller never leaves the loop of a pool
    whose counters differ. *)
Lemma waitForDone_forever : forall p waits,
  totalCompleted p < totalSubmitted p ->
  waitForDone p forever waits = None.
Proof.
  intros p waits H. induction waits as [|e waits IH]; simpl;
    rewrite (mustWait_behind p forever H); simpl; [reflexivity|exact IH].
Qed.

(** With a timeout the caller leaves that loop only when the timeout has
    run out. *)
Lemma waitForDone_timeout : forall p waits msecs left,
  totalCompleted p < totalSubmitted p ->
  waitForDone p msecs waits = Some left ->
  left <= 0 /\ toUnsigned left <> UINT_MAX.
Proof.
  intros p waits. induction waits as [|e waits IH]; simpl;
    intros msecs left H R; rewrite (mustWait_behind p msecs H) in R.
  - destruct (toUnsigned msecs =? UINT_MAX) eqn:U; simpl in R;
      [discriminate|].
    destruct (0 <? msecs) eqn:P; [discriminate|].
    inversion R; subst. apply Z.eqb_neq in U. apply Z.ltb_ge in P. auto.
  - destruct (toUnsigned msecs =? UINT_MAX) eqn:U; simpl in R.
    + now apply (IH msecs left).
    + destruct (0 <? msecs) eqn:P.
      * now apply (IH (msecs - e) left).
      * inversion R; subst. apply Z.eqb_neq in U. apply Z.ltb_ge in P. auto.
Qed.

(** Only cancelAllQueuedTasks moves totalCompleted. *)
Lemma step_totalCompleted : forall w e,
  e <> CancelAllQueuedTasks ->
  totalCompleted (d (step w e)) = totalCompleted (d w).
Proof.
  intros w [now task runnable nm prio|now task|task|now task|task|] H;
    simpl; try reflexivity; try congruence.
  - unfold submitNew, submitTask, lock, unlock. simpl.
    destruct (task =? 0); [reflexivity|]. now destruct (mutex w).
  - unfold cancelTask. destruct (task =? 0); [reflexivity|].
    now destruct (QHash.find Z.eqb task (heap w)).
Qed.

Lemma steps_totalCompleted : forall es w,
  ~ In CancelAllQueuedTasks es ->
  totalCompleted (d (steps w es)) = totalCompleted (d w).
Proof.
  unfold steps. induction es as [|e es IH]; simpl; intros w H;
    [reflexivity|].
  rewrite IH by tauto. apply step_totalCompleted. intro; subst. tauto.
Qed.

End ThreadPoolFacts.
(** ** PageCache: the queue as the order of eviction *)

Module PageCacheLru.
Import PageCache PageCacheFacts.

Arguments CacheKey_eqb : simpl never.
Arguments calculateImageSizeBytes : simpl never.

Lemma put_inserted : forall now p key img,
  calculateImageSizeBytes img <> 0 ->
  put now p key img = evictIfNecessary (inserted now p key img).
Proof.
  intros now p key img H. unfold put, inserted.
  destruct (calculateImageSizeBytes img =? 0) eqn:E.
  - apply Z.eqb_eq in E. contradiction.
  - destruct (QHash.find CacheKey_eqb key (cacheMap p)); reflexivity.
Qed.

Lemma inserted_consistent : forall now p key img,
  separated (key :: lruQueue p) ->
  consistent p -> consistent (inserted now p key img).
Proof. intros. unfold inserted. now apply put_stage_consistent. Qed.

Lemma inserted_queue_incl : forall now p key img x,
  In x (lruQueue (inserted now p key img)) -> In x (key :: lruQueue p).
Proof. intros now p key img x. unfold inserted. apply put_stage_queue_incl. Qed.

Lemma removeAll_absent : forall k (l : list CacheKey),
  ~ In k l -> QList.removeAll CacheKey_eqb k l = l.
Proof.
  induction l as [|x l IH]; intro H; [reflexivity|].
  unfold QList.removeAll in *. cbn [filter].
  rewrite CacheKey_eqb_neq by (intro; subst; apply H; now left).
  cbn [negb]. f_equal. apply IH. intro; apply H; now right.
Qed.

Lemma NoDup_removeAll : forall k (l : list CacheKey),
  NoDup l -> NoDup (QList.removeAll operator_eq k l).
Proof. intros k l H. unfold QList.removeAll. now apply NoDup_filter. Qed.

(** Moving a key to the back of a queue without duplicates. *)
Lemma NoDup_requeue : forall k (l : list CacheKey),
  NoDup l ->
  NoDup (QList.enqueue k (QList.removeAll operator_eq k l)).
Proof.
  intros k l H. unfold QList.enqueue.
  apply NoDup_app.
  - now apply NoDup_removeAll.
  - constructor; [intros []|constructor].
  - intros x Hx [<-|[]]. now apply removeAll_not_In in Hx.
Qed.

Lemma aligned_init : aligned init.
Proof.
  split.
  - apply init_sound.
  - constructor.
  - intros k [].
Qed.

Lemma inserted_aligned : forall now p key img,
  separated (key :: lruQueue p) ->
  aligned p -> aligned (inserted now p key img).
Proof.
  intros now p key img Hsep [C N Q]. split.
  - now apply inserted_consistent.
  - unfold inserted.
    destruct (QHash.find CacheKey_eqb key (cacheMap p)) as [it|] eqn:E;
      cbn [lruQueue].
    + now apply NoDup_requeue.
    + unfold QList.enqueue. apply NoDup_app; [assumption| |].
      * constructor; [intros []|constructor].
      * intros x Hx [<-|[]]. apply Q in Hx.
        apply (QHashFacts.find_None CacheKey_eqb CacheKey_eqb_eq) in E.
        contradiction.
  - unfold inserted.
    destruct (QHash.find CacheKey_eqb key (cacheMap p)) as [it|] eqn:E;
      cbn [lruQueue cacheMap]; intros k Hk.
    + rewrite QHashFacts.keys_update.
      unfold QList.enqueue in Hk. apply in_app_or in Hk.
      destruct Hk as [Hk|[<-|[]]].
      * apply removeAll_incl in Hk. now apply Q.
      * apply (QHashFacts.find_In CacheKey_eqb CacheKey_eqb_eq) in E.
        apply (in_map fst) in E. exact E.
    + assert (QHash.contains CacheKey_eqb key (cacheMap p) = false) as Cf
        by (rewrite find_contains, E; reflexivity).
      rewrite (QHashFacts.keys_insert_new CacheKey_eqb key _ _ Cf).
      unfold QList.enqueue in Hk. apply in_or_app. apply in_app_or in Hk.
      destruct Hk as [Hk|Hk]; [left; now apply Q|now right].
Qed.

Lemma inserted_queue : forall now p key img,
  exists front, lruQueue (inserted now p key img) = front ++ [key].
Proof.
  intros. unfold inserted.
  destruct (QHash.find CacheKey_eqb key (cacheMap p));
    cbn [lruQueue]; unfold QList.enqueue; eauto.
Qed.

Lemma inserted_find : forall now p key img,
  QHash.find CacheKey_eqb key (cacheMap (inserted now p key img)) =
  Some (mkCachedItem img now 1).
Proof.
  intros. unfold inserted.
  destruct (QHash.find CacheKey_eqb key (cacheMap p)) as [it|] eqn:E;
    cbn [cacheMap].
  - now rewrite (QHashFacts.find_update_same CacheKey_eqb key _ _ it E).
  - unfold QHash.insert. rewrite find_contains, E.
    rewrite QHashFacts.find_app_new, E, CacheKey_eqb_refl. reflexivity.
Qed.

Lemma inserted_max : forall now p key img,
  maxSizeBytes (inserted now p key img) = maxSizeBytes p.
Proof.
  intros. unfold inserted.
  now destruct (QHash.find CacheKey_eqb key (cacheMap p)).
Qed.

(** One turn of the loop on an aligned cache that is over its ceiling. *)
Lemma aligned_turn : forall n p k rest,
  separated (lruQueue p) ->
  aligned p -> lruQueue p = k :: rest ->
  maxSizeBytes p < currentSizeBytes p ->
  exists it,
    QHash.find CacheKey_eqb k (cacheMap p) = Some it /\
    evictLoop (S n) p =
    evictLoop n
      (mkPrivate (QHash.erase CacheKey_eqb k (cacheMap p)) rest
                 (maxSizeBytes p)
                 (currentSizeBytes p - calculateImageSizeBytes (image it))) /\
    aligned
      (mkPrivate (QHash.erase CacheKey_eqb k (cacheMap p)) rest
                 (maxSizeBytes p)
                 (currentSizeBytes p - calculateImageSizeBytes (image it))).
Proof.
  intros n p k rest Hsep [[T U Qd] N Q] E Over.
  rewrite E in N, Hsep. inversion N as [|? ? Hk Hrest]; subst.
  destruct (QHashFacts.In_keys_find CacheKey_eqb CacheKey_eqb_eq k (cacheMap p))
    as [it F].
  { apply Q. rewrite E. now left. }
  exists it. split; [assumption|]. split.
  - rewrite (evictLoop_turn n p k rest it E Over F).
    now rewrite (removeAll_exact k rest Hsep), removeAll_absent.
  - split; [split| |]; cbn [cacheMap lruQueue currentSizeBytes].
    + unfold tracked; cbn [cacheMap currentSizeBytes].
      rewrite (QHashFacts.total_erase CacheKey_eqb cost k _ it F).
      unfold tracked in T. unfold cost at 2. lia.
    + now apply QHashFacts.NoDup_erase.
    + intros x Hx.
      apply (QHashFacts.keys_erase CacheKey_eqb CacheKey_eqb_eq) in Hx;
        [|assumption].
      destruct Hx as [Hne Hx]. apply Qd in Hx. rewrite E in Hx.
      destruct Hx as [->|Hx]; [contradiction|assumption].
    + assumption.
    + intros x Hx.
      apply (QHashFacts.keys_erase CacheKey_eqb CacheKey_eqb_eq);
        [assumption|].
      split.
      * intro; subst. contradiction.
      * apply Q. rewrite E. now right.
Qed.

(** The loop takes its victims from the front of the queue. *)
Lemma evictLoop_lru : forall turns p,
  separated (lruQueue p) ->
  aligned p ->
  exists n,
    lruQueue (evictLoop turns p) = skipn n (lruQueue p) /\
    aligned (evictLoop turns p).
Proof.
  induction turns as [|turns IH]; intros p Hsep A.
  - exists 0%nat. now split.
  - destruct (maxSizeBytes p <? currentSizeBytes p) eqn:Over.
    + destruct (lruQueue p) as [|k rest] eqn:E.
      * exists 0%nat. cbn [evictLoop]. rewrite Over, E. now split.
      * apply Z.ltb_lt in Over.
        assert (separated (lruQueue p)) as Hsep0 by now rewrite E.
        destruct (aligned_turn turns p k rest Hsep0 A E Over)
          as [it [F [R A']]].
        rewrite R.
        pose proof A' as Hn.
        apply IH in Hn; [|exact (separated_tail k rest Hsep)].
        destruct Hn as [n [Hq Ha]].
        exists (S n). cbn [lruQueue] in Hq. now split.
    + exists 0%nat. cbn [evictLoop]. rewrite Over. now split.
Qed.

Lemma bytesOf_cons : forall p k (keys : list CacheKey),
  bytesOf p (k :: keys) =
  match QHash.find CacheKey_eqb k (cacheMap p) with
  | Some it => cost it + bytesOf p keys
  | None => bytesOf p keys
  end.
Proof. reflexivity. Qed.

Lemma bytesOf_erase : forall p k rest' mx cur (keys : list CacheKey),
  ~ In k keys ->
  bytesOf (mkPrivate (QHash.erase CacheKey_eqb k (cacheMap p)) rest' mx cur)
          keys =
  bytesOf p keys.
Proof.
  intros p k rest' mx cur keys. induction keys as [|x keys IH]; intro H;
    [reflexivity|].
  unfold bytesOf in *. cbn [fold_right cacheMap] in *.
  rewrite (QHashFacts.find_erase_other CacheKey_eqb CacheKey_eqb_eq)
    by (intro; subst; apply H; now left).
  rewrite IH by (intro; apply H; now right). reflexivity.
Qed.

(** The loop stops at the first prefix of the queue whose eviction brings
    the total within the ceiling. *)
Lemma evictLoop_least : forall turns p,
  separated (lruQueue p) ->
  aligned p ->
  exists n,
    lruQueue (evictLoop turns p) = skipn n (lruQueue p) /\
    currentSizeBytes (evictLoop turns p) =
      currentSizeBytes p - bytesOf p (firstn n (lruQueue p)) /\
    (forall m, (m < n)%nat ->
       maxSizeBytes p <
       currentSizeBytes p - bytesOf p (firstn m (lruQueue p))) /\
    aligned (evictLoop turns p).
Proof.
  induction turns as [|turns IH]; intros p Hsep A.
  - exists 0%nat. cbn [evictLoop skipn firstn bytesOf fold_right].
    split; [reflexivity|]. split; [lia|]. split; [|assumption].
    intros m Hm. inversion Hm.
  - destruct (maxSizeBytes p <? currentSizeBytes p) eqn:Over.
    + destruct (lruQueue p) as [|k rest] eqn:E.
      * exists 0%nat. cbn [evictLoop]. rewrite Over, E.
        cbn [skipn firstn bytesOf fold_right].
        split; [assumption|]. split; [lia|]. split; [|assumption].
        intros m Hm. inversion Hm.
      * apply Z.ltb_lt in Over.
        assert (separated (lruQueue p)) as Hsep0 by now rewrite E.
        destruct (aligned_turn turns p k rest Hsep0 A E Over)
          as [it [F [R A']]].
        rewrite R.
        pose proof A' as Hn.
        apply IH in Hn; [|exact (separated_tail k rest Hsep)].
        destruct Hn as [n [Hq [Hc [Hl Ha]]]].
        cbn [lruQueue currentSizeBytes maxSizeBytes] in Hq, Hc, Hl.
        assert (~ In k rest) as Hk.
        { destruct A as [_ N _]. rewrite E in N. now inversion N. }
        assert (forall j, ~ In k (firstn j rest)) as Hj.
        { intros j Hin. apply Hk. rewrite <- (firstn_skipn j rest).
          apply in_or_app. now left. }
        exists (S n). split; [exact Hq|]. split; [|split; [|exact Ha]].
        -- rewrite Hc. cbn [firstn]. rewrite bytesOf_erase by apply Hj.
           rewrite bytesOf_cons, F. unfold cost. lia.
        -- intros [|m] Hm.
           ++ cbn [firstn bytesOf fold_right]. lia.
           ++ assert (m < n)%nat as Hm' by lia.
              specialize (Hl m Hm'). rewrite bytesOf_erase in Hl by apply Hj.
              cbn [firstn]. rewrite bytesOf_cons, F. unfold cost. lia.
    + exists 0%nat. cbn [evictLoop]. rewrite Over.
      cbn [skipn firstn bytesOf fold_right].
      split; [reflexivity|]. split; [lia|]. split; [|assumption].
      intros m Hm. inversion Hm.
Qed.

(** The bytes the loop takes off the total over a table of one document. *)
Lemma clearLoop_size : forall todo doc p p',
  clearLoop todo doc p = Some p' ->
  currentSizeBytes p' =
  currentSizeBytes p -
  QHash.total cost (filter (fun e => documentId (fst e) =? doc) todo) /\
  maxSizeBytes p' = maxSizeBytes p.
Proof.
  induction todo as [|[k v] rest IH]; intros doc p p' H.
  - inversion H; subst. cbn. split; [lia|reflexivity].
  - cbn [clearLoop] in H. cbn [filter fst].
    destruct (documentId k =? doc).
    + destruct rest as [|[next w] rest']; [discriminate|].
      destruct (IH _ _ _ H) as [Hc Hm].
      cbn [currentSizeBytes maxSizeBytes] in Hc, Hm.
      split; [|assumption]. rewrite Hc.
      change (QHash.total cost
                ((k, v) :: filter (fun e => documentId (fst e) =? doc)
                                  ((next, w) :: rest')))
        with (cost v +
              QHash.total cost
                (filter (fun e => documentId (fst e) =? doc)
                        ((next, w) :: rest'))).
      unfold cost at 2. lia.
    + now apply IH.
Qed.

(** A key that is not in the queue is out of the reach of the loop. *)
Lemma evictLoop_skips_unqueued : forall turns p k,
  ~ In k (lruQueue p) ->
  QHash.find CacheKey_eqb k (cacheMap (evictLoop turns p)) =
  QHash.find CacheKey_eqb k (cacheMap p).
Proof.
  induction turns as [|turns IH]; intros p k H; [reflexivity|].
  cbn [evictLoop].
  destruct (maxSizeBytes p <? currentSizeBytes p); [|reflexivity].
  destruct (lruQueue p) as [|lruKey rest] eqn:E; [reflexivity|].
  assert (k <> lruKey) as Hne by (intro; subst; apply H; now left).
  assert (~ In k rest) as Hr by (intro; apply H; now right).
  destruct (QHash.contains CacheKey_eqb lruKey (cacheMap (setLruQueue p rest)))
    eqn:C.
  - unfold removeItem. cbn [setLruQueue cacheMap lruQueue].
    destruct (QHash.find CacheKey_eqb lruKey (cacheMap p)) as [it|] eqn:F.
    + rewrite IH; cbn [cacheMap lruQueue].
      * now apply (QHashFacts.find_erase_other CacheKey_eqb CacheKey_eqb_eq).
      * intro Hin. now apply removeAll_incl in Hin.
    + fold (setLruQueue p rest). now rewrite IH.
  - now rewrite IH.
Qed.

Lemma NoDup_keys_filter : forall (f : CacheKey * CachedItem -> bool)
    (m : QHash.t (K := CacheKey) (V := CachedItem)),
  NoDup (QHash.keys m) -> NoDup (QHash.keys (filter f m)).
Proof.
  induction m as [|e m IH]; intro H; [constructor|].
  cbn [QHash.keys map] in H. inversion H as [|? ? Hn Hm]; subst.
  cbn [filter]. destruct (f e).
  - cbn [QHash.keys map]. constructor; [|now apply IH].
    intro Hin. apply Hn. unfold QHash.keys in Hin.
    apply in_map_iff in Hin. destruct Hin as [x [Hx Hin]].
    apply filter_In in Hin. rewrite <- Hx. apply in_map, Hin.
  - now apply IH.
Qed.

Lemma evictIfNecessary_aligned : forall p,
  separated (lruQueue p) ->
  aligned p -> aligned (evictIfNecessary p).
Proof.
  intros p Hsep A. unfold evictIfNecessary.
  now destruct (evictLoop_lru (List.length (lruQueue p)) p Hsep A)
    as [n [_ H]].
Qed.

(** A table whose only key is [key]. *)
Lemma total_single : forall key it
    (m : QHash.t (K := CacheKey) (V := CachedItem)),
  NoDup (QHash.keys m) ->
  (forall k, In k (QHash.keys m) -> In k [key]) ->
  QHash.find CacheKey_eqb key m = Some it ->
  QHash.total cost m = cost it.
Proof.
  intros key it [|[k1 v1] [|[k2 v2] rest]] U S F.
  - discriminate.
  - cbn [QHash.find] in F.
    destruct (S k1) as [<-|[]]; [now left|].
    rewrite CacheKey_eqb_refl in F. inversion F; subst.
    cbn. lia.
  - exfalso. cbn [QHash.keys map fst] in U, S.
    destruct (S k1) as [<-|[]]; [now left|].
    destruct (S k2) as [<-|[]]; [right; now left|].
    inversion U as [|? ? H]. apply H. now left.
Qed.

(** The key at the back of the queue outlives the loop when its own image
    fits under the ceiling. *)
Lemma evictLoop_keeps_newest : forall turns p key it front,
  separated (lruQueue p) ->
  aligned p ->
  lruQueue p = front ++ [key] ->
  QHash.find CacheKey_eqb key (cacheMap p) = Some it ->
  cost it <= maxSizeBytes p ->
  QHash.find CacheKey_eqb key (cacheMap (evictLoop turns p)) = Some it.
Proof.
  induction turns as [|turns IH]; intros p key it front Hsep A E F Fit;
    [assumption|].
  destruct (maxSizeBytes p <? currentSizeBytes p) eqn:Over;
    [|cbn [evictLoop]; now rewrite Over].
  apply Z.ltb_lt in Over.
  destruct front as [|f front].
  - exfalso. destruct A as [[T U Qd] N Q]. rewrite E in Qd.
    unfold tracked in T.
    rewrite (total_single key it (cacheMap p) U Qd F) in T. lia.
  - cbn [app] in E.
    destruct (aligned_turn turns p f (front ++ [key]) Hsep A E Over)
      as [itf [Ff [R A']]].
    rewrite R. rewrite E in Hsep.
    refine (IH _ key it front _ A' _ _ _);
      cbn [lruQueue cacheMap maxSizeBytes].
    all: try reflexivity; try assumption.
    { exact (separated_tail _ _ Hsep). }
    rewrite (QHashFacts.find_erase_other CacheKey_eqb CacheKey_eqb_eq);
      [assumption|].
    intro; subst f. destruct A as [_ N _]. rewrite E in N.
    inversion N as [|? ? H]; subst. apply H, in_or_app. right. now left.
Qed.

Lemma get_aligned : forall now p key,
  separated (key :: lruQueue p) ->
  aligned p -> aligned (snd (get now p key)).
Proof.
  intros now p key Hsep A. pose proof A as [C N Q]. split.
  - now apply get_consistent.
  - unfold get.
    destruct (QHash.find CacheKey_eqb key (cacheMap p)); cbn [snd lruQueue];
      [now apply NoDup_requeue|assumption].
  - unfold get.
    destruct (QHash.find CacheKey_eqb key (cacheMap p)) as [it|] eqn:E;
      cbn [snd lruQueue cacheMap]; [|assumption].
    intros k Hk. rewrite QHashFacts.keys_update.
    unfold QList.enqueue in Hk. apply in_app_or in Hk.
    destruct Hk as [Hk|[<-|[]]].
    + apply removeAll_incl in Hk. now apply Q.
    + apply (QHashFacts.find_In CacheKey_eqb CacheKey_eqb_eq) in E.
      apply (in_map fst) in E. exact E.
Qed.

Lemma put_aligned : forall now p key img,
  separated (key :: lruQueue p) ->
  aligned p -> aligned (put now p key img).
Proof.
  intros now p key img Hsep A.
  destruct (Z.eq_dec (calculateImageSizeBytes img) 0) as [Z0|NZ].
  - unfold put. now rewrite Z0.
  - rewrite put_inserted by assumption.
    apply evictIfNecessary_aligned; [|now apply inserted_aligned].
    apply (separated_incl _ (key :: lruQueue p)); [|exact Hsep].
    intros x. apply inserted_queue_incl.
Qed.

Lemma clear_aligned : forall p, aligned (clear p).
Proof.
  intro p. split; [apply clear_consistent|constructor|intros k []].
Qed.

Lemma setMaxSizeBytes_aligned : forall p size,
  separated (lruQueue p) ->
  aligned p -> aligned (setMaxSizeBytes p size).
Proof.
  intros p size Hsep [[T U Qd] N Q]. unfold setMaxSizeBytes.
  apply evictIfNecessary_aligned; [exact Hsep|]. now repeat split.
Qed.

Lemma run_aligned : forall ops p,
  separated (flat_map opKeys ops ++ lruQueue p) ->
  Forall plainOp ops -> aligned p ->
  exists p', run p ops = Some p' /\ aligned p'.
Proof.
  induction ops as [|o ops IH]; intros p Hsep H A; [now exists p|].
  inversion H as [|? ? Ho Hops]; subst.
  assert (exists p1, step p o = Some p1) as [p1 S1].
  { destruct o; cbn in *; try contradiction; eexists; reflexivity. }
  destruct (separated_step o ops p p1 Hsep S1) as [Hs1 Hs2].
  cbn [run]. rewrite S1. apply IH; [exact Hs2|assumption|].
  destruct o as [now key img|now key|doc| |size];
    cbn [step opKeys app plainOp] in S1, Hs1, Ho; try contradiction;
    injection S1 as <-.
  - now apply put_aligned.
  - now apply get_aligned.
  - apply clear_aligned.
  - now apply setMaxSizeBytes_aligned.
Qed.

(** *** clearForDocument *)

Lemma clearLoop_cons : forall k v rest doc p,
  clearLoop ((k, v) :: rest) doc p =
  if documentId k =? doc then
    match rest with
    | [] => None
    | (next, _) :: _ =>
        clearLoop rest doc
          (mkPrivate
             (QHash.erase CacheKey_eqb k (cacheMap p))
             (QList.removeAll operator_eq next (lruQueue p))
             (maxSizeBytes p)
             (currentSizeBytes p - calculateImageSizeBytes (image v)))
    end
  else clearLoop rest doc p.
Proof. reflexivity. Qed.

Lemma clearLoop_none : forall todo doc p,
  clearLoop todo doc p = None <->
  exists front k v, todo = front ++ [(k, v)] /\ documentId k = doc.
Proof.
  induction todo as [|[k v] rest IH]; intros doc p.
  - split; [discriminate|].
    intros [front [k [v [H _]]]]. now destruct front.
  - cbn [clearLoop]. destruct (documentId k =? doc) eqn:D.
    + apply Z.eqb_eq in D. destruct rest as [|[next w] rest'].
      * split; [|reflexivity]. intros _. now exists [], k, v.
      * rewrite IH. split.
        -- intros [front [k' [v' [H Hd]]]].
           exists ((k, v) :: front), k', v'. cbn [app]. now rewrite H.
        -- intros [front [k' [v' [H Hd]]]].
           destruct front as [|e front]; [discriminate|].
           inversion H; subst. now exists front, k', v'.
    + apply Z.eqb_neq in D. rewrite IH. split.
      * intros [front [k' [v' [H Hd]]]].
        exists ((k, v) :: front), k', v'. cbn [app]. now rewrite H.
      * intros [front [k' [v' [H Hd]]]].
        destruct front as [|e front].
        -- inversion H; subst. contradiction.
        -- inversion H; subst. now exists front, k', v'.
Qed.

Lemma removeAll_removeAll_In : forall x y (l : list CacheKey),
  ~ In x (QList.removeAll operator_eq x l) /\
  (In y (QList.removeAll operator_eq x l) -> In y l).
Proof.
  intros x y l. split; [apply removeAll_not_In|apply removeAll_incl].
Qed.

(** What the loop leaves of the queue was in the queue. *)
Lemma clearLoop_queue_incl : forall todo doc p p' x,
  clearLoop todo doc p = Some p' ->
  In x (lruQueue p') -> In x (lruQueue p).
Proof. exact clearLoop_queue_within. Qed.

(** The table after the loop: the entries of the other documents. *)
Lemma clearLoop_table : forall todo doc kept p p',
  cacheMap p = kept ++ todo ->
  NoDup (QHash.keys (cacheMap p)) ->
  clearLoop todo doc p = Some p' ->
  cacheMap p' =
  kept ++ filter (fun e => negb (documentId (fst e) =? doc)) todo.
Proof.
  induction todo as [|[k v] rest IH]; intros doc kept p p' E U H.
  - inversion H; subst. cbn [filter]. assumption.
  - cbn [clearLoop] in H. cbn [filter fst].
    destruct (documentId k =? doc) eqn:D; cbn [negb].
    + destruct rest as [|[next w] rest']; [discriminate|].
      refine (IH doc kept _ p' _ _ H); cbn [cacheMap].
      * rewrite E. apply erase_after_kept.
        rewrite E in U. unfold QHash.keys in U. rewrite map_app in U.
        apply NoDup_remove_2 in U. intro Hin. apply U.
        apply in_or_app. now left.
      * now apply QHashFacts.NoDup_erase.
    + rewrite (IH doc (kept ++ [(k, v)]) p p').
      * now rewrite <- app_assoc.
      * rewrite E. now rewrite <- app_assoc.
      * assumption.
      * assumption.
Qed.

(** An entry of another document that follows an entry of the document
    loses its place in the queue. *)
Lemma clearLoop_drops_follower : forall front doc p p' k v next w rest,
  documentId k = doc ->
  clearLoop (front ++ (k, v) :: (next, w) :: rest) doc p = Some p' ->
  ~ In next (lruQueue p').
Proof.
  induction front as [|[k0 v0] front IH];
    intros doc p p' k v next w rest D H.
  - cbn [app] in H. rewrite clearLoop_cons in H. subst doc.
    rewrite Z.eqb_refl in H. cbv beta iota in H. intro Hin.
    apply (clearLoop_queue_incl _ _ _ _ next H) in Hin.
    cbn [lruQueue] in Hin.
    destruct (removeAll_removeAll_In next next (lruQueue p)) as [Hn _].
    now apply Hn.
  - cbn [app] in H. rewrite clearLoop_cons in H.
    destruct (documentId k0 =? doc).
    + destruct (front ++ (k, v) :: (next, w) :: rest) as [|[n1 w1] r1] eqn:E1;
        [discriminate|].
      rewrite <- E1 in H. exact (IH _ _ _ k v next w rest D H).
    + exact (IH _ _ _ k v next w rest D H).
Qed.

End PageCacheLru.
(** ** IntelligentCache: whom the policies evict *)

Module IntelligentCachePolicies.
Import IntelligentCache IntelligentCacheFacts.

Local Abbreviation table := (QHash.t (K := string) (V := CachedItem)).

(** *** The scan finds a least entry *)

Section Least.
Context {T : Type}.
Variable ltb : T -> T -> bool.
Variable le : T -> T -> Prop.
Variable measure : CachedItem -> T.
Hypothesis ltb_le : forall a b, ltb a b = true -> le a b.
Hypothesis geb_le : forall a b, ltb a b = false -> le b a.
Hypothesis le_refl : forall a, le a a.
Hypothesis le_trans : forall a b c, le a b -> le b c -> le a c.

Lemma ic_fold_least : forall (m : table) (acc : T * string),
  let r :=
    fold_left
      (fun acc e =>
         if ltb (measure (snd e)) (fst acc) then (measure (snd e), fst e)
         else acc) m acc in
  (forall e, In e m -> le (fst r) (measure (snd e))) /\
  le (fst r) (fst acc) /\
  (r = acc \/ exists v, In (snd r, v) m /\ measure v = fst r).
Proof.
  induction m as [|[k v] m IH]; intro acc; cbn [fold_left fst snd].
  - split; [intros e []|]. split; [apply le_refl|now left].
  - set (acc' := if ltb (measure v) (fst acc) then (measure v, k) else acc).
    specialize (IH acc'). cbv zeta in IH.
    destruct IH as [A [B C]].
    assert (le (fst acc') (measure v) /\ le (fst acc') (fst acc) /\
            (acc' = acc \/ acc' = (measure v, k))) as [Hv [Ha Hc]].
    { unfold acc'. destruct (ltb (measure v) (fst acc)) eqn:L; cbn [fst].
      - split; [apply le_refl|]. split; [now apply ltb_le|now right].
      - split; [now apply geb_le|]. split; [apply le_refl|now left]. }
    split; [|split].
    + intros e [<-|He]; [|now apply A]. cbn [snd].
      eapply le_trans; eauto.
    + eapply le_trans; eauto.
    + destruct C as [C|[w [Hw Hm]]].
      * rewrite C. destruct Hc as [Hc|Hc]; [now left|].
        right. exists v. rewrite Hc. cbn [fst snd]. split; [now left|easy].
      * right. exists w. split; [now right|assumption].
Qed.

Lemma ic_scan_least : forall start (m : table),
  let r := scan ltb measure start m in
  (forall e, In e m -> le (fst r) (measure (snd e))) /\
  le (fst r) start /\
  (r = (start, EmptyString) \/
   exists v, In (snd r, v) m /\ measure v = fst r).
Proof. intros start m. apply (ic_fold_least m (start, EmptyString)). Qed.

End Least.

Lemma ic_Qlt_bool_le : forall a b, Qlt_bool a b = true -> (a <= b)%Q.
Proof.
  unfold Qlt_bool. intros a b H. apply negb_true_iff in H.
  apply Qlt_le_weak, Qnot_le_lt. intro L.
  apply Qle_bool_iff in L. congruence.
Qed.

Lemma ic_Qlt_bool_ge : forall a b, Qlt_bool a b = false -> (b <= a)%Q.
Proof.
  unfold Qlt_bool. intros a b H. apply negb_false_iff in H.
  now apply Qle_bool_iff.
Qed.

Lemma ic_Zltb_le : forall a b, (a <? b) = true -> a <= b.
Proof. intros a b H. apply Z.ltb_lt in H. lia. Qed.

Lemma ic_Zltb_ge : forall a b, (a <? b) = false -> b <= a.
Proof. intros a b H. apply Z.ltb_ge in H. lia. Qed.

Lemma ic_scan_least_Z : forall measure start (m : table),
  let r := scan Z.ltb measure start m in
  (forall e, In e m -> fst r <= measure (snd e)) /\
  fst r <= start /\
  (r = (start, EmptyString) \/
   exists v, In (snd r, v) m /\ measure v = fst r).
Proof.
  intro measure.
  exact (ic_scan_least Z.ltb Z.le measure ic_Zltb_le ic_Zltb_ge Z.le_refl Z.le_trans).
Qed.

Lemma ic_scan_least_Q : forall measure start (m : table),
  let r := scan Qlt_bool measure start m in
  (forall e, In e m -> (fst r <= measure (snd e))%Q) /\
  (fst r <= start)%Q /\
  (r = (start, EmptyString) \/
   exists v, In (snd r, v) m /\ measure v = fst r).
Proof.
  intro measure.
  exact (ic_scan_least Qlt_bool Qle measure ic_Qlt_bool_le ic_Qlt_bool_ge Qle_refl
           Qle_trans).
Qed.

(** The entry that a turn of the loop picks is a least one under the
    measure of the policy. *)
Lemma ic_keyToEvict_least : forall now p,
  QString_isEmpty (keyToEvict now p) = false ->
  exists it,
    In (keyToEvict now p, it) (cacheData p) /\
    forall e, In e (cacheData p) ->
      match evictionPolicy p with
      | LRU | Predictive => lastAccessTime it <= lastAccessTime (snd e)
      | LFU => accessCount it <= accessCount (snd e)
      | Priority => (priority it <= priority (snd e))%Q
      end.
Proof.
  intros now p. unfold keyToEvict.
  destruct (evictionPolicy p).
  - destruct (ic_scan_least_Z lastAccessTime now (cacheData p)) as [A [_ C]].
    intro K. destruct C as [C|[v [Hin Hm]]].
    + rewrite C in K. discriminate.
    + exists v. split; [exact Hin|]. intros e He. rewrite Hm. now apply A.
  - destruct (ic_scan_least_Z accessCount INT_MAX (cacheData p)) as [A [_ C]].
    intro K. destruct C as [C|[v [Hin Hm]]].
    + rewrite C in K. discriminate.
    + exists v. split; [exact Hin|]. intros e He. rewrite Hm. now apply A.
  - destruct (ic_scan_least_Q priority qreal_max (cacheData p)) as [A [_ C]].
    intro K. destruct C as [C|[v [Hin Hm]]].
    + rewrite C in K. discriminate.
    + exists v. split; [exact Hin|]. intros e He. rewrite Hm. now apply A.
  - destruct (ic_scan_least_Z lastAccessTime now (cacheData p)) as [A [_ C]].
    intro K. destruct C as [C|[v [Hin Hm]]].
    + rewrite C in K. discriminate.
    + exists v. split; [exact Hin|]. intros e He. rewrite Hm. now apply A.
Qed.

(** *** A new item among items that have been read *)

Lemma ic_scan_app_one : forall (T : Type) (ltb : T -> T -> bool) measure start
    (m : table) k v,
  scan ltb measure start (m ++ [(k, v)]) =
  if ltb (measure v) (fst (scan ltb measure start m))
  then (measure v, k) else scan ltb measure start m.
Proof.
  intros. unfold scan. rewrite fold_left_app. reflexivity.
Qed.

Lemma ic_erase_appended : forall k v (m : table),
  ~ In k (QHash.keys m) ->
  QHash.erase String.eqb k (m ++ [(k, v)]) = m.
Proof.
  induction m as [|[k' v'] m IH]; intro H; cbn [app QHash.erase].
  - now rewrite String.eqb_refl.
  - destruct (String.eqb k k') eqn:E.
    + apply String.eqb_eq in E. subst. exfalso. apply H. now left.
    + f_equal. apply IH. intro; apply H; now right.
Qed.

Lemma ic_In_erase : forall k e (m : table),
  In e (QHash.erase String.eqb k m) -> In e m.
Proof.
  induction m as [|[k' v'] m IH]; cbn [QHash.erase]; [easy|].
  destruct (String.eqb k k').
  - intro H. now right.
  - intros [H|H]; [now left|right; now apply IH].
Qed.

Lemma ic_isEmpty_app : forall (m : table) e, QHash.isEmpty (m ++ [e]) = false.
Proof. now intros [|x m] e. Qed.

(** The first turn of the loop on an entry that the scan picks. *)
Lemma ic_evictLoop_turn : forall turns clock n p it,
  maxSizeBytes p < currentSizeBytes p ->
  QHash.isEmpty (cacheData p) = false ->
  QString_isEmpty (keyToEvict (clock n) p) = false ->
  QHash.find String.eqb (keyToEvict (clock n) p) (cacheData p) = Some it ->
  evictLoop (S turns) clock n p =
  evictLoop turns clock (S n)
    (mkPrivate (QHash.erase String.eqb (keyToEvict (clock n) p) (cacheData p))
               (maxSizeBytes p) (currentSizeBytes p - sizeBytes it)
               (evictionPolicy p) (warnings p)).
Proof.
  intros turns clock n p it Over NE K F. cbn [evictLoop].
  apply Z.ltb_lt in Over. rewrite Over, NE, K, F. reflexivity.
Qed.

Lemma ic_evictLoop_within : forall turns clock n p,
  currentSizeBytes p <= maxSizeBytes p -> evictLoop turns clock n p = p.
Proof.
  intros [|turns] clock n p H; [reflexivity|]. cbn [evictLoop].
  apply Z.ltb_ge in H. now rewrite H.
Qed.

(** A table whose only key is [k]. *)
Lemma ic_total_single : forall k it (m : table),
  NoDup (QHash.keys m) ->
  (forall e, In e m -> fst e = k) ->
  QHash.find String.eqb k m = Some it ->
  QHash.total sizeBytes m = sizeBytes it.
Proof.
  intros k it [|[k1 v1] [|[k2 v2] rest]] U S F.
  - discriminate.
  - cbn [QHash.find] in F.
    assert (k1 = k) as -> by (apply (S (k1, v1)); now left).
    rewrite String.eqb_refl in F. inversion F; subst. cbn. lia.
  - exfalso. cbn [QHash.keys map fst] in U.
    assert (k1 = k) as -> by (apply (S (k1, v1)); now left).
    assert (k2 = k) as -> by (apply (S (k2, v2)); right; now left).
    inversion U as [|? ? H]. apply H. now left.
Qed.

(** Under LRU and Predictive the item that was used last outlives the loop
    when it fits under the ceiling on its own. *)
Lemma ic_evictLoop_keeps_newest : forall turns clock n p k item,
  evictionPolicy p = LRU \/ evictionPolicy p = Predictive ->
  consistent p ->
  QHash.find String.eqb k (cacheData p) = Some item ->
  sizeBytes item <= maxSizeBytes p ->
  (forall e, In e (cacheData p) -> fst e <> k ->
             lastAccessTime (snd e) < lastAccessTime item) ->
  QHash.find String.eqb k (cacheData (evictLoop turns clock n p)) = Some item.
Proof.
  induction turns as [|t IH]; intros clock n p k item Pol C F Fit Old;
    [assumption|].
  cbn [evictLoop].
  destruct ((maxSizeBytes p <? currentSizeBytes p)
            && negb (QHash.isEmpty (cacheData p))) eqn:Cond; [|assumption].
  apply andb_true_iff in Cond. destruct Cond as [Over _].
  apply Z.ltb_lt in Over.
  destruct (QString_isEmpty (keyToEvict (clock n) p)) eqn:K; cbn [negb];
    [assumption|].
  destruct (ic_keyToEvict_least (clock n) p K) as [victim [Hin Least]].
  destruct C as [T U].
  rewrite (QHashFacts.In_find String.eqb ic_eqb_eq _ _ _ U Hin).
  assert (keyToEvict (clock n) p <> k) as Hne.
  { intro E. rewrite E in Hin.
    rewrite (QHashFacts.In_find String.eqb ic_eqb_eq _ _ _ U Hin) in F.
    inversion F; subst victim.
    assert (forall e, In e (cacheData p) -> fst e = k) as Only.
    { intros e He. destruct (string_dec (fst e) k) as [|D]; [assumption|].
      exfalso. specialize (Old e He D). specialize (Least e He).
      destruct Pol as [Pol|Pol]; rewrite Pol in Least; lia. }
    unfold tracked in T.
    rewrite (ic_total_single k item (cacheData p) U Only) in T; [lia|].
    now apply (QHashFacts.In_find String.eqb ic_eqb_eq). }
  apply IH; cbn [evictionPolicy cacheData maxSizeBytes currentSizeBytes].
  - exact Pol.
  - split; cbn [cacheData currentSizeBytes].
    + unfold tracked; cbn [cacheData currentSizeBytes].
      rewrite (QHashFacts.total_erase String.eqb sizeBytes _ _ victim).
      * unfold tracked in T. lia.
      * now apply (QHashFacts.In_find String.eqb ic_eqb_eq).
    + now apply QHashFacts.NoDup_erase.
  - rewrite (QHashFacts.find_erase_other String.eqb ic_eqb_eq);
      [exact F|congruence].
  - exact Fit.
  - intros e He. apply Old. eapply ic_In_erase; eauto.
Qed.

End IntelligentCachePolicies.
(** ** ThreadPool: the sets by state and the tasks on the heap *)

Module ThreadPoolSets.
Import ThreadPool.



Lemma cancel_state : forall t,
  state t = Queued ->
  fst (cancel t) = true /\ state (snd (cancel t)) = Canceled /\
  wasCanceled (snd (cancel t)) = true.
Proof. intros t H. unfold cancel. now rewrite H. Qed.








(** Without [cancelAllQueuedTasks] the Queued set is all the pool knows. *)
Lemma step_queued : forall w e,
  e <> CancelAllQueuedTasks ->
  tasksByState (d w) Queued = allTasks (d w) ->
  tasksByState (d w) Canceled = [] ->
  tasksByState (d (step w e)) Queued = allTasks (d (step w e)) /\
  tasksByState (d (step w e)) Canceled = [].
Proof.
  intros w [now task runnable nm prio|now task|task|now task|task|] Hne Q C;
    cbn [step]; try (now split); try congruence.
  - unfold submitNew, submitTask, lock, unlock. cbn [d heap mutex].
    destruct (task =? 0); [now split|].
    destruct (mutex w); [now split|]. cbn [d tasksByState allTasks].
    unfold setSets. cbn [State_eqb]. now rewrite Q.
  - unfold cancelTask. destruct (task =? 0); [now split|].
    destruct (QHash.find Z.eqb task (heap w)); now split.
Qed.





(** *** One task *)

Lemma call_canceled : forall t c,
  state t = Canceled -> canceled t = true -> call t c = t.
Proof.
  intros t [start finish|] S C; cbn [call].
  - unfold run, runEnter. rewrite C. destruct t; cbn in *. now subst.
  - unfold cancel. now rewrite S.
Qed.

Lemma calls_canceled : forall cs t,
  state t = Canceled -> canceled t = true -> calls t cs = t.
Proof.
  unfold calls. induction cs as [|c cs IH]; intros t S C; [reflexivity|].
  cbn [fold_left]. rewrite (call_canceled t c S C). now apply IH.
Qed.

(** *** The loop of waitForDone *)

Lemma toUnsigned_int : forall n, 0 <= n < 2 ^ 31 -> toUnsigned n = n.
Proof. intros n H. unfold toUnsigned. apply Z.mod_small. lia. Qed.

End ThreadPoolSets.
(** ** RenderThread: the queue, the cancel flag and the size of the image *)

Module RenderThreadFacts.
Import RenderThread.

(** *** The worker takes the queue from its head *)

Lemma workerTurns_fifo : forall n p,
  shouldQuit p = false ->
  completed (snd (workerTurns n p)) =
    map processRequest (firstn n (requestQueue p)) /\
  requestQueue (fst (workerTurns n p)) = skipn n (requestQueue p).
Proof.
  induction n as [|n IH]; intros p Q; [now split|].
  cbn [workerTurns]. unfold workerTurn. rewrite Q.
  destruct (requestQueue p) as [|request rest] eqn:E.
  - cbn [fst snd firstn skipn map completed]. now split.
  - match goal with
    | |- context [workerTurns n ?p1] =>
        destruct (IH p1 eq_refl) as [H1 H2];
          destruct (workerTurns n p1) as [p2 later]
    end.
    cbn [fst snd requestQueue] in *.
    cbn [app completed firstn skipn map]. rewrite H1. now split.
Qed.

Lemma workerTurns_idle : forall n p,
  shouldQuit p = false ->
  isProcessing p = false \/ (0 < n)%nat /\ requestQueue p <> [] ->
  isProcessing (fst (workerTurns n p)) = false.
Proof.
  induction n as [|n IH]; intros p Q H.
  - destruct H as [H|[H _]]; [exact H|inversion H].
  - cbn [workerTurns]. unfold workerTurn. rewrite Q.
    destruct (requestQueue p) as [|request rest] eqn:E.
    + destruct H as [H|[_ H]]; [exact H|now elim H].
    + match goal with
      | |- context [workerTurns n ?p1] =>
          pose proof (IH p1 eq_refl (or_introl eq_refl)) as H1;
            destruct (workerTurns n p1) as [p2 later]
      end.
      exact H1.
Qed.

Lemma submitRequests_queue : forall rs p,
  requestQueue (fold_left (fun p r => fst (submitRequest p r)) rs p) =
    requestQueue p ++ rs /\
  shouldQuit (fold_left (fun p r => fst (submitRequest p r)) rs p) =
    shouldQuit p.
Proof.
  induction rs as [|r rs IH]; intro p; cbn [fold_left].
  - now rewrite app_nil_r.
  - destruct (IH (fst (submitRequest p r))) as [H1 H2].
    rewrite H1, H2. unfold submitRequest, QList.enqueue.
    cbn [fst requestQueue shouldQuit]. now rewrite <- app_assoc.
Qed.

(** *** The cancel flag *)

Lemma processRequest_canceled : forall r,
  processRequest (markCanceled r) = failed r "Request was canceled.".
Proof. reflexivity. Qed.

Lemma markFirst_match : forall id pre r post,
  (forall x, In x pre -> requestId x <> id) ->
  requestId r = id ->
  markFirst id (pre ++ r :: post) = pre ++ markCanceled r :: post.
Proof.
  induction pre as [|x pre IH]; intros r post H E; cbn [app markFirst].
  - apply Z.eqb_eq in E. now rewrite E.
  - assert (requestId x <> id) as Hx by (apply H; now left).
    apply Z.eqb_neq in Hx. rewrite Hx. f_equal.
    apply IH; [|exact E]. intros y Hy. apply H. now right.
Qed.

Lemma markFirst_absent : forall id q,
  (forall x, In x q -> requestId x <> id) -> markFirst id q = q.
Proof.
  induction q as [|x q IH]; intro H; cbn [markFirst]; [reflexivity|].
  assert (requestId x <> id) as Hx by (apply H; now left).
  apply Z.eqb_neq in Hx. rewrite Hx. f_equal.
  apply IH. intros y Hy. apply H. now right.
Qed.

(** *** Rounding *)

Lemma Qle_bool_false : forall a b, Qle_bool a b = false -> (b < a)%Q.
Proof.
  intros a b H. apply Qnot_le_lt. intro L.
  apply Qle_bool_iff in L. congruence.
Qed.

Lemma qRound_le : forall x y, (x <= y)%Q -> qRound x <= qRound y.
Proof.
  intros x y H. unfold qRound.
  destruct (Qle_bool 0 x) eqn:Ex; destruct (Qle_bool 0 y) eqn:Ey.
  - apply Qfloor_resp_le. now apply Qplus_le_l.
  - apply Qle_bool_iff in Ex. apply Qle_bool_false in Ey.
    exfalso. apply (Qlt_irrefl 0).
    apply Qle_lt_trans with y; [|exact Ey].
    now apply Qle_trans with x.
  - apply Qle_bool_false in Ex. apply Qle_bool_iff in Ey.
    apply Z.le_trans with 0.
    + change 0 with (Qceiling 0). apply Qceiling_resp_le.
      apply Qle_trans with x.
      * rewrite <- (Qplus_0_r x) at 2. unfold Qminus.
        apply Qplus_le_r. discriminate.
      * now apply Qlt_le_weak.
    + change 0 with (Qfloor 0). apply Qfloor_resp_le.
      apply Qle_trans with y; [exact Ey|].
      rewrite <- (Qplus_0_r y) at 1. apply Qplus_le_r. discriminate.
  - apply Qceiling_resp_le. unfold Qminus. now apply Qplus_le_l.
Qed.

Lemma qRound_comp : forall x y, (x == y)%Q -> qRound x = qRound y.
Proof.
  intros x y H. apply Z.le_antisymm; apply qRound_le; rewrite H;
    apply Qle_refl.
Qed.

Lemma qRound_inject_Z : forall n, 0 <= n -> qRound (inject_Z n) = n.
Proof.
  intros n H. unfold qRound.
  assert (Qle_bool 0 (inject_Z n) = true) as ->.
  { apply Qle_bool_iff. change 0%Q with (inject_Z 0). now rewrite <- Zle_Qle. }
  unfold Qfloor, Qplus, inject_Z. cbn [Qnum Qden].
  rewrite Pos.mul_1_l.
  symmetry. apply (Z.div_unique _ _ n 1); lia.
Qed.

Lemma qMin_cases : forall a b,
  (qMin a b <= a)%Q /\ (qMin a b <= b)%Q /\ (qMin a b = a \/ qMin a b = b).
Proof.
  intros a b. unfold qMin. destruct (Qle_bool a b) eqn:E.
  - apply Qle_bool_iff in E. split; [apply Qle_refl|]. split; [exact E|now left].
  - apply Qle_bool_false in E. split; [now apply Qlt_le_weak|].
    split; [apply Qle_refl|now right].
Qed.

(** A page dimension times the scale that fits the target in that
    direction is the target. *)
Lemma fit_exact : forall (size : Q) (target : Z),
  (0 < size)%Q -> (size * (inject_Z target / size * 72 / dpi) == inject_Z target)%Q.
Proof.
  intros size target H. unfold dpi. field.
  intro E. rewrite E in H. now apply Qlt_irrefl in H.
Qed.

End RenderThreadFacts.
(** ** LazyLoader: what every sequence of calls keeps *)

Module LazyLoaderCalls.
Import LazyLoader LazyLoaderFacts.

(** *** Lists of requests *)

Lemma sortedBy_removeKey : forall k q,
  sortedBy lessThan q -> sortedBy lessThan (removeKey k q).
Proof.
  unfold sortedBy. induction q as [|r q IH]; intro S; cbn [removeKey];
    [constructor|].
  apply StronglySorted_inv in S. destruct S as [S F].
  destruct (String.eqb (key r) k); [exact S|].
  constructor; [now apply IH|].
  rewrite Forall_forall in *. intros x Hx. apply F.
  clear - Hx. induction q as [|y q IHq]; cbn [removeKey] in Hx; [easy|].
  destruct (String.eqb (key y) k); [now right|].
  destruct Hx as [Hx|Hx]; [now left|right; now apply IHq].
Qed.

Lemma In_removeKey : forall k x q, In x (removeKey k q) -> In x q.
Proof.
  induction q as [|y q IH]; cbn [removeKey]; [easy|].
  destruct (String.eqb (key y) k); [now right|].
  intros [H|H]; [now left|right; now apply IH].
Qed.

Lemma keys_removeKey : forall k q,
  NoDup (map key q) ->
  NoDup (map key (removeKey k q)) /\
  ~ In k (map key (removeKey k q)) /\
  forall x, In x (removeKey k q) <-> In x q /\ key x <> k.
Proof.
  induction q as [|y q IH]; intro U; cbn [removeKey map].
  - split; [constructor|]. split; [easy|]. intro x. cbn. tauto.
  - cbn [map] in U. inversion U as [|? ? Hy Uq]; subst.
    destruct (String.eqb (key y) k) eqn:E.
    + apply String.eqb_eq in E. subst k.
      split; [exact Uq|]. split; [exact Hy|].
      intro x. split.
      * intro Hx. split; [now right|].
        intro Ek. apply Hy. rewrite <- Ek. now apply in_map.
      * intros [[->|Hx] Hk]; [now elim Hk|exact Hx].
    + apply String.eqb_neq in E.
      destruct (IH Uq) as [U' [A' I']].
      split; [|split].
      * cbn [map]. constructor; [|exact U'].
        intro Hin. apply Hy. apply in_map_iff in Hin.
        destruct Hin as [x [Hk Hx]]. rewrite <- Hk.
        apply in_map. now apply (In_removeKey k).
      * cbn [map]. intros [H|H]; [contradiction|now apply A'].
      * intro x. cbn [In]. rewrite I'. split.
        -- intros [->|[Hx Hk]]; [split; [now left|exact E]|].
           split; [now right|exact Hk].
        -- intros [[->|Hx] Hk]; [now left|right; now split].
Qed.

Lemma keys_bump : forall now k q, map key (bump now k q) = map key q.
Proof.
  induction q as [|y q IH]; cbn [bump map]; [reflexivity|].
  destruct (String.eqb (key y) k); cbn [map key]; [reflexivity|].
  now rewrite IH.
Qed.

Lemma findRequestIndex_found : forall k q,
  0 <= findRequestIndex k q <-> In k (map key q).
Proof.
  induction q as [|y q IH]; cbn [findRequestIndex map In].
  - split; [lia|easy].
  - destruct (String.eqb (key y) k) eqn:E.
    + apply String.eqb_eq in E. split; [now left|lia].
    + apply String.eqb_neq in E.
      destruct (findRequestIndex k q <? 0) eqn:L.
      * apply Z.ltb_lt in L. split; [lia|].
        intros [H|H]; [contradiction|]. apply IH in H. lia.
      * apply Z.ltb_ge in L. split; [|lia].
        intro. right. now apply IH.
Qed.

Lemma findRequestIndex_range : forall k q,
  -1 <= findRequestIndex k q < Z.of_nat (List.length q).
Proof.
  induction q as [|y q IH]; cbn [findRequestIndex List.length]; [lia|].
  rewrite Nat2Z.inj_succ.
  destruct (String.eqb (key y) k); [lia|].
  destruct (findRequestIndex k q <? 0) eqn:L; [lia|].
  apply Z.ltb_ge in L. lia.
Qed.

Lemma existsb_key : forall (r : LoadRequest) q,
  existsb (LoadRequest_eqb r) q = true <-> In (key r) (map key q).
Proof.
  intros r q. rewrite existsb_exists, in_map_iff. unfold LoadRequest_eqb.
  split; intros [x [H1 H2]]; exists x.
  - apply String.eqb_eq in H2. now split.
  - split; [exact H2|]. apply String.eqb_eq. now symmetry.
Qed.

Lemma setMember_In : forall k s, setMember k s = true <-> In k s.
Proof.
  intros k s. unfold setMember. rewrite existsb_exists. split.
  - intros [x [H E]]. apply String.eqb_eq in E. now subst.
  - intro H. exists k. split; [exact H|apply String.eqb_refl].
Qed.

Lemma setRemove_spec : forall k s,
  NoDup s ->
  NoDup (setRemove k s) /\
  (forall x, In x (setRemove k s) <-> In x s /\ x <> k) /\
  (In k s -> S (List.length (setRemove k s)) = List.length s).
Proof.
  unfold setRemove. induction s as [|y s IH]; intro U; cbn [filter].
  - split; [constructor|]. split; [cbn; tauto|easy].
  - inversion U as [|? ? Hy Us]; subst.
    destruct (IH Us) as [U' [I' L']].
    destruct (String.eqb k y) eqn:E; cbn [negb].
    + apply String.eqb_eq in E. subst y.
      split; [exact U'|]. split.
      * intro x. rewrite I'. cbn [In]. split.
        -- intros [H1 H2]. split; [now right|exact H2].
        -- intros [[->|H1] H2]; [now elim H2|now split].
      * intros _. cbn [List.length]. f_equal.
        clear - Hy. induction s as [|z s IHs]; [reflexivity|].
        cbn [filter].
        destruct (String.eqb k z) eqn:E.
        -- apply String.eqb_eq in E. subst. elim Hy. now left.
        -- cbn [negb List.length]. f_equal. apply IHs.
           intro H. apply Hy. now right.
    + apply String.eqb_neq in E.
      split; [|split].
      * constructor; [|exact U']. intro H. apply I' in H. now apply Hy.
      * intro x. cbn [In]. rewrite I'. split.
        -- intros [->|[H1 H2]]; [split; [now left|congruence]|].
           split; [now right|exact H2].
        -- intros [[->|H1] H2]; [now left|right; now split].
      * intros [H|H]; [congruence|]. cbn [List.length]. f_equal. now apply L'.
Qed.

(** *** The calls, one by one *)

Section Sorted.

Variable sort :
  (LoadRequest -> LoadRequest -> bool) -> list LoadRequest -> list LoadRequest.
Hypothesis sort_conforming : conforming sort.

Lemma hint_sorted : forall now p k,
  sortedBy lessThan (requestQueue p) ->
  sortedBy lessThan (requestQueue (hintResourceNeeded sort now p k)).
Proof.
  intros now p k S. unfold hintResourceNeeded.
  destruct (0 <=? findRequestIndex k (requestQueue p)); [|exact S].
  apply sort_conforming.
Qed.

Lemma preloadFrom_sorted : forall keys clock n p,
  sortedBy lessThan (requestQueue p) ->
  sortedBy lessThan (requestQueue (preloadFrom sort clock n p keys)).
Proof.
  induction keys as [|k keys IH]; intros clock n p S; cbn [preloadFrom];
    [exact S|].
  apply IH. now apply hint_sorted.
Qed.

Lemma processNextRequest_sorted : forall p,
  sortedBy lessThan (requestQueue p) ->
  sortedBy lessThan (requestQueue (processNextRequest p)).
Proof.
  intros p S. unfold processNextRequest.
  destruct (requestQueue p) as [|r rest] eqn:E.
  - rewrite orb_true_r. now rewrite E.
  - rewrite orb_false_r.
    destruct (maxConcurrent p <=? activeCount p); [now rewrite E|].
    cbn [requestQueue]. unfold sortedBy in S.
    now apply StronglySorted_inv in S.
Qed.

Lemma step_sorted : forall p c p',
  sortedBy lessThan (requestQueue p) ->
  step sort p c = Some p' ->
  sortedBy lessThan (requestQueue p').
Proof.
  intros p c p' S H.
  destruct c as [now r|k| |count|now k|clock keys prio| |r success];
    cbn [step] in H; try (inversion H; subst p'; clear H).
  - unfold queueRequest.
    destruct (existsb (LoadRequest_eqb r) (requestQueue p)
              || setMember (key r) (activeRequests p)); [exact S|].
    cbn [requestQueue sortQueue]. apply sort_conforming.
  - unfold cancelRequest.
    destruct (setMember k (activeRequests p)); [exact S|].
    destruct (0 <=? findRequestIndex k (requestQueue p)); [|exact S].
    cbn [snd requestQueue]. now apply sortedBy_removeKey.
  - constructor.
  - unfold setMaxConcurrentLoads. destruct (count <? 1); [exact S|].
    destruct (negb (maxConcurrent p =? count)); exact S.
  - now apply hint_sorted.
  - unfold preload. now apply preloadFrom_sorted.
  - unfold deliver. destruct (posted p); [exact S|].
    now apply processNextRequest_sorted.
  - destruct (setMember (key r) (activeRequests p)); [|discriminate].
    inversion H; subst p'. exact S.
Qed.

Lemma run_sorted : forall cs p p',
  sortedBy lessThan (requestQueue p) ->
  run sort p cs = Some p' ->
  sortedBy lessThan (requestQueue p').
Proof.
  induction cs as [|c cs IH]; intros p p' S H; cbn [run] in H.
  - inversion H; now subst.
  - destruct (step sort p c) as [p1|] eqn:E; [|discriminate].
    apply (IH p1 p'); [|exact H]. exact (step_sorted p c p1 S E).
Qed.

(** *** Keys *)

Lemma sort_keys : forall q,
  Permutation (map key q) (map key (sort lessThan q)).
Proof. intro q. apply Permutation_map. apply sort_conforming. Qed.

Lemma hint_fields : forall now p k,
  Permutation (map key (requestQueue p))
              (map key (requestQueue (hintResourceNeeded sort now p k))) /\
  activeRequests (hintResourceNeeded sort now p k) = activeRequests p /\
  activeCount (hintResourceNeeded sort now p k) = activeCount p /\
  maxConcurrent (hintResourceNeeded sort now p k) = maxConcurrent p /\
  dispatched (hintResourceNeeded sort now p k) = dispatched p /\
  posted (hintResourceNeeded sort now p k) = posted p.
Proof.
  intros now p k. unfold hintResourceNeeded.
  destruct (0 <=? findRequestIndex k (requestQueue p)).
  - cbn [sortQueue requestQueue activeRequests activeCount maxConcurrent
         dispatched posted].
    split; [|now repeat split].
    rewrite <- (keys_bump now k (requestQueue p)) at 1. apply sort_keys.
  - split; [apply Permutation_refl|now repeat split].
Qed.

Lemma hint_absent : forall now p k,
  ~ In k (map key (requestQueue p)) -> hintResourceNeeded sort now p k = p.
Proof.
  intros now p k H. unfold hintResourceNeeded.
  destruct (0 <=? findRequestIndex k (requestQueue p)) eqn:E; [|reflexivity].
  apply Z.leb_le in E. apply findRequestIndex_found in E. contradiction.
Qed.

Lemma preloadFrom_fields : forall keys clock n p,
  Permutation (map key (requestQueue p))
              (map key (requestQueue (preloadFrom sort clock n p keys))) /\
  activeRequests (preloadFrom sort clock n p keys) = activeRequests p /\
  activeCount (preloadFrom sort clock n p keys) = activeCount p /\
  maxConcurrent (preloadFrom sort clock n p keys) = maxConcurrent p /\
  dispatched (preloadFrom sort clock n p keys) = dispatched p /\
  posted (preloadFrom sort clock n p keys) = posted p.
Proof.
  induction keys as [|k keys IH]; intros clock n p; cbn [preloadFrom].
  - split; [apply Permutation_refl|now repeat split].
  - destruct (IH clock (S n) (hintResourceNeeded sort (clock n) p k))
      as [P [A [C [M [D Po]]]]].
    destruct (hint_fields (clock n) p k) as [P' [A' [C' [M' [D' Po']]]]].
    split; [eapply Permutation_trans; eauto|].
    rewrite A, C, M, D, Po. now repeat split.
Qed.

Lemma preloadFrom_absent : forall keys clock n p,
  (forall k, In k keys -> ~ In k (map key (requestQueue p))) ->
  preloadFrom sort clock n p keys = p.
Proof.
  induction keys as [|k keys IH]; intros clock n p H; cbn [preloadFrom];
    [reflexivity|].
  rewrite hint_absent by (apply H; now left).
  apply IH. intros x Hx. apply H. now right.
Qed.

Lemma wellFormed_keys : forall p p',
  wellFormed p ->
  Permutation (map key (requestQueue p)) (map key (requestQueue p')) ->
  activeRequests p' = activeRequests p ->
  activeCount p' = activeCount p ->
  wellFormed p'.
Proof.
  intros p p' [U A Ap C] P Ea Ec. split.
  - exact (Permutation_NoDup P U).
  - now rewrite Ea.
  - intros k Hk. rewrite Ea. apply Ap.
    exact (Permutation_in _ (Permutation_sym P) Hk).
  - now rewrite Ea, Ec.
Qed.

Lemma queueRequest_wellFormed : forall now p r,
  wellFormed p -> wellFormed (queueRequest sort now p r).
Proof.
  intros now p r W. unfold queueRequest.
  destruct (existsb (LoadRequest_eqb r) (requestQueue p)) eqn:E1;
    [exact W|].
  destruct (setMember (key r) (activeRequests p)) eqn:E2; [exact W|].
  cbn [orb sortQueue requestQueue activeRequests maxConcurrent activeCount
       dispatched posted].
  destruct W as [U A Ap C].
  assert (~ In (key r) (map key (requestQueue p))) as N1.
  { intro H. apply existsb_key in H. congruence. }
  assert (~ In (key r) (activeRequests p)) as N2.
  { intro H. apply setMember_In in H. congruence. }
  assert (Permutation (map key (requestQueue p) ++ [key r])
            (map key
               (sort lessThan
                  (QList.enqueue
                     (mkLoadRequest (key r) (type r) (parameters r)
                        (onSuccess r) (onError r) (priority r) now)
                     (requestQueue p))))) as P.
  { eapply Permutation_trans; [|apply sort_keys].
    unfold QList.enqueue. rewrite map_app. apply Permutation_refl. }
  split; cbn [requestQueue activeRequests activeCount].
  - apply (Permutation_NoDup P).
    apply NoDup_app; [exact U|constructor; [easy|constructor]|].
    intros x Hx [<-|[]]. contradiction.
  - exact A.
  - intros k Hk. apply (Permutation_in _ (Permutation_sym P)) in Hk.
    apply in_app_or in Hk. destruct Hk as [Hk|[<-|[]]];
      [now apply Ap|exact N2].
  - exact C.
Qed.

Lemma cancelRequest_wellFormed : forall p k,
  wellFormed p -> wellFormed (snd (cancelRequest p k)).
Proof.
  intros p k W. unfold cancelRequest.
  destruct (setMember k (activeRequests p)); [exact W|].
  destruct (0 <=? findRequestIndex k (requestQueue p)); [|exact W].
  cbn [snd]. destruct W as [U A Ap C].
  destruct (keys_removeKey k (requestQueue p) U) as [U' [_ I']].
  split; cbn [requestQueue activeRequests activeCount]; try assumption.
  intros x Hx. apply Ap. apply in_map_iff in Hx.
  destruct Hx as [y [Hk Hy]]. rewrite <- Hk. apply in_map.
  now apply (In_removeKey k).
Qed.

Lemma processNextRequest_wellFormed : forall p,
  wellFormed p -> wellFormed (processNextRequest p).
Proof.
  intros p W. unfold processNextRequest.
  destruct (requestQueue p) as [|r rest] eqn:E.
  - rewrite orb_true_r. exact W.
  - rewrite orb_false_r.
    destruct (maxConcurrent p <=? activeCount p); [exact W|].
    destruct W as [U A Ap C]. rewrite E in U, Ap. cbn [map] in U, Ap.
    inversion U as [|? ? Hr Ur]; subst.
    assert (~ In (key r) (activeRequests p)) as N by (apply Ap; now left).
    assert (setInsert (key r) (activeRequests p) =
            activeRequests p ++ [key r]) as Ins.
    { unfold setInsert.
      destruct (setMember (key r) (activeRequests p)) eqn:M; [|reflexivity].
      apply setMember_In in M. contradiction. }
    split; cbn [requestQueue activeRequests activeCount]; rewrite ?Ins.
    + exact Ur.
    + apply NoDup_app; [exact A|constructor; [easy|constructor]|].
      intros x Hx [<-|[]]. contradiction.
    + intros k Hk Hin. apply in_app_or in Hin.
      destruct Hin as [Hin|[<-|[]]].
      * apply (Ap k); [now right|exact Hin].
      * contradiction.
    + rewrite length_app. cbn [List.length]. rewrite C. lia.
Qed.

Lemma loadFinished_wellFormed : forall p r success,
  wellFormed p -> In (key r) (activeRequests p) ->
  wellFormed (fst (loadFinished p r success)).
Proof.
  intros p r success [U A Ap C] Hin. unfold loadFinished. cbn [fst].
  destruct (setRemove_spec (key r) (activeRequests p) A) as [A' [I' L']].
  split; cbn [requestQueue activeRequests activeCount].
  - exact U.
  - exact A'.
  - intros k Hk H. apply I' in H. now apply (Ap k).
  - rewrite C. specialize (L' Hin). lia.
Qed.

Lemma step_wellFormed : forall p c p',
  wellFormed p -> step sort p c = Some p' -> wellFormed p'.
Proof.
  intros p c p' W H.
  destruct c as [now r|k| |count|now k|clock keys prio| |r success];
    cbn [step] in H; try (inversion H; subst p'; clear H).
  - now apply queueRequest_wellFormed.
  - now apply cancelRequest_wellFormed.
  - destruct W as [U A Ap C]. split;
      cbn [cancelAllRequests requestQueue activeRequests activeCount map];
      try assumption; [constructor|easy].
  - unfold setMaxConcurrentLoads. destruct (count <? 1); [exact W|].
    destruct (negb (maxConcurrent p =? count)); [|exact W].
    destruct W as [U A Ap C]. now split.
  - destruct (hint_fields now p k) as [P [A [C _]]].
    exact (wellFormed_keys p _ W P A C).
  - unfold preload.
    destruct (preloadFrom_fields keys clock 0 p) as [P [A [C _]]].
    exact (wellFormed_keys p _ W P A C).
  - unfold deliver. destruct (posted p); [exact W|].
    apply processNextRequest_wellFormed.
    destruct W as [U A Ap C]. now split.
  - destruct (setMember (key r) (activeRequests p)) eqn:M; [|discriminate].
    inversion H; subst p'. apply (loadFinished_wellFormed p r success W).
    now apply setMember_In.
Qed.

Lemma run_wellFormed : forall cs p p',
  wellFormed p -> run sort p cs = Some p' -> wellFormed p'.
Proof.
  induction cs as [|c cs IH]; intros p p' W H; cbn [run] in H.
  - inversion H; now subst.
  - destruct (step sort p c) as [p1|] eqn:E; [|discriminate].
    apply (IH p1 p'); [|exact H]. exact (step_wellFormed p c p1 W E).
Qed.

(** *** The limit *)

Lemma step_limit : forall limit p c p',
  (forall count, c = SetMaxConcurrentLoads count -> count <= limit) ->
  maxConcurrent p <= limit -> activeCount p <= limit ->
  step sort p c = Some p' ->
  maxConcurrent p' <= limit /\ activeCount p' <= limit.
Proof.
  intros limit p c p' Hc M A H.
  destruct c as [now r|k| |count|now k|clock keys prio| |r success];
    cbn [step] in H; try (inversion H; subst p'; clear H).
  - unfold queueRequest.
    destruct (existsb (LoadRequest_eqb r) (requestQueue p)
              || setMember (key r) (activeRequests p)); now split.
  - unfold cancelRequest.
    destruct (setMember k (activeRequests p)); [now split|].
    destruct (0 <=? findRequestIndex k (requestQueue p)); now split.
  - now split.
  - unfold setMaxConcurrentLoads. destruct (count <? 1); [now split|].
    destruct (negb (maxConcurrent p =? count)); [|now split].
    cbn [maxConcurrent activeCount]. split; [now apply Hc|exact A].
  - destruct (hint_fields now p k) as [_ [_ [C [M' _]]]].
    rewrite C, M'. now split.
  - unfold preload.
    destruct (preloadFrom_fields keys clock 0 p) as [_ [_ [C [M' _]]]].
    rewrite C, M'. now split.
  - unfold deliver. destruct (posted p); [now split|].
    unfold processNextRequest.
    cbn [maxConcurrent activeCount requestQueue].
    destruct (maxConcurrent p <=? activeCount p) eqn:L;
      cbn [orb maxConcurrent activeCount]; [now split|].
    apply Z.leb_gt in L.
    destruct (requestQueue p); cbn [maxConcurrent activeCount];
      split; lia.
  - destruct (setMember (key r) (activeRequests p)); [|discriminate].
    inversion H; subst p'. unfold loadFinished.
    cbn [fst maxConcurrent activeCount]. split; lia.
Qed.

End Sorted.

(** *** Dispatching *)

Lemma processRequests_idle : forall n p,
  processNextRequest p = p -> processRequests n p = p.
Proof.
  induction n as [|n IH]; intros p H; cbn [processRequests]; [reflexivity|].
  rewrite H. now apply IH.
Qed.

(** The request that [bump] changes, when no key is queued twice. *)
Lemma bump_split : forall now r q,
  NoDup (map key q) -> In r q ->
  exists pre post,
    q = pre ++ r :: post /\
    bump now (key r) q =
      pre ++ mkLoadRequest (key r) (type r) (parameters r) (onSuccess r)
               (onError r) (add64 (priority r) 1000) now :: post /\
    forall x, In x (pre ++ post) -> x <> r.
Proof.
  induction q as [|y q IH]; intros U Hin; [destruct Hin|].
  cbn [map] in U. inversion U as [|? ? Hy Uq]; subst.
  destruct Hin as [->|Hin].
  - exists [], q. cbn [app bump]. rewrite String.eqb_refl.
    split; [reflexivity|]. split; [reflexivity|].
    intros x Hx E. subst x. apply Hy. now apply in_map.
  - destruct (IH Uq Hin) as [pre [post [E [B N]]]].
    exists (y :: pre), post. cbn [app bump].
    assert (key y <> key r) as Hk.
    { intro Ek. apply Hy. rewrite Ek. now apply in_map. }
    apply String.eqb_neq in Hk. rewrite Hk.
    split; [now rewrite E|]. split; [now rewrite B|].
    intros x [<-|Hx]; [|now apply N].
    intro Ey. subst y. rewrite String.eqb_refl in Hk. discriminate.
Qed.

(** Inside the range of [qint64] the addition is the one of the
    integers. *)
Lemma add64_range : forall a b,
  - 2 ^ 63 <= a + b < 2 ^ 63 -> add64 a b = a + b.
Proof.
  intros a b H. unfold add64.
  rewrite Z.mod_small by lia. lia.
Qed.

End LazyLoaderCalls.

(** * The claims *)

(** ** The caches *)

Arguments PageCache.CacheKey_eqb : simpl never.
Arguments PageCache.operator_eq : simpl never.
Arguments PageCache.calculateImageSizeBytes : simpl never.

Ltac keys_neq :=
  repeat match goal with
  | |- context [PageCache.CacheKey_eqb ?x ?y] =>
      first [ rewrite (PageCacheFacts.CacheKey_eqb_refl x)
            | rewrite (PageCacheFacts.CacheKey_eqb_neq x y) by congruence ]
  | H : PageCache.operator_eq ?x ?y = false
    |- context [PageCache.operator_eq ?x ?y] => rewrite H
  end.

(** [separated] of a list of keys that are written out. *)
Ltac told_apart :=
  let a := fresh "a" in let b := fresh "b" in
  let Ha := fresh "Ha" in let Hb := fresh "Hb" in let E := fresh "E" in
  intros a b Ha Hb E; vm_compute in Ha, Hb;
  repeat match goal with
  | H : _ \/ _ |- _ => destruct H
  | H : False |- _ => destruct H
  end; subst;
  first [reflexivity | vm_compute in E; discriminate E].

Ltac within_budget :=
  unfold PageCache.withinBudget;
  cbn [PageCache.maxSizeBytes PageCache.currentSizeBytes]; lia.

Ltac fields :=
  cbn [PageCache.cacheMap PageCache.lruQueue PageCache.maxSizeBytes
       PageCache.currentSizeBytes PageCache.image QHash.find QHash.erase
       QHash.keys QList.removeAll filter map fst snd app negb].

Ltac side H1 H2 :=
  fields; rewrite ?H1, ?H2; keys_neq; fields;
  first [reflexivity | assumption | lia].

(** A new key whose image fits: it goes to the back of the table and of
    the queue. *)
Lemma put_fits : forall now p key img,
  PageCache.calculateImageSizeBytes img <> 0 ->
  QHash.find PageCache.CacheKey_eqb key (PageCache.cacheMap p) = None ->
  PageCache.currentSizeBytes p + PageCache.calculateImageSizeBytes img
    <= PageCache.maxSizeBytes p ->
  PageCache.put now p key img =
  PageCache.mkPrivate
    (PageCache.cacheMap p ++ [(key, PageCache.mkCachedItem img now 1)])
    (PageCache.lruQueue p ++ [key])
    (PageCache.maxSizeBytes p)
    (PageCache.currentSizeBytes p + PageCache.calculateImageSizeBytes img).
Proof.
  intros now p key img Hs F Hfit.
  rewrite PageCacheFacts.put_new by assumption.
  unfold PageCache.evictIfNecessary.
  now rewrite PageCacheFacts.evictLoop_within by within_budget.
Qed.

(** A new key whose image needs the oldest entry, and only it, to go. *)
Lemma put_evicts_oldest : forall now p key img oldest rest it,
  PageCache.calculateImageSizeBytes img <> 0 ->
  QHash.find PageCache.CacheKey_eqb key (PageCache.cacheMap p) = None ->
  PageCache.lruQueue p = oldest :: rest ->
  QHash.find PageCache.CacheKey_eqb oldest (PageCache.cacheMap p) = Some it ->
  oldest <> key ->
  PageCache.operator_eq oldest key = false ->
  PageCache.maxSizeBytes p <
    PageCache.currentSizeBytes p + PageCache.calculateImageSizeBytes img ->
  PageCache.currentSizeBytes p + PageCache.calculateImageSizeBytes img
    - PageCache.calculateImageSizeBytes (PageCache.image it)
    <= PageCache.maxSizeBytes p ->
  PageCache.put now p key img =
  PageCache.mkPrivate
    (QHash.erase PageCache.CacheKey_eqb oldest (PageCache.cacheMap p)
       ++ [(key, PageCache.mkCachedItem img now 1)])
    (QList.removeAll PageCache.operator_eq oldest rest ++ [key])
    (PageCache.maxSizeBytes p)
    (PageCache.currentSizeBytes p + PageCache.calculateImageSizeBytes img
       - PageCache.calculateImageSizeBytes (PageCache.image it)).
Proof.
  intros now p key img oldest rest it Hs F Q Fo Hne Hop Hover Hfit.
  rewrite PageCacheFacts.put_new by assumption.
  unfold PageCache.evictIfNecessary.
  cbn [PageCache.lruQueue]. rewrite Q. cbn [app List.length].
  assert (QHash.find PageCache.CacheKey_eqb oldest
            (PageCache.cacheMap p ++ [(key, PageCache.mkCachedItem img now 1)])
          = Some it) as Fo'
    by (rewrite QHashFacts.find_app_new, Fo; reflexivity).
  rewrite (PageCacheFacts.evictLoop_turn _ _ oldest (rest ++ [key]) it)
    by (try reflexivity; try assumption; simpl; lia).
  cbn [PageCache.cacheMap PageCache.maxSizeBytes PageCache.currentSizeBytes].
  rewrite PageCacheFacts.evictLoop_within by within_budget.
  f_equal.
  - clear Fo'. induction (PageCache.cacheMap p) as [|[k v] m IH]; simpl.
    + now rewrite PageCacheFacts.CacheKey_eqb_neq.
    + simpl in Fo. destruct (PageCache.CacheKey_eqb oldest k);
        [reflexivity|]. simpl. f_equal. apply IH.
      * simpl in F. now destruct (PageCache.CacheKey_eqb key k).
      * exact Fo.
  - unfold QList.removeAll. rewrite filter_app. simpl.
    now rewrite Hop.
Qed.

(** C1, as the spec states it, fails: three 400,000-byte images do not fit
    under a 1,000,000-byte ceiling.  After A, B, C and D have been put in
    that order it is not the case that only A is gone and B, C, D are
    all present: B has been evicted as well. *)
Lemma C1_three_images_do_not_fit :
  let p :=
    PageCache.put 4
      (PageCache.put 3
         (PageCache.put 2
            (PageCache.put 1 (PageCache.setMaxSizeBytes PageCache.init 1000000)
               (PageCache.pageKey 0) PageCache.image400k)
            (PageCache.pageKey 1) PageCache.image400k)
         (PageCache.pageKey 2) PageCache.image400k)
      (PageCache.pageKey 3) PageCache.image400k in
  ~ (PageCache.contains p (PageCache.pageKey 0) = false /\
     PageCache.contains p (PageCache.pageKey 1) = true /\
     PageCache.contains p (PageCache.pageKey 2) = true /\
     PageCache.contains p (PageCache.pageKey 3) = true /\
     PageCache.currentSizeBytes p <= 1000000).
Proof.
  intros p [_ [H _]]. vm_compute in H. discriminate.
Qed.

(** C1, amended: with a ceiling of 1,000,000 bytes and four images of
    400,000 bytes put under distinct keys A, B, C, D in that order (none
    read in between), the least recently used entries go, oldest first:
    the put of C evicts A, the put of D evicts B.  At the end exactly C and
    D are cached and the tracked total is 800,000 bytes, within the
    ceiling.  The keys are distinct for the table and for
    [CacheKey::operator==], with which the LRU queue compares them. *)
Theorem C1_lru_evicts_oldest_first :
  forall (A B C D : PageCache.CacheKey) (a b c d : PageCache.QImage)
         (t1 t2 t3 t4 : Z),
  NoDup [A; B; C; D] ->
  PageCache.separated [A; B; C; D] ->
  PageCache.calculateImageSizeBytes a = 400000 ->
  PageCache.calculateImageSizeBytes b = 400000 ->
  PageCache.calculateImageSizeBytes c = 400000 ->
  PageCache.calculateImageSizeBytes d = 400000 ->
  let p0 := PageCache.setMaxSizeBytes PageCache.init 1000000 in
  let p3 := PageCache.put t3 (PageCache.put t2 (PageCache.put t1 p0 A a) B b) C c in
  let p4 := PageCache.put t4 p3 D d in
  (PageCache.contains p3 A = false /\ PageCache.contains p3 B = true /\
   PageCache.contains p3 C = true) /\
  (PageCache.contains p4 A = false /\ PageCache.contains p4 B = false /\
   PageCache.contains p4 C = true /\ PageCache.contains p4 D = true) /\
  QHash.keys (PageCache.cacheMap p4) = [C; D] /\
  PageCache.currentSizeBytes p4 = 800000 /\
  PageCache.currentSizeBytes p4 <= PageCache.maxSizeBytes p4.
Proof.
  intros A B C D a b c d t1 t2 t3 t4 ND Hsep Ha Hb Hc Hd.
  assert (A <> B /\ A <> C /\ A <> D /\ B <> C /\ B <> D /\ C <> D)
    as (AB & AC & AD & BC & BD & CD).
  { inversion ND as [|? ? N1 ND1]; subst.
    inversion ND1 as [|? ? N2 ND2]; subst.
    inversion ND2 as [|? ? N3 ND3]; subst.
    simpl in *. repeat split; intro; subst; tauto. }
  assert (forall x y, In x [A; B; C; D] -> In y [A; B; C; D] -> x <> y ->
                      PageCache.operator_eq x y = false) as Hop.
  { intros x y Hx Hy Hne.
    destruct (PageCache.operator_eq x y) eqn:E; [|reflexivity].
    now apply Hsep in E. }
  assert (PageCache.operator_eq A B = false) as opAB
    by (apply Hop; simpl; tauto).
  assert (PageCache.operator_eq A C = false) as opAC
    by (apply Hop; simpl; tauto).
  assert (PageCache.operator_eq B C = false) as opBC
    by (apply Hop; simpl; tauto).
  assert (PageCache.operator_eq B D = false) as opBD
    by (apply Hop; simpl; tauto).
  clear Hop Hsep.
  cbv zeta.
  assert (PageCache.setMaxSizeBytes PageCache.init 1000000 =
          PageCache.mkPrivate [] [] 1000000 0) as E0 by reflexivity.
  rewrite E0.
  rewrite (put_fits t1 _ A a) by (side Ha Ha).
  rewrite Ha. fields.
  rewrite (put_fits t2 _ B b) by (side Hb Hb).
  rewrite Hb. fields.
  rewrite (put_evicts_oldest t3 _ C c A [B] (PageCache.mkCachedItem a t1 1))
    by (side Hc Ha).
  rewrite Hc. fields. rewrite Ha. keys_neq. fields.
  split.
  { unfold PageCache.contains, QHash.contains. fields. keys_neq. auto. }
  rewrite (put_evicts_oldest t4 _ D d B [C] (PageCache.mkCachedItem b t2 1))
    by (side Hd Hb).
  rewrite Hd. fields. rewrite Hb. keys_neq. fields.
  split.
  { unfold PageCache.contains, QHash.contains. fields. keys_neq. auto. }
  split; [reflexivity|]. split; lia.
Qed.

Lemma C1_lru_evicts_oldest_first_witness :
  let p0 := PageCache.setMaxSizeBytes PageCache.init 1000000 in
  let p3 :=
    PageCache.put 3
      (PageCache.put 2
         (PageCache.put 1 p0 (PageCache.pageKey 0) PageCache.image400k)
         (PageCache.pageKey 1) PageCache.image400k)
      (PageCache.pageKey 2) PageCache.image400k in
  let p4 := PageCache.put 4 p3 (PageCache.pageKey 3) PageCache.image400k in
  (PageCache.contains p3 (PageCache.pageKey 0) = false /\
   PageCache.contains p3 (PageCache.pageKey 1) = true /\
   PageCache.contains p3 (PageCache.pageKey 2) = true) /\
  (PageCache.contains p4 (PageCache.pageKey 0) = false /\
   PageCache.contains p4 (PageCache.pageKey 1) = false /\
   PageCache.contains p4 (PageCache.pageKey 2) = true /\
   PageCache.contains p4 (PageCache.pageKey 3) = true) /\
  QHash.keys (PageCache.cacheMap p4) =
    [PageCache.pageKey 2; PageCache.pageKey 3] /\
  PageCache.currentSizeBytes p4 = 800000 /\
  PageCache.currentSizeBytes p4 <= PageCache.maxSizeBytes p4.
Proof.
  apply (C1_lru_evicts_oldest_first
           (PageCache.pageKey 0) (PageCache.pageKey 1)
           (PageCache.pageKey 2) (PageCache.pageKey 3)
           PageCache.image400k PageCache.image400k
           PageCache.image400k PageCache.image400k 1 2 3 4);
    try reflexivity.
  - repeat constructor; simpl; intuition discriminate.
  - told_apart.
Defined.




(** C4: the tracked byte total is the sum of the sizes of the stored
    items after every sequence of calls, on both caches.  The ceiling is
    not kept, and no item larger than the ceiling is involved.
    - IntelligentCache, ceiling 1,000 bytes, LRU: two items of 600 bytes
      put at one reading of the clock both stay.  The eviction pass only
      takes entries accessed strictly before the time it reads, finds
      none, and leaves through the branch that the source comments with
      "Should not happen if cacheData is not empty", with its warning.
    - PageCache, ceiling 1,000,000 bytes: pages 0 and 1 are put at two
      zoom levels each that [qFuzzyCompare] takes for equal, 400,000 bytes
      an image.  Each eviction removes, with the evicted key, the key of
      the other zoom level from the LRU queue; two images stay cached
      with no key in the queue, and lowering the ceiling to 500,000 bytes
      evicts nothing: 800,000 bytes are tracked.
    - PageCache keeps the ceiling through every sequence of put, get,
      clear and setMaxSizeBytes (with a ceiling that is not negative)
      whose keys [CacheKey::operator==] tells apart. *)
Theorem C4_the_total_is_tracked_but_the_ceiling_is_not_kept :
  (forall ops p p',
     PageCache.tracked p -> PageCache.run p ops = Some p' ->
     PageCache.tracked p') /\
  (forall ops p,
     IntelligentCache.consistent p ->
     IntelligentCache.tracked (IntelligentCache.run p ops)) /\
  (let p :=
     IntelligentCache.run IntelligentCache.init
       [IntelligentCache.SetMaxSizeBytes (IntelligentCache.sameInstant 5) 1000;
        IntelligentCache.Put 5 (IntelligentCache.sameInstant 5) "a"
          IntelligentCache.plainData 600 [];
        IntelligentCache.Put 5 (IntelligentCache.sameInstant 5) "b"
          IntelligentCache.plainData 600 []] in
   QHash.keys (IntelligentCache.cacheData p) = ["a"; "b"]%string /\
   Forall (fun e => IntelligentCache.sizeBytes (snd e)
                      <= IntelligentCache.maxSizeBytes p)
          (IntelligentCache.cacheData p) /\
   IntelligentCache.currentSizeBytes p = 1200 /\
   IntelligentCache.maxSizeBytes p = 1000 /\
   IntelligentCache.warnings p = [IntelligentCache.noCandidateWarning]) /\
  (exists p,
     PageCache.run PageCache.init
       [PageCache.SetMaxSizeBytes 1000000;
        PageCache.Put 1 (PageCache.pageKey 0) PageCache.image400k;
        PageCache.Put 2 (PageCache.closeKey 0) PageCache.image400k;
        PageCache.Put 3 (PageCache.pageKey 1) PageCache.image400k;
        PageCache.Put 4 (PageCache.closeKey 1) PageCache.image400k;
        PageCache.SetMaxSizeBytes 500000] = Some p /\
     QHash.keys (PageCache.cacheMap p) =
       [PageCache.closeKey 0; PageCache.closeKey 1] /\
     PageCache.lruQueue p = [] /\
     Forall (fun e => PageCache.cost (snd e) <= PageCache.maxSizeBytes p)
            (PageCache.cacheMap p) /\
     PageCache.currentSizeBytes p = 800000 /\
     PageCache.maxSizeBytes p = 500000) /\
  (forall ops p,
     PageCache.separated
       (flat_map PageCache.opKeys ops ++ PageCache.lruQueue p) ->
     Forall PageCache.plainOp ops ->
     PageCache.consistent p -> 0 <= PageCache.maxSizeBytes p ->
     PageCache.withinBudget p ->
     exists p', PageCache.run p ops = Some p' /\
                PageCache.tracked p' /\ PageCache.withinBudget p').
Proof.
  split; [|split; [|split; [|split]]].
  - intros ops p p'. apply PageCacheFacts.run_tracked.
  - intros ops p HC.
    apply IntelligentCache.consistent_tracked.
    now apply IntelligentCacheFacts.ic_run_consistent.
  - intro p.
    assert (Forall (fun e => IntelligentCache.sizeBytes (snd e) <= 1000)
              (IntelligentCache.cacheData p)) as F
      by (vm_compute; repeat constructor; discriminate).
    split; [vm_compute; reflexivity|]. split; [exact F|].
    split; [vm_compute; reflexivity|]. split; vm_compute; reflexivity.
  - eexists. split; [vm_compute; reflexivity|].
    split; [vm_compute; reflexivity|]. split; [vm_compute; reflexivity|].
    split; [|split; vm_compute; reflexivity].
    cbn [PageCache.cacheMap PageCache.maxSizeBytes].
    repeat constructor; vm_compute; discriminate.
  - intros ops p Hsep Hops HC Hmax HB.
    destruct (PageCacheFacts.run_sound ops p Hsep Hops
                (conj HC (conj Hmax HB)))
      as [p' [R (HC' & _ & HB')]].
    exists p'. split; [exact R|]. split; [|exact HB'].
    now apply PageCache.consistent_tracked.
Qed.

Lemma C4_the_total_is_tracked_but_the_ceiling_is_not_kept_witness :
  PageCache.tracked
    (PageCache.put 2
       (PageCache.put 1 PageCache.init (PageCache.pageKey 0)
          PageCache.image400k)
       (PageCache.pageKey 1) PageCache.image4M) /\
  IntelligentCache.tracked
    (IntelligentCache.run IntelligentCache.init
       [IntelligentCache.Put 5 (IntelligentCache.sameInstant 5) "a"
          IntelligentCache.plainData 600 [];
        IntelligentCache.Remove "a"]) /\
  (exists p',
     PageCache.run PageCache.init
       [PageCache.SetMaxSizeBytes 1000000;
        PageCache.Put 1 (PageCache.pageKey 0) PageCache.image400k;
        PageCache.Put 2 (PageCache.pageKey 1) PageCache.image400k;
        PageCache.Put 3 (PageCache.pageKey 2) PageCache.image400k;
        PageCache.Get 4 (PageCache.pageKey 1);
        PageCache.SetMaxSizeBytes 500000] = Some p' /\
     PageCache.tracked p' /\ PageCache.withinBudget p').
Proof.
  destruct C4_the_total_is_tracked_but_the_ceiling_is_not_kept
    as (H1 & H2 & _ & _ & H3).
  split; [|split].
  - apply (H1 [PageCache.Put 1 (PageCache.pageKey 0) PageCache.image400k;
               PageCache.Put 2 (PageCache.pageKey 1) PageCache.image4M]
              PageCache.init); reflexivity.
  - apply H2. apply IntelligentCacheFacts.ic_init_consistent.
  - apply H3.
    + cbn [flat_map PageCache.opKeys app PageCache.lruQueue PageCache.init].
      told_apart.
    + repeat constructor; simpl; lia.
    + apply PageCacheFacts.init_sound.
    + simpl. lia.
    + unfold PageCache.withinBudget. simpl. lia.
Defined.



(** C10: IntelligentCache::put returns true whatever the key, the value,
    the size hint and the metadata are.  That includes the put of an item
    larger than the ceiling which the eviction pass of the same put removes
    again: whenever that pass ends without its warning, the key is absent
    after the put that returned true. *)
Theorem C10_put_returns_true_even_when_the_item_is_evicted :
  forall now clock p k d sizeHint md,
  let r := IntelligentCache.put now clock p k d sizeHint md in
  fst r = true /\
  (IntelligentCache.consistent p -> IntelligentCache.nonnegativeSizes p ->
   0 <= IntelligentCache.maxSizeBytes p ->
   IntelligentCache.maxSizeBytes p
     < IntelligentCache.itemSizeOf k d sizeHint md ->
   IntelligentCache.warnings (snd r) = IntelligentCache.warnings p ->
   IntelligentCache.contains (snd r) k = false).
Proof.
  intros now clock p k d sizeHint md r. split; [reflexivity|].
  intros HC HN Hmax Hbig HW.
  destruct (IntelligentCacheFacts.ic_put_oversized now clock p k d sizeHint md
              HC HN Hmax Hbig) as [H|(_ & H & _)]; [exact H|].
  fold r in H. rewrite HW in H.
  apply (f_equal (@List.length string)) in H.
  rewrite length_app in H. simpl in H. lia.
Qed.

Lemma C10_put_returns_true_even_when_the_item_is_evicted_witness :
  let r :=
    IntelligentCache.put 5 (IntelligentCache.sameInstant 5)
      (IntelligentCache.setEvictionPolicy IntelligentCache.init
         IntelligentCache.LFU)
      "big" IntelligentCache.plainData 60000000 [] in
  fst r = true /\ IntelligentCache.contains (snd r) "big" = false.
Proof.
  destruct (C10_put_returns_true_even_when_the_item_is_evicted
              5 (IntelligentCache.sameInstant 5)
              (IntelligentCache.setEvictionPolicy IntelligentCache.init
                 IntelligentCache.LFU)
              "big"%string IntelligentCache.plainData 60000000 [])
    as [H1 H2].
  split; [exact H1|]. apply H2.
  - constructor; simpl; [reflexivity|constructor].
  - constructor.
  - simpl; lia.
  - vm_compute; reflexivity.
  - vm_compute; reflexivity.
Defined.

(** ** The worker pool *)

(** C3, evaluated where the code departs from it.  One task is submitted
    and runs to its end.  The task is Finished and one task was submitted,
    but totalTasksCompleted is still 0: Task::run tells the pool nothing,
    and [updateTaskState], which would count the task, is never called.  A
    waitForDone with the default argument then never returns, and one with
    a timeout returns only when the timeout has run out.  In general no
    sequence of submissions, runs and cancelTask calls moves
    totalTasksCompleted; only cancelAllQueuedTasks does. *)
Theorem C3_finished_tasks_are_not_counted :
  option_map ThreadPool.state
    (QHash.find Z.eqb 1 (ThreadPool.heap ThreadPool.oneTaskDone)) =
    Some ThreadPool.Finished /\
  ThreadPool.totalTasksSubmitted ThreadPool.oneTaskDone = 1 /\
  ThreadPool.totalTasksCompleted ThreadPool.oneTaskDone = 0 /\
  (forall waits,
     ThreadPool.waitForDone (ThreadPool.d ThreadPool.oneTaskDone)
       ThreadPool.forever waits = None) /\
  (forall msecs waits left,
     ThreadPool.waitForDone (ThreadPool.d ThreadPool.oneTaskDone)
       msecs waits = Some left ->
     left <= 0 /\ ThreadPool.toUnsigned left <> ThreadPool.UINT_MAX) /\
  (forall es,
     ~ In ThreadPool.CancelAllQueuedTasks es ->
     ThreadPool.totalTasksCompleted (ThreadPool.steps ThreadPool.init es) = 0).
Proof.
  assert (ThreadPool.totalCompleted (ThreadPool.d ThreadPool.oneTaskDone)
          < ThreadPool.totalSubmitted (ThreadPool.d ThreadPool.oneTaskDone))
    as Behind by (vm_compute; reflexivity).
  repeat split.
  - intro waits. now apply ThreadPoolFacts.waitForDone_forever.
  - now apply (ThreadPoolFacts.waitForDone_timeout
                 (ThreadPool.d ThreadPool.oneTaskDone) waits msecs left).
  - now apply (ThreadPoolFacts.waitForDone_timeout
                 (ThreadPool.d ThreadPool.oneTaskDone) waits msecs left).
  - intros es H. unfold ThreadPool.totalTasksCompleted.
    now rewrite ThreadPoolFacts.steps_totalCompleted.
Qed.

Lemma C3_finished_tasks_are_not_counted_witness :
  (ThreadPool.waitForDone (ThreadPool.d ThreadPool.oneTaskDone) 250
     [100; 100; 100] = Some (-50) /\
   -50 <= 0 /\ ThreadPool.toUnsigned (-50) <> ThreadPool.UINT_MAX) /\
  ThreadPool.totalTasksCompleted
    (ThreadPool.steps ThreadPool.init
       [ThreadPool.Submit 10 1 true "job" ThreadPool.Normal;
        ThreadPool.Submit 10 2 true "job" ThreadPool.Normal;
        ThreadPool.CancelTask 2;
        ThreadPool.RunEnter 11 1; ThreadPool.RunBody 1;
        ThreadPool.RunExit 12 1; ThreadPool.RunEnter 13 2]) = 0.
Proof.
  destruct C3_finished_tasks_are_not_counted as (_ & _ & _ & _ & H5 & H6).
  split.
  - split; [reflexivity|].
    apply (H5 250 [100; 100; 100] (-50)). reflexivity.
  - apply H6. simpl. intuition discriminate.
Defined.

(** C8: Task::cancel returns true exactly when the state of the task is
    Queued.  Then the state becomes Canceled, the cancel flag is set, and
    a run of the task that comes later leaves without calling the body.
    On a task that is Running, Finished or Canceled it returns false and
    changes nothing, and the exit of a running task still makes it
    Finished.  ThreadPool::cancelTask returns what Task::cancel returns for
    the task it is given, and false for the null pointer. *)
Theorem C8_cancel_succeeds_only_while_queued :
  forall t : ThreadPool.Task,
  (fst (ThreadPool.cancel t) = true <->
   ThreadPool.state t = ThreadPool.Queued) /\
  (ThreadPool.state t = ThreadPool.Queued ->
   ThreadPool.state (snd (ThreadPool.cancel t)) = ThreadPool.Canceled /\
   ThreadPool.canceled (snd (ThreadPool.cancel t)) = true /\
   forall start finish,
     ThreadPool.state
       (ThreadPool.run start finish (snd (ThreadPool.cancel t)))
       = ThreadPool.Canceled /\
     ThreadPool.bodyRuns
       (ThreadPool.run start finish (snd (ThreadPool.cancel t)))
       = ThreadPool.bodyRuns t) /\
  (ThreadPool.state t <> ThreadPool.Queued ->
   ThreadPool.cancel t = (false, t)) /\
  (ThreadPool.state t = ThreadPool.Running ->
   forall finish,
     ThreadPool.state
       (ThreadPool.runExit finish
          (ThreadPool.runBody (snd (ThreadPool.cancel t))))
       = ThreadPool.Finished /\
     ThreadPool.canceled
       (ThreadPool.runExit finish
          (ThreadPool.runBody (snd (ThreadPool.cancel t))))
       = ThreadPool.canceled t) /\
  (forall w task,
     task <> 0 ->
     QHash.find Z.eqb task (ThreadPool.heap w) = Some t ->
     fst (ThreadPool.cancelTask w task) = fst (ThreadPool.cancel t) /\
     QHash.find Z.eqb task
       (ThreadPool.heap (snd (ThreadPool.cancelTask w task)))
       = Some (snd (ThreadPool.cancel t)) /\
     ThreadPool.d (snd (ThreadPool.cancelTask w task)) = ThreadPool.d w) /\
  (forall w, ThreadPool.cancelTask w 0 = (false, w)).
Proof.
  intro t. split; [|split; [|split; [|split; [|split]]]].
  - unfold ThreadPool.cancel.
    destruct (ThreadPool.state t); simpl; split; congruence.
  - intro Q. unfold ThreadPool.cancel. rewrite Q. simpl.
    split; [reflexivity|]. split; [reflexivity|].
    intros start finish. split; reflexivity.
  - intro N. unfold ThreadPool.cancel.
    destruct (ThreadPool.state t); congruence.
  - intros R finish. unfold ThreadPool.cancel. rewrite R. simpl.
    unfold ThreadPool.runBody.
    destruct (ThreadPool.hasRunnable t); split; reflexivity.
  - intros w task Hn F. unfold ThreadPool.cancelTask.
    apply Z.eqb_neq in Hn. rewrite Hn, F. simpl.
    split; [reflexivity|]. split; [|reflexivity].
    exact (QHashFacts.find_update_same Z.eqb task
             (fun t => snd (ThreadPool.cancel t)) _ t F).
  - intro w. reflexivity.
Qed.

Lemma C8_cancel_succeeds_only_while_queued_witness :
  let queued := ThreadPool.newTask 10 true "job" ThreadPool.Normal in
  let running := fst (ThreadPool.runEnter 11 queued) in
  (ThreadPool.state (snd (ThreadPool.cancel queued)) = ThreadPool.Canceled /\
   ThreadPool.bodyRuns
     (ThreadPool.run 11 12 (snd (ThreadPool.cancel queued))) = 0%nat) /\
  ThreadPool.cancel running = (false, running) /\
  ThreadPool.state
    (ThreadPool.runExit 12
       (ThreadPool.runBody (snd (ThreadPool.cancel running))))
    = ThreadPool.Finished /\
  fst (ThreadPool.cancelTask
         (ThreadPool.submitNew 10 ThreadPool.init 1 true "job"
            ThreadPool.Normal) 1) = true.
Proof.
  cbv zeta.
  destruct (C8_cancel_succeeds_only_while_queued
              (ThreadPool.newTask 10 true "job" ThreadPool.Normal))
    as (_ & HQ & _ & _ & HP & _).
  destruct (C8_cancel_succeeds_only_while_queued
              (fst (ThreadPool.runEnter 11
                      (ThreadPool.newTask 10 true "job" ThreadPool.Normal))))
    as (_ & _ & HN & HR & _).
  split; [|split; [|split]].
  - destruct HQ as (H1 & _ & H3); [reflexivity|].
    split; [exact H1|]. exact (proj2 (H3 11 12)).
  - apply HN. simpl. discriminate.
  - apply HR. reflexivity.
  - destruct (HP (ThreadPool.submitNew 10 ThreadPool.init 1 true "job"
                    ThreadPool.Normal) 1) as (H1 & _).
    + discriminate.
    + reflexivity.
    + rewrite H1. reflexivity.
Defined.

(** ** The render worker *)

(** C5, as the spec states it, fails: submitRequest checks nothing.  A
    request with a null page is in the queue after it was submitted, and
    the only signal of the submission is the queue status; no result is
    delivered at that point. *)
Lemma C5_null_page_request_is_queued :
  let r := RenderThread.submitRequest RenderThread.init
             RenderThread.nullPageRequest in
  ~ (~ In RenderThread.nullPageRequest (RenderThread.requestQueue (fst r)) /\
     exists result,
       In (RenderThread.renderCompleted result) (snd r) /\
       RenderThread.success result = false).
Proof.
  intros r [H _]. apply H. simpl. now left.
Qed.

(** C5, amended: submitRequest rejects nothing.  Every request, well formed
    or not, is appended to the queue, and the submission emits the queue
    status only.  The null page is found by the worker: when it takes the
    request from the queue, processRequest returns a failure with
    "Invalid page pointer." and no image, before any rendering, and that
    result is what renderCompleted carries.  A target width or height that
    is zero or negative is never checked: the scale of that direction is
    taken as 1.  With both of them not positive the image that the worker
    asks for has the pixels that the size of the page in points rounds to
    (scale 1); the request fails with "Failed to create image buffer."
    when that image is null, as any other request does, and a success
    carries an image of that size.  Examples: a target of 0 by 0 on a
    page of 612 by 792 points is rendered in 612 by 792 pixels; a target
    of 0 by 1 on a page of 1 by 1000 points asks for an image of 0 by 1
    pixels and fails with "Failed to create image buffer.". *)
Theorem C5_requests_are_checked_by_the_worker :
  (forall p r,
     RenderThread.requestQueue (fst (RenderThread.submitRequest p r)) =
       RenderThread.requestQueue p ++ [r] /\
     snd (RenderThread.submitRequest p r) =
       [RenderThread.queueStatusChanged
          (RenderThread.count (RenderThread.requestQueue p ++ [r]))
          (RenderThread.count (RenderThread.activeRequestIds p))]) /\
  (forall r,
     RenderThread.canceled r = false -> RenderThread.page r = None ->
     RenderThread.processRequest r =
       RenderThread.mkRenderResult (RenderThread.requestId r) None false
         "Invalid page pointer.") /\
  (forall p r rest,
     RenderThread.shouldQuit p = false ->
     RenderThread.requestQueue p = r :: rest ->
     RenderThread.canceled r = false -> RenderThread.page r = None ->
     exists p',
       RenderThread.workerTurn p =
         Some (p',
               [RenderThread.queueStatusChanged
                  (RenderThread.count (RenderThread.requestQueue p'))
                  (RenderThread.count (RenderThread.activeRequestIds p'));
                RenderThread.renderCompleted
                  (RenderThread.mkRenderResult (RenderThread.requestId r)
                     None false "Invalid page pointer.")]) /\
       RenderThread.requestQueue p' = rest) /\
  (forall r size,
     (fst (RenderThread.targetSize r) <= 0 ->
      RenderThread.scaleX r size = 1%Q) /\
     (snd (RenderThread.targetSize r) <= 0 ->
      RenderThread.scaleY r size = 1%Q)) /\
  (forall r pg,
     RenderThread.canceled r = false -> RenderThread.page r = Some pg ->
     RenderThread.QSizeF_isEmpty (RenderThread.pageSize pg) = false ->
     fst (RenderThread.targetSize r) <= 0 ->
     snd (RenderThread.targetSize r) <= 0 ->
     let size :=
       (RenderThread.qRound (fst (RenderThread.pageSize pg)),
        RenderThread.qRound (snd (RenderThread.pageSize pg))) in
     RenderThread.renderSize r (RenderThread.pageSize pg) = size /\
     (RenderThread.QImage_isNull size = true ->
      RenderThread.processRequest r =
        RenderThread.mkRenderResult (RenderThread.requestId r) None false
          "Failed to create image buffer.") /\
     (RenderThread.success (RenderThread.processRequest r) = true ->
      RenderThread.image (RenderThread.processRequest r) = Some size)) /\
  RenderThread.processRequest RenderThread.zeroSizeRequest =
    RenderThread.mkRenderResult
      (RenderThread.requestId RenderThread.zeroSizeRequest)
      (Some (612, 792)) true "" /\
  RenderThread.processRequest
    (RenderThread.mkRenderRequest
       (Some (RenderThread.mkPage 4096 0 (1, 1000)%Q))
       (0, 1) 1 0 (0, 0, 0, 0)%Q false 9 false) =
    RenderThread.mkRenderResult 9 None false "Failed to create image buffer.".
Proof.
  split; [|split; [|split; [|split; [|split; [|split]]]]].
  - intros p r. split; reflexivity.
  - intros r Hc Hp. unfold RenderThread.processRequest.
    now rewrite Hc, Hp.
  - intros p r rest Hq Q Hc Hp. unfold RenderThread.workerTurn.
    rewrite Hq, Q. unfold RenderThread.processRequest. rewrite Hc, Hp.
    exists (RenderThread.mkPrivate rest
              (filter (fun i => negb (i =? RenderThread.requestId r))
                      (RenderThread.activeRequestIds p))
              false false).
    split; reflexivity.
  - intros r size. unfold RenderThread.scaleX, RenderThread.scaleY.
    split; intro H; apply Z.ltb_ge in H; now rewrite H.
  - intros r pg Hc Hp E Hw Hh size.
    assert (RenderThread.renderSize r (RenderThread.pageSize pg) = size)
      as R.
    { unfold RenderThread.renderSize, RenderThread.scaleX,
        RenderThread.scaleY.
      apply Z.ltb_ge in Hw, Hh. rewrite Hw, Hh.
      assert (RenderThread.qMin 1 1 = 1%Q) as M by reflexivity.
      rewrite M. cbv zeta.
      rewrite (RenderThreadFacts.qRound_comp
                 (fst (RenderThread.pageSize pg) * 1)
                 (fst (RenderThread.pageSize pg)))
        by apply Qmult_1_r.
      rewrite (RenderThreadFacts.qRound_comp
                 (snd (RenderThread.pageSize pg) * 1)
                 (snd (RenderThread.pageSize pg)))
        by apply Qmult_1_r.
      reflexivity. }
    split; [exact R|].
    unfold RenderThread.processRequest. rewrite Hc, Hp, E. cbv zeta.
    rewrite R.
    destruct (RenderThread.QImage_isNull size); split;
      try discriminate; reflexivity.
  - vm_compute. reflexivity.
  - vm_compute. reflexivity.
Qed.

Lemma C5_requests_are_checked_by_the_worker_witness :
  RenderThread.processRequest RenderThread.nullPageRequest =
    RenderThread.mkRenderResult 7 None false "Invalid page pointer." /\
  (exists p',
     RenderThread.workerTurn
       (fst (RenderThread.submitRequest RenderThread.init
               RenderThread.nullPageRequest)) =
       Some (p',
             [RenderThread.queueStatusChanged
                (RenderThread.count (RenderThread.requestQueue p'))
                (RenderThread.count (RenderThread.activeRequestIds p'));
              RenderThread.renderCompleted
                (RenderThread.mkRenderResult 7 None false
                   "Invalid page pointer.")]) /\
     RenderThread.requestQueue p' = []) /\
  RenderThread.scaleX RenderThread.zeroSizeRequest (612, 792)%Q = 1%Q /\
  RenderThread.processRequest
    (RenderThread.mkRenderRequest
       (Some (RenderThread.mkPage 4096 0 ((1 # 4), (1 # 4))%Q))
       (0, -5) 1 0 (0, 0, 0, 0)%Q false 11 false) =
    RenderThread.mkRenderResult 11 None false "Failed to create image buffer.".
Proof.
  destruct C5_requests_are_checked_by_the_worker
    as (_ & H2 & H3 & H4 & H5 & _).
  split; [|split; [|split]].
  - apply (H2 RenderThread.nullPageRequest); reflexivity.
  - apply (H3 _ RenderThread.nullPageRequest []); reflexivity.
  - apply (H4 RenderThread.zeroSizeRequest). simpl. lia.
  - destruct (H5 (RenderThread.mkRenderRequest
                    (Some (RenderThread.mkPage 4096 0 ((1 # 4), (1 # 4))%Q))
                    (0, -5) 1 0 (0, 0, 0, 0)%Q false 11 false)
                 (RenderThread.mkPage 4096 0 ((1 # 4), (1 # 4))%Q))
      as (_ & F & _);
      [reflexivity|reflexivity|reflexivity|cbn; lia|cbn; lia|].
    apply F. reflexivity.
Defined.

(** ** The lazy-load scheduler *)




(** C7: queueRequest with a key that is already in the queue or already
    active changes nothing, whatever the priority, the parameters and the
    callbacks of the new request are: the queue, the active set, the
    counters and the posted invocations stay as they are, and the request
    that was there is not replaced.  (That a queued request is recognised
    by its key is how the spec describes operator== of LoadRequest, which
    the sources use and do not declare.) *)
Theorem C7_duplicate_queueRequest_is_a_no_op :
  forall std_sort now p request,
  (exists q, In q (LazyLoader.requestQueue p) /\
             LazyLoader.key q = LazyLoader.key request) \/
  In (LazyLoader.key request) (LazyLoader.activeRequests p) ->
  LazyLoader.queueRequest std_sort now p request = p.
Proof.
  intros std_sort now p request H.
  now apply LazyLoaderFacts.queueRequest_duplicate.
Qed.

Lemma C7_duplicate_queueRequest_is_a_no_op_witness :
  let p := LazyLoader.queueRequest LazyLoader.sortKeepingTies 10
             LazyLoader.init LazyLoader.reqA in
  LazyLoader.queueRequest LazyLoader.sortKeepingTies 11 p
    (LazyLoader.request "a" 900) = p /\
  LazyLoader.queueRequest LazyLoader.sortKeepingTies 12
    (LazyLoader.deliver p) (LazyLoader.request "a" 900) = LazyLoader.deliver p.
Proof.
  split.
  - apply C7_duplicate_queueRequest_is_a_no_op.
    left. exists (LazyLoader.stamped 10 LazyLoader.reqA).
    split; [now left|reflexivity].
  - apply C7_duplicate_queueRequest_is_a_no_op.
    right. now left.
Defined.
(** * Further properties of the code *)

(** ** PageCache *)

(** X1 ([PageCache::put], [PageCache::get], [PageCache::evictIfNecessary]):
    on a cache whose queue mirrors its table, and for a key that
    [CacheKey::operator==] tells apart from the queued keys as it tells
    them apart from each other, an image that has bytes and fits under
    the ceiling on its own is cached by [put], whatever else the eviction
    pass of that [put] has to remove, and a [get] that follows returns
    it. *)
Theorem put_then_get_returns_the_image : forall now now' p key img,
  PageCache.separated (key :: PageCache.lruQueue p) ->
  PageCache.aligned p ->
  0 < PageCache.calculateImageSizeBytes img <= PageCache.maxSizeBytes p ->
  PageCache.contains (PageCache.put now p key img) key = true /\
  fst (PageCache.get now' (PageCache.put now p key img) key) = img.
Proof.
  intros now now' p key img Hsep A [Pos Fit].
  rewrite PageCacheLru.put_inserted by lia.
  destruct (PageCacheLru.inserted_queue now p key img) as [front E].
  assert (QHash.find PageCache.CacheKey_eqb key
            (PageCache.cacheMap
               (PageCache.evictIfNecessary (PageCache.inserted now p key img)))
          = Some (PageCache.mkCachedItem img now 1)) as F.
  { unfold PageCache.evictIfNecessary.
    apply (PageCacheLru.evictLoop_keeps_newest _ _ key _ front).
    - apply (PageCacheFacts.separated_incl _ (key :: PageCache.lruQueue p));
        [|exact Hsep].
      intros x. apply PageCacheLru.inserted_queue_incl.
    - now apply PageCacheLru.inserted_aligned.
    - exact E.
    - apply PageCacheLru.inserted_find.
    - rewrite PageCacheLru.inserted_max. exact Fit. }
  split.
  - unfold PageCache.contains.
    rewrite PageCacheFacts.find_contains, F. reflexivity.
  - rewrite (PageCacheFacts.get_present _ _ _ _ F). reflexivity.
Qed.

Lemma put_then_get_returns_the_image_witness :
  let p :=
    PageCache.put 1 PageCache.init (PageCache.pageKey 1) PageCache.image400k in
  PageCache.contains
    (PageCache.put 2 p (PageCache.pageKey 0) PageCache.image400k)
    (PageCache.pageKey 0) = true /\
  fst (PageCache.get 3
         (PageCache.put 2 p (PageCache.pageKey 0) PageCache.image400k)
         (PageCache.pageKey 0)) = PageCache.image400k.
Proof.
  intro p.
  apply (put_then_get_returns_the_image 2 3 p
           (PageCache.pageKey 0) PageCache.image400k).
  - told_apart.
  - apply PageCacheLru.put_aligned; [told_apart|].
    apply PageCacheLru.aligned_init.
  - vm_compute. split; [reflexivity|discriminate].
Defined.

(** X2 ([PageCache::evictIfNecessary], [Private::removeItem]): on a cache
    whose queue mirrors its table and holds keys that
    [CacheKey::operator==] tells apart, the eviction pass removes the [n]
    keys at the front of the queue, the least recently used ones, and
    nothing else; the entries that stay keep their values; [n] is the
    least number of them that brings the byte total within the ceiling,
    or the whole queue. *)
Theorem eviction_takes_the_least_recently_used : forall p,
  PageCache.separated (PageCache.lruQueue p) ->
  PageCache.aligned p ->
  exists n,
    let p' := PageCache.evictIfNecessary p in
    PageCache.lruQueue p' = skipn n (PageCache.lruQueue p) /\
    (forall k, PageCache.contains p' k = true <->
               In k (skipn n (PageCache.lruQueue p))) /\
    (forall k it,
       QHash.find PageCache.CacheKey_eqb k (PageCache.cacheMap p') = Some it ->
       QHash.find PageCache.CacheKey_eqb k (PageCache.cacheMap p) = Some it) /\
    PageCache.currentSizeBytes p' =
      PageCache.currentSizeBytes p -
      PageCache.bytesOf p (firstn n (PageCache.lruQueue p)) /\
    (forall m, (m < n)%nat ->
       PageCache.maxSizeBytes p <
       PageCache.currentSizeBytes p -
       PageCache.bytesOf p (firstn m (PageCache.lruQueue p))) /\
    (PageCache.withinBudget p' \/ PageCache.lruQueue p' = []).
Proof.
  intros p Hsep A.
  destruct (PageCacheLru.evictLoop_least
              (List.length (PageCache.lruQueue p)) p Hsep A)
    as [n [Hq [Hc [Hl Ha]]]].
  exists n. cbv zeta. unfold PageCache.evictIfNecessary.
  split; [exact Hq|]. split; [|split; [|split; [exact Hc|split; [exact Hl|]]]].
  - intro k. rewrite <- Hq. unfold PageCache.contains.
    rewrite (QHashFacts.contains_In PageCache.CacheKey_eqb
               PageCacheFacts.CacheKey_eqb_eq).
    destruct Ha as [[_ _ Qd] _ Q]. split; [apply Qd|apply Q].
  - intros k it. apply PageCacheFacts.evictLoop_finds.
    now destruct A as [[_ U _] _ _].
  - apply PageCacheFacts.evictLoop_exit. apply Nat.le_refl.
Qed.

Lemma eviction_takes_the_least_recently_used_witness :
  let p :=
    PageCache.inserted 2
      (PageCache.inserted 1 (PageCache.setMaxSizeBytes PageCache.init 500000)
         (PageCache.pageKey 0) PageCache.image400k)
      (PageCache.pageKey 1) PageCache.image400k in
  exists n,
    let p' := PageCache.evictIfNecessary p in
    PageCache.lruQueue p' = skipn n (PageCache.lruQueue p) /\
    (forall k, PageCache.contains p' k = true <->
               In k (skipn n (PageCache.lruQueue p))) /\
    (forall k it,
       QHash.find PageCache.CacheKey_eqb k (PageCache.cacheMap p') = Some it ->
       QHash.find PageCache.CacheKey_eqb k (PageCache.cacheMap p) = Some it) /\
    PageCache.currentSizeBytes p' =
      PageCache.currentSizeBytes p -
      PageCache.bytesOf p (firstn n (PageCache.lruQueue p)) /\
    (forall m, (m < n)%nat ->
       PageCache.maxSizeBytes p <
       PageCache.currentSizeBytes p -
       PageCache.bytesOf p (firstn m (PageCache.lruQueue p))) /\
    (PageCache.withinBudget p' \/ PageCache.lruQueue p' = []).
Proof.
  intro p.
  apply (eviction_takes_the_least_recently_used p).
  - told_apart.
  - apply PageCacheLru.inserted_aligned; [told_apart|].
    apply PageCacheLru.inserted_aligned; [told_apart|].
    apply PageCacheLru.setMaxSizeBytes_aligned; [told_apart|].
    apply PageCacheLru.aligned_init.
Defined.

(** X3 ([PageCache::put], [PageCache::get], [PageCache::clear],
    [PageCache::setMaxSizeBytes]): after every sequence of these calls on a
    fresh cache, with keys that [CacheKey::operator==] tells apart, the
    LRU queue holds exactly the cached keys, each of them once. *)
Theorem lru_queue_mirrors_the_table : forall ops,
  PageCache.separated (flat_map PageCache.opKeys ops) ->
  Forall PageCache.plainOp ops ->
  exists p',
    PageCache.run PageCache.init ops = Some p' /\
    NoDup (PageCache.lruQueue p') /\
    forall k, In k (PageCache.lruQueue p') <-> PageCache.contains p' k = true.
Proof.
  intros ops Hsep H.
  assert (PageCache.separated
            (flat_map PageCache.opKeys ops
               ++ PageCache.lruQueue PageCache.init)) as Hsep'
    by (cbn [PageCache.lruQueue PageCache.init]; now rewrite app_nil_r).
  destruct (PageCacheLru.run_aligned ops PageCache.init Hsep' H
              PageCacheLru.aligned_init) as [p' [R [[_ _ Qd] N Q]]].
  exists p'. split; [exact R|]. split; [exact N|].
  intro k. unfold PageCache.contains.
  rewrite (QHashFacts.contains_In PageCache.CacheKey_eqb
             PageCacheFacts.CacheKey_eqb_eq).
  split; [apply Q|apply Qd].
Qed.

Lemma lru_queue_mirrors_the_table_witness :
  exists p',
    PageCache.run PageCache.init
      [PageCache.Put 1 (PageCache.pageKey 0) PageCache.image400k;
       PageCache.Put 2 (PageCache.pageKey 1) PageCache.image400k;
       PageCache.Get 3 (PageCache.pageKey 0)] = Some p' /\
    NoDup (PageCache.lruQueue p') /\
    forall k, In k (PageCache.lruQueue p') <-> PageCache.contains p' k = true.
Proof.
  apply (lru_queue_mirrors_the_table
           [PageCache.Put 1 (PageCache.pageKey 0) PageCache.image400k;
            PageCache.Put 2 (PageCache.pageKey 1) PageCache.image400k;
            PageCache.Get 3 (PageCache.pageKey 0)]).
  - told_apart.
  - repeat constructor.
Defined.

(** X4 ([PageCache::put], [Private::calculateImageSizeBytes]): an image
    that counts zero bytes is not cached and [put] changes nothing: a null
    image, and also every image of fewer than 8 bits per pixel, since the
    bytes per pixel are [depth / 8] in integers. *)
Theorem images_without_bytes_are_not_cached : forall now p key img,
  PageCache.isNull img = true \/ 0 <= PageCache.depth img < 8 ->
  PageCache.put now p key img = p.
Proof.
  intros now p key img H. unfold PageCache.put.
  assert (PageCache.calculateImageSizeBytes img = 0) as ->.
  { unfold PageCache.calculateImageSizeBytes.
    destruct (PageCache.isNull img); [reflexivity|].
    destruct H as [H|H]; [discriminate|].
    rewrite (Z.div_small _ _ H). lia. }
  reflexivity.
Qed.

Lemma images_without_bytes_are_not_cached_witness :
  PageCache.put 1 PageCache.init (PageCache.pageKey 0)
    (PageCache.mkQImage 500 200 1) = PageCache.init.
Proof.
  apply (images_without_bytes_are_not_cached 1 PageCache.init
           (PageCache.pageKey 0) (PageCache.mkQImage 500 200 1)).
  right. cbn. lia.
Defined.

(** X5 ([PageCache::clearForDocument]): the call reads [it.key()] on the
    iterator that [erase] returned, so it reads the key of [end()], which
    is undefined, exactly when the entry that the iteration visits last
    belongs to the document; it returns in every other case. *)
Theorem clearForDocument_reads_the_key_at_the_end : forall p doc,
  PageCache.clearForDocument p doc = None <->
  exists front k v,
    PageCache.cacheMap p = front ++ [(k, v)] /\
    PageCache.documentId k = doc.
Proof.
  intros p doc. unfold PageCache.clearForDocument.
  apply PageCacheLru.clearLoop_none.
Qed.

(** X6 ([PageCache::clearForDocument]): when the call returns, the table
    holds the entries of the other documents, untouched and in their
    order, the byte total has gone down by the bytes of the entries of the
    document, and the ceiling is as before. *)
Theorem clearForDocument_keeps_the_other_documents : forall p doc p',
  NoDup (QHash.keys (PageCache.cacheMap p)) ->
  PageCache.clearForDocument p doc = Some p' ->
  PageCache.cacheMap p' =
    filter (fun e => negb (PageCache.documentId (fst e) =? doc))
           (PageCache.cacheMap p) /\
  PageCache.currentSizeBytes p' =
    PageCache.currentSizeBytes p -
    QHash.total PageCache.cost
      (filter (fun e => PageCache.documentId (fst e) =? doc)
              (PageCache.cacheMap p)) /\
  PageCache.maxSizeBytes p' = PageCache.maxSizeBytes p.
Proof.
  intros p doc p' U H. unfold PageCache.clearForDocument in H. split.
  - exact (PageCacheLru.clearLoop_table _ doc [] p p' eq_refl U H).
  - exact (PageCacheLru.clearLoop_size _ doc p p' H).
Qed.

Lemma clearForDocument_keeps_the_other_documents_witness :
  let k1 := PageCache.mkCacheKey 1 0 (Q2Qc 1) 0 (500, 200) in
  let k2 := PageCache.mkCacheKey 2 0 (Q2Qc 1) 0 (500, 200) in
  let it := PageCache.mkCachedItem PageCache.image400k 1 1 in
  let p := PageCache.mkPrivate [(k1, it); (k2, it)] [k1; k2] 1000000 800000 in
  let p' := PageCache.mkPrivate [(k2, it)] [k1] 1000000 400000 in
  PageCache.cacheMap p' =
    filter (fun e => negb (PageCache.documentId (fst e) =? 1))
           (PageCache.cacheMap p) /\
  PageCache.currentSizeBytes p' =
    PageCache.currentSizeBytes p -
    QHash.total PageCache.cost
      (filter (fun e => PageCache.documentId (fst e) =? 1)
              (PageCache.cacheMap p)) /\
  PageCache.maxSizeBytes p' = PageCache.maxSizeBytes p.
Proof.
  intros k1 k2 it p p'.
  apply (clearForDocument_keeps_the_other_documents p 1 p').
  - cbn. constructor.
    + intros [H|[]]. discriminate H.
    + constructor; [intros []|constructor].
  - vm_compute. reflexivity.
Defined.

(** X7 ([PageCache::clearForDocument], [PageCache::evictIfNecessary],
    [PageCache::setMaxSizeBytes]): when an entry of the document is
    followed in the table by an entry of another document, it is the key
    of that other entry that leaves the LRU queue.  The entry stays
    cached, and since the eviction pass takes its victims from the queue,
    no ceiling, however small, evicts it any more. *)
Theorem clearForDocument_strands_the_next_entry :
  forall p doc p' front k v next w rest size,
  NoDup (QHash.keys (PageCache.cacheMap p)) ->
  PageCache.cacheMap p = front ++ (k, v) :: (next, w) :: rest ->
  PageCache.documentId k = doc ->
  PageCache.documentId next <> doc ->
  PageCache.clearForDocument p doc = Some p' ->
  ~ In next (PageCache.lruQueue p') /\
  QHash.find PageCache.CacheKey_eqb next (PageCache.cacheMap p') = Some w /\
  QHash.find PageCache.CacheKey_eqb next
    (PageCache.cacheMap (PageCache.setMaxSizeBytes p' size)) = Some w.
Proof.
  intros p doc p' front k v next w rest size U E D Dn H.
  unfold PageCache.clearForDocument in H.
  assert (~ In next (PageCache.lruQueue p')) as Q.
  { rewrite E in H.
    exact (PageCacheLru.clearLoop_drops_follower front doc p p' k v next w
             rest D H). }
  assert (QHash.find PageCache.CacheKey_eqb next (PageCache.cacheMap p')
          = Some w) as F.
  { assert (H' := H). rewrite E in H'. rewrite <- E in H'.
    rewrite (PageCacheLru.clearLoop_table _ doc [] p p' eq_refl U H).
    cbn [app].
    apply (QHashFacts.In_find PageCache.CacheKey_eqb
             PageCacheFacts.CacheKey_eqb_eq).
    - now apply PageCacheLru.NoDup_keys_filter.
    - apply filter_In. split.
      + rewrite E. apply in_or_app. right. right. now left.
      + cbn [fst]. apply Z.eqb_neq in Dn. now rewrite Dn. }
  split; [exact Q|]. split; [exact F|].
  unfold PageCache.setMaxSizeBytes, PageCache.evictIfNecessary.
  rewrite PageCacheLru.evictLoop_skips_unqueued; [exact F|exact Q].
Qed.

Lemma clearForDocument_strands_the_next_entry_witness :
  let k1 := PageCache.mkCacheKey 1 0 (Q2Qc 1) 0 (500, 200) in
  let k2 := PageCache.mkCacheKey 2 0 (Q2Qc 1) 0 (500, 200) in
  let it := PageCache.mkCachedItem PageCache.image400k 1 1 in
  let p' := PageCache.mkPrivate [(k2, it)] [k1] 1000000 400000 in
  ~ In k2 (PageCache.lruQueue p') /\
  QHash.find PageCache.CacheKey_eqb k2 (PageCache.cacheMap p') = Some it /\
  QHash.find PageCache.CacheKey_eqb k2
    (PageCache.cacheMap (PageCache.setMaxSizeBytes p' 0)) = Some it.
Proof.
  intros k1 k2 it p'.
  apply (clearForDocument_strands_the_next_entry
           (PageCache.mkPrivate [(k1, it); (k2, it)] [k1; k2] 1000000 800000)
           1 p' [] k1 it k2 it [] 0).
  - cbn. constructor.
    + intros [H|[]]. discriminate H.
    + constructor; [intros []|constructor].
  - reflexivity.
  - reflexivity.
  - cbn. discriminate.
  - vm_compute. reflexivity.
Defined.
(** ** IntelligentCache *)

(** X8 ([Private::evictIfNeeded]): the item that a turn of the eviction
    loop removes is a least one under the measure of the policy: no item
    was used longer ago (LRU, and Predictive, which scans as LRU does), none
    has a lower access count (LFU), none a lower priority (Priority). *)
Theorem eviction_removes_a_least_item_of_the_policy :
  forall turns clock n p,
  IntelligentCache.consistent p ->
  IntelligentCache.maxSizeBytes p < IntelligentCache.currentSizeBytes p ->
  IntelligentCache.QString_isEmpty
    (IntelligentCache.keyToEvict (clock n) p) = false ->
  exists it,
    In (IntelligentCache.keyToEvict (clock n) p, it)
       (IntelligentCache.cacheData p) /\
    (forall e, In e (IntelligentCache.cacheData p) ->
       match IntelligentCache.evictionPolicy p with
       | IntelligentCache.LRU | IntelligentCache.Predictive =>
           IntelligentCache.lastAccessTime it <=
           IntelligentCache.lastAccessTime (snd e)
       | IntelligentCache.LFU =>
           IntelligentCache.accessCount it <=
           IntelligentCache.accessCount (snd e)
       | IntelligentCache.Priority =>
           (IntelligentCache.priority it <=
            IntelligentCache.priority (snd e))%Q
       end) /\
    IntelligentCache.evictLoop (S turns) clock n p =
    IntelligentCache.evictLoop turns clock (S n)
      (IntelligentCache.mkPrivate
         (QHash.erase String.eqb (IntelligentCache.keyToEvict (clock n) p)
            (IntelligentCache.cacheData p))
         (IntelligentCache.maxSizeBytes p)
         (IntelligentCache.currentSizeBytes p - IntelligentCache.sizeBytes it)
         (IntelligentCache.evictionPolicy p)
         (IntelligentCache.warnings p)).
Proof.
  intros turns clock n p [T U] Over K.
  destruct (IntelligentCachePolicies.ic_keyToEvict_least (clock n) p K)
    as [it [Hin Least]].
  exists it. split; [exact Hin|]. split; [exact Least|].
  apply IntelligentCachePolicies.ic_evictLoop_turn; try assumption.
  - destruct (IntelligentCache.cacheData p); [destruct Hin|reflexivity].
  - now apply (QHashFacts.In_find String.eqb IntelligentCacheFacts.ic_eqb_eq).
Qed.

Lemma eviction_removes_a_least_item_of_the_policy_witness :
  let old :=
    IntelligentCache.mkCachedItem IntelligentCache.plainData 600 1 1 3 1
      "old" [] in
  let new :=
    IntelligentCache.mkCachedItem IntelligentCache.plainData 600 2 2 1 1
      "new" [] in
  let p :=
    IntelligentCache.mkPrivate [("old"%string, old); ("new"%string, new)]
      1000 1200 IntelligentCache.LFU [] in
  exists it,
    In (IntelligentCache.keyToEvict 5 p, it) (IntelligentCache.cacheData p) /\
    (forall e, In e (IntelligentCache.cacheData p) ->
       match IntelligentCache.evictionPolicy p with
       | IntelligentCache.LRU | IntelligentCache.Predictive =>
           IntelligentCache.lastAccessTime it <=
           IntelligentCache.lastAccessTime (snd e)
       | IntelligentCache.LFU =>
           IntelligentCache.accessCount it <=
           IntelligentCache.accessCount (snd e)
       | IntelligentCache.Priority =>
           (IntelligentCache.priority it <=
            IntelligentCache.priority (snd e))%Q
       end) /\
    IntelligentCache.evictLoop 2 (IntelligentCache.sameInstant 5) 0 p =
    IntelligentCache.evictLoop 1 (IntelligentCache.sameInstant 5) 1
      (IntelligentCache.mkPrivate
         (QHash.erase String.eqb (IntelligentCache.keyToEvict 5 p)
            (IntelligentCache.cacheData p))
         (IntelligentCache.maxSizeBytes p)
         (IntelligentCache.currentSizeBytes p - IntelligentCache.sizeBytes it)
         (IntelligentCache.evictionPolicy p)
         (IntelligentCache.warnings p)).
Proof.
  intros old new p.
  apply (eviction_removes_a_least_item_of_the_policy 1
           (IntelligentCache.sameInstant 5) 0 p).
  - split.
    + reflexivity.
    + cbn. constructor.
      * intros [H|[]]. discriminate H.
      * constructor; [intros []|constructor].
  - cbn. lia.
  - reflexivity.
Defined.

(** X9 ([IntelligentCache::put], [Private::evictIfNeeded]): under LFU a
    new item starts with the access count 1, and under Priority with the
    priority 1.0.  When every cached item has been read since its own
    [put] (count above 1, priority above 1.0) and the new item does not fit
    beside them, the eviction pass of the [put] removes the new item
    itself: [put] returns [true] and the cache is what it was. *)
Theorem a_new_item_is_evicted_before_items_that_were_read :
  forall now clock p k d sizeHint md,
  IntelligentCache.consistent p ->
  (IntelligentCache.evictionPolicy p = IntelligentCache.LFU /\
   Forall (fun e => 1 < IntelligentCache.accessCount (snd e))
          (IntelligentCache.cacheData p)) \/
  (IntelligentCache.evictionPolicy p = IntelligentCache.Priority /\
   Forall (fun e => (1 < IntelligentCache.priority (snd e))%Q)
          (IntelligentCache.cacheData p)) ->
  IntelligentCache.QString_isEmpty k = false ->
  IntelligentCache.contains p k = false ->
  IntelligentCache.currentSizeBytes p <= IntelligentCache.maxSizeBytes p ->
  IntelligentCache.maxSizeBytes p <
    IntelligentCache.currentSizeBytes p +
    IntelligentCache.itemSizeOf k d sizeHint md ->
  IntelligentCache.put now clock p k d sizeHint md = (true, p).
Proof.
  intros now clock p k d sizeHint md [T U] Read K New Within Over.
  unfold IntelligentCache.put. f_equal.
  unfold IntelligentCache.contains in New.
  assert (QHash.find String.eqb k (IntelligentCache.cacheData p) = None) as F.
  { unfold QHash.contains in New.
    now destruct (QHash.find String.eqb k (IntelligentCache.cacheData p)). }
  assert (~ In k (QHash.keys (IntelligentCache.cacheData p))) as Absent.
  { now apply (QHashFacts.contains_false String.eqb
                 IntelligentCacheFacts.ic_eqb_eq). }
  set (s := IntelligentCache.itemSizeOf k d sizeHint md) in *.
  set (item := IntelligentCache.mkCachedItem d s now now 1 1 k md).
  assert (IntelligentCache.insertItem now p k d sizeHint md =
          IntelligentCache.mkPrivate
            (IntelligentCache.cacheData p ++ [(k, item)])
            (IntelligentCache.maxSizeBytes p)
            (IntelligentCache.currentSizeBytes p + s)
            (IntelligentCache.evictionPolicy p)
            (IntelligentCache.warnings p)) as ->.
  { unfold IntelligentCache.insertItem. rewrite F. cbv zeta.
    unfold QHash.insert. rewrite New. reflexivity. }
  unfold IntelligentCache.evictIfNeeded.
  cbn [IntelligentCache.cacheData]. rewrite length_app, Nat.add_comm.
  cbn [List.length Nat.add].
  set (p1 := IntelligentCache.mkPrivate _ _ _ _ _).
  assert (IntelligentCache.keyToEvict (clock 0%nat) p1 = k) as Victim.
  { unfold IntelligentCache.keyToEvict, p1.
    cbn [IntelligentCache.evictionPolicy IntelligentCache.cacheData].
    destruct Read as [[Pol All]|[Pol All]]; rewrite Pol;
      rewrite IntelligentCachePolicies.ic_scan_app_one.
    - destruct (IntelligentCachePolicies.ic_scan_least_Z
                  IntelligentCache.accessCount IntelligentCache.INT_MAX
                  (IntelligentCache.cacheData p)) as [_ [_ C]].
      assert (1 < fst (IntelligentCache.scan Z.ltb
                         IntelligentCache.accessCount
                         IntelligentCache.INT_MAX
                         (IntelligentCache.cacheData p))) as Low.
      { destruct C as [C|[v [Hin Hm]]].
        - rewrite C. reflexivity.
        - rewrite <- Hm. rewrite Forall_forall in All.
          apply (All _ Hin). }
      cbn [IntelligentCache.accessCount item].
      apply Z.ltb_lt in Low. now rewrite Low.
    - destruct (IntelligentCachePolicies.ic_scan_least_Q
                  IntelligentCache.priority IntelligentCache.qreal_max
                  (IntelligentCache.cacheData p)) as [_ [_ C]].
      assert (1 < fst (IntelligentCache.scan IntelligentCache.Qlt_bool
                         IntelligentCache.priority
                         IntelligentCache.qreal_max
                         (IntelligentCache.cacheData p)))%Q as Low.
      { destruct C as [C|[v [Hin Hm]]].
        - rewrite C. reflexivity.
        - rewrite <- Hm. rewrite Forall_forall in All.
          apply (All _ Hin). }
      cbn [IntelligentCache.priority item].
      unfold IntelligentCache.Qlt_bool.
      destruct (Qle_bool _ 1) eqn:L; [|reflexivity].
      apply Qle_bool_iff in L. exfalso.
      exact (Qlt_not_le _ _ Low L). }
  rewrite (IntelligentCachePolicies.ic_evictLoop_turn _ clock 0 p1 item).
  - rewrite Victim. unfold p1.
    cbn [IntelligentCache.cacheData IntelligentCache.maxSizeBytes
         IntelligentCache.currentSizeBytes IntelligentCache.evictionPolicy
         IntelligentCache.warnings IntelligentCache.sizeBytes item].
    rewrite IntelligentCachePolicies.ic_erase_appended by assumption.
    rewrite IntelligentCachePolicies.ic_evictLoop_within
      by (cbn [IntelligentCache.currentSizeBytes
               IntelligentCache.maxSizeBytes]; lia).
    replace (IntelligentCache.currentSizeBytes p + s - s)
      with (IntelligentCache.currentSizeBytes p) by lia.
    now destruct p.
  - unfold p1. cbn [IntelligentCache.currentSizeBytes
                    IntelligentCache.maxSizeBytes]. lia.
  - unfold p1. cbn [IntelligentCache.cacheData].
    apply IntelligentCachePolicies.ic_isEmpty_app.
  - now rewrite Victim.
  - rewrite Victim. unfold p1. cbn [IntelligentCache.cacheData].
    rewrite QHashFacts.find_app_new, F, String.eqb_refl. reflexivity.
Qed.

Lemma a_new_item_is_evicted_before_items_that_were_read_witness :
  let old :=
    IntelligentCache.mkCachedItem IntelligentCache.plainData 600 1 1 2 1
      "old" [] in
  let p :=
    IntelligentCache.mkPrivate [("old"%string, old)] 1000 600
      IntelligentCache.LFU [] in
  IntelligentCache.put 5 (IntelligentCache.sameInstant 6) p "new"
    IntelligentCache.plainData 600 [] = (true, p).
Proof.
  intros old p.
  apply (a_new_item_is_evicted_before_items_that_were_read 5
           (IntelligentCache.sameInstant 6) p "new"%string
           IntelligentCache.plainData 600 []).
  - split.
    + reflexivity.
    + cbn. constructor; [intros []|constructor].
  - left. split; [reflexivity|].
    constructor; [|constructor]. cbn. lia.
  - reflexivity.
  - reflexivity.
  - cbn. lia.
  - cbn. lia.
Defined.

(** X10 ([IntelligentCache::put], [IntelligentCache::get],
    [Private::evictIfNeeded]): under LRU (and Predictive) an item that fits
    under the ceiling on its own, put into a cache whose items were all
    used before the time of the [put], outlives the eviction pass of its
    [put] whatever the clock of that pass reads, and a [get] that follows
    returns its data. *)
Theorem put_then_get_returns_the_data_under_LRU :
  forall now now' clock p k d sizeHint md,
  IntelligentCache.consistent p ->
  IntelligentCache.evictionPolicy p = IntelligentCache.LRU \/
  IntelligentCache.evictionPolicy p = IntelligentCache.Predictive ->
  Forall (fun e => IntelligentCache.lastAccessTime (snd e) < now)
         (IntelligentCache.cacheData p) ->
  IntelligentCache.itemSizeOf k d sizeHint md <=
    IntelligentCache.maxSizeBytes p ->
  fst (IntelligentCache.get now'
         (snd (IntelligentCache.put now clock p k d sizeHint md)) k) = Some d.
Proof.
  intros now now' clock p k d sizeHint md C Pol Old Fit.
  set (item := IntelligentCache.mkCachedItem d
                 (IntelligentCache.itemSizeOf k d sizeHint md)
                 now now 1 1 k md).
  assert (QHash.find String.eqb k
            (IntelligentCache.cacheData
               (snd (IntelligentCache.put now clock p k d sizeHint md)))
          = Some item) as F.
  { unfold IntelligentCache.put, IntelligentCache.evictIfNeeded. cbn [snd].
    destruct (IntelligentCacheFacts.ic_insertItem_fields now p k d sizeHint md)
      as [Hmax [Hpol _]].
    pose proof C as [_ U].
    apply IntelligentCachePolicies.ic_evictLoop_keeps_newest.
    - now rewrite Hpol.
    - now apply IntelligentCacheFacts.ic_insertItem_consistent.
    - now apply IntelligentCacheFacts.ic_insertItem_find.
    - rewrite Hmax. exact Fit.
    - intros e He Hne. cbn [IntelligentCache.lastAccessTime item].
      rewrite Forall_forall in Old. apply Old.
      unfold IntelligentCache.insertItem in He.
      cbn [IntelligentCache.cacheData] in He.
      assert (forall m : QHash.t (K := string) (V := IntelligentCache.CachedItem),
                In e (QHash.insert String.eqb k item m) -> In e m) as Ins.
      { intros m. unfold QHash.insert.
        destruct (QHash.contains String.eqb k m).
        - induction m as [|[k' v'] m IHm]; cbn [QHash.update]; [easy|].
          destruct (String.eqb k k') eqn:E.
          + apply String.eqb_eq in E. subst k'.
            intros [H|H]; [subst e; now elim Hne|now right].
          + intros [H|H]; [now left|right; now apply IHm].
        - intro H. apply in_app_or in H.
          destruct H as [H|[H|[]]]; [assumption|subst e; now elim Hne]. }
      destruct (QHash.find String.eqb k (IntelligentCache.cacheData p));
        cbn [IntelligentCache.cacheData] in He; apply Ins in He.
      + eapply IntelligentCachePolicies.ic_In_erase; eauto.
      + exact He. }
  rewrite (IntelligentCacheFacts.ic_get_present _ _ _ _ F). reflexivity.
Qed.

Lemma put_then_get_returns_the_data_under_LRU_witness :
  fst (IntelligentCache.get 7
         (snd (IntelligentCache.put 5 (IntelligentCache.sameInstant 6)
                 IntelligentCache.init "a" IntelligentCache.plainData 600 []))
         "a") = Some IntelligentCache.plainData.
Proof.
  apply (put_then_get_returns_the_data_under_LRU 5 7
           (IntelligentCache.sameInstant 6) IntelligentCache.init "a"%string
           IntelligentCache.plainData 600 []).
  - apply IntelligentCacheFacts.ic_init_consistent.
  - left. reflexivity.
  - constructor.
  - vm_compute. discriminate.
Defined.

(** X11 ([IntelligentCache::remove]): [remove] returns whether the key was
    cached; afterwards the key is not cached, every other key has the item
    it had, and the byte total is lower by the size of the removed item. *)
Theorem remove_forgets_the_key_and_nothing_else : forall p k,
  IntelligentCache.consistent p ->
  fst (IntelligentCache.remove p k) = IntelligentCache.contains p k /\
  IntelligentCache.contains (snd (IntelligentCache.remove p k)) k = false /\
  (forall k', k' <> k ->
     QHash.find String.eqb k'
       (IntelligentCache.cacheData (snd (IntelligentCache.remove p k))) =
     QHash.find String.eqb k' (IntelligentCache.cacheData p)) /\
  IntelligentCache.currentSizeBytes (snd (IntelligentCache.remove p k)) =
    IntelligentCache.currentSizeBytes p -
    match QHash.find String.eqb k (IntelligentCache.cacheData p) with
    | Some it => IntelligentCache.sizeBytes it
    | None => 0
    end.
Proof.
  intros p k [T U].
  unfold IntelligentCache.remove, IntelligentCache.contains, QHash.contains.
  destruct (QHash.find String.eqb k (IntelligentCache.cacheData p))
    as [it|] eqn:F; cbn [fst snd IntelligentCache.cacheData
                         IntelligentCache.currentSizeBytes].
  - split; [reflexivity|]. split; [|split; [|reflexivity]].
    + now rewrite (QHashFacts.find_erase_same String.eqb
                     IntelligentCacheFacts.ic_eqb_eq).
    + intros k' Hne.
      now apply (QHashFacts.find_erase_other String.eqb
                   IntelligentCacheFacts.ic_eqb_eq).
  - split; [reflexivity|]. rewrite F.
    split; [reflexivity|]. split; [reflexivity|lia].
Qed.

Lemma remove_forgets_the_key_and_nothing_else_witness :
  let p :=
    snd (IntelligentCache.put 5 (IntelligentCache.sameInstant 6)
           IntelligentCache.init "a" IntelligentCache.plainData 600 []) in
  fst (IntelligentCache.remove p "a") = IntelligentCache.contains p "a" /\
  IntelligentCache.contains (snd (IntelligentCache.remove p "a")) "a" = false /\
  (forall k', k' <> "a"%string ->
     QHash.find String.eqb k'
       (IntelligentCache.cacheData (snd (IntelligentCache.remove p "a"))) =
     QHash.find String.eqb k' (IntelligentCache.cacheData p)) /\
  IntelligentCache.currentSizeBytes (snd (IntelligentCache.remove p "a")) =
    IntelligentCache.currentSizeBytes p -
    match QHash.find String.eqb "a"%string (IntelligentCache.cacheData p) with
    | Some it => IntelligentCache.sizeBytes it
    | None => 0
    end.
Proof.
  intro p.
  apply (remove_forgets_the_key_and_nothing_else p "a"%string).
  apply IntelligentCacheFacts.ic_put_consistent.
  apply IntelligentCacheFacts.ic_init_consistent.
Defined.

(** X12 ([IntelligentCache::setMaxSizeBytes] and the other public calls):
    the byte ceiling of a cache is positive after every sequence of calls,
    since [setMaxSizeBytes] ignores a size that is not. *)
Theorem the_ceiling_stays_positive : forall ops,
  0 < IntelligentCache.maxSizeBytes
        (IntelligentCache.run IntelligentCache.init ops).
Proof.
  intro ops. unfold IntelligentCache.run.
  assert (0 < IntelligentCache.maxSizeBytes IntelligentCache.init) as H
    by (cbn; lia).
  revert H. generalize IntelligentCache.init.
  induction ops as [|o ops IH]; intros p H; [exact H|].
  cbn [fold_left]. apply IH.
  destruct o as [now clock k d sizeHint md|now k|k| |clock size|policy|now k];
    cbn [IntelligentCache.step].
  - unfold IntelligentCache.put, IntelligentCache.evictIfNeeded. cbn [snd].
    rewrite IntelligentCacheFacts.ic_evictLoop_max.
    destruct (IntelligentCacheFacts.ic_insertItem_fields now p k d sizeHint md)
      as [-> _]. exact H.
  - unfold IntelligentCache.get.
    now destruct (QHash.find String.eqb k (IntelligentCache.cacheData p)).
  - unfold IntelligentCache.remove.
    now destruct (QHash.find String.eqb k (IntelligentCache.cacheData p)).
  - exact H.
  - unfold IntelligentCache.setMaxSizeBytes.
    destruct (size <=? 0) eqn:S; [exact H|].
    destruct (negb (IntelligentCache.maxSizeBytes p =? size)); [|exact H].
    unfold IntelligentCache.evictIfNeeded.
    rewrite IntelligentCacheFacts.ic_evictLoop_max.
    cbn [IntelligentCache.maxSizeBytes]. apply Z.leb_gt in S. exact S.
  - exact H.
  - unfold IntelligentCache.hintAccess.
    now destruct (QHash.find String.eqb k (IntelligentCache.cacheData p)).
Qed.

(** X30 ([IntelligentCache::hintAccess], [Private::evictIfNeeded]):
    [hintAccess] adds 0.5 to the priority of the item and stamps it with
    the time of the hint, without counting an access.  Under the Priority
    policy that protects the item: as long as some other cached item had
    no higher priority than it before the hint, the next eviction does not
    pick the hinted item. *)
Theorem a_hint_protects_an_item_under_Priority :
  forall now now' p k it k' v,
  IntelligentCache.consistent p ->
  IntelligentCache.evictionPolicy p = IntelligentCache.Priority ->
  IntelligentCache.QString_isEmpty k = false ->
  QHash.find String.eqb k (IntelligentCache.cacheData p) = Some it ->
  k' <> k ->
  QHash.find String.eqb k' (IntelligentCache.cacheData p) = Some v ->
  (IntelligentCache.priority v <= IntelligentCache.priority it)%Q ->
  QHash.find String.eqb k
    (IntelligentCache.cacheData (IntelligentCache.hintAccess now p k)) =
    Some (IntelligentCache.mkCachedItem
            (IntelligentCache.data it) (IntelligentCache.sizeBytes it) now
            (IntelligentCache.creationTime it)
            (IntelligentCache.accessCount it)
            (IntelligentCache.priority it + (1 # 2))%Q
            (IntelligentCache.key it) (IntelligentCache.metadata it)) /\
  IntelligentCache.keyToEvict now' (IntelligentCache.hintAccess now p k) <> k.
Proof.
  intros now now' p k it k' v [T U] Pol K F Hne F' Le.
  set (f := fun i =>
              IntelligentCache.mkCachedItem
                (IntelligentCache.data i) (IntelligentCache.sizeBytes i) now
                (IntelligentCache.creationTime i)
                (IntelligentCache.accessCount i)
                (IntelligentCache.priority i + (1 # 2))%Q
                (IntelligentCache.key i) (IntelligentCache.metadata i)).
  assert (IntelligentCache.hintAccess now p k =
          IntelligentCache.mkPrivate
            (QHash.update String.eqb k f (IntelligentCache.cacheData p))
            (IntelligentCache.maxSizeBytes p)
            (IntelligentCache.currentSizeBytes p)
            (IntelligentCache.evictionPolicy p)
            (IntelligentCache.warnings p)) as ->.
  { unfold IntelligentCache.hintAccess. now rewrite F. }
  cbn [IntelligentCache.cacheData].
  assert (QHash.find String.eqb k
            (QHash.update String.eqb k f (IntelligentCache.cacheData p)) =
          Some (f it)) as Fk
    by exact (QHashFacts.find_update_same String.eqb k f _ it F).
  split; [exact Fk|].
  intro E.
  set (p1 := IntelligentCache.mkPrivate _ _ _ _ _) in E.
  assert (IntelligentCache.QString_isEmpty
            (IntelligentCache.keyToEvict now' p1) = false) as K1
    by now rewrite E.
  destruct (IntelligentCachePolicies.ic_keyToEvict_least now' p1 K1)
    as [victim [Hin Least]].
  unfold p1 in Hin, Least.
  cbn [IntelligentCache.cacheData IntelligentCache.evictionPolicy]
    in Hin, Least.
  fold p1 in Hin. rewrite E in Hin. rewrite Pol in Least.
  assert (NoDup (QHash.keys
                   (QHash.update String.eqb k f
                      (IntelligentCache.cacheData p)))) as U1
    by now rewrite QHashFacts.keys_update.
  rewrite (QHashFacts.In_find String.eqb IntelligentCacheFacts.ic_eqb_eq
             _ _ _ U1 Hin) in Fk.
  inversion Fk; subst victim.
  assert (In (k', v)
            (QHash.update String.eqb k f (IntelligentCache.cacheData p)))
    as Hv.
  { apply (QHashFacts.find_In String.eqb IntelligentCacheFacts.ic_eqb_eq).
    now rewrite (QHashFacts.find_update_other String.eqb
                   IntelligentCacheFacts.ic_eqb_eq). }
  specialize (Least _ Hv).
  cbn [snd f IntelligentCache.priority] in Least.
  assert (IntelligentCache.priority it + (1 # 2) <=
          IntelligentCache.priority it + 0)%Q as H.
  { rewrite Qplus_0_r. eapply Qle_trans; eauto. }
  apply Qplus_le_r in H. unfold Qle in H. cbn in H. lia.
Qed.

Lemma a_hint_protects_an_item_under_Priority_witness :
  let x :=
    IntelligentCache.mkCachedItem IntelligentCache.plainData 600 1 1 1 1
      "x" [] in
  let y :=
    IntelligentCache.mkCachedItem IntelligentCache.plainData 600 2 2 1 1
      "y" [] in
  let p :=
    IntelligentCache.mkPrivate [("x"%string, x); ("y"%string, y)]
      1000 1200 IntelligentCache.Priority [] in
  QHash.find String.eqb "x"%string
    (IntelligentCache.cacheData (IntelligentCache.hintAccess 3 p "x")) =
    Some (IntelligentCache.mkCachedItem
            (IntelligentCache.data x) (IntelligentCache.sizeBytes x) 3
            (IntelligentCache.creationTime x)
            (IntelligentCache.accessCount x)
            (IntelligentCache.priority x + (1 # 2))%Q
            (IntelligentCache.key x) (IntelligentCache.metadata x)) /\
  IntelligentCache.keyToEvict 4 (IntelligentCache.hintAccess 3 p "x")
    <> "x"%string.
Proof.
  intros x y p.
  apply (a_hint_protects_an_item_under_Priority 3 4 p "x"%string x
           "y"%string y).
  - split.
    + reflexivity.
    + cbn. constructor.
      * intros [H|[]]. discriminate H.
      * constructor; [intros []|constructor].
  - reflexivity.
  - reflexivity.
  - reflexivity.
  - discriminate.
  - reflexivity.
  - cbn. apply Qle_refl.
Defined.
(** ** ThreadPool *)


(** X14 ([ThreadPool::queuedTaskCount], [ThreadPool::submitTask],
    [Task::run]): as long as [cancelAllQueuedTasks] is not called, the
    Queued set holds every task the pool was ever given, whether it waits,
    runs or has finished, and the Canceled set is empty:
    [queuedTaskCount()] is the number of tasks the pool knows. *)
Theorem queuedTaskCount_counts_every_task : forall es,
  ~ In ThreadPool.CancelAllQueuedTasks es ->
  ThreadPool.tasksByState
    (ThreadPool.d (ThreadPool.steps ThreadPool.init es)) ThreadPool.Queued =
  ThreadPool.allTasks (ThreadPool.d (ThreadPool.steps ThreadPool.init es)) /\
  ThreadPool.tasksByState
    (ThreadPool.d (ThreadPool.steps ThreadPool.init es)) ThreadPool.Canceled
  = [] /\
  ThreadPool.queuedTaskCount (ThreadPool.steps ThreadPool.init es) =
  Z.of_nat
    (List.length
       (ThreadPool.allTasks
          (ThreadPool.d (ThreadPool.steps ThreadPool.init es)))).
Proof.
  intros es H. unfold ThreadPool.queuedTaskCount, ThreadPool.steps.
  assert (forall w,
            ThreadPool.tasksByState (ThreadPool.d w) ThreadPool.Queued =
            ThreadPool.allTasks (ThreadPool.d w) ->
            ThreadPool.tasksByState (ThreadPool.d w) ThreadPool.Canceled = [] ->
            ThreadPool.tasksByState
              (ThreadPool.d (fold_left ThreadPool.step es w))
              ThreadPool.Queued =
            ThreadPool.allTasks
              (ThreadPool.d (fold_left ThreadPool.step es w)) /\
            ThreadPool.tasksByState
              (ThreadPool.d (fold_left ThreadPool.step es w))
              ThreadPool.Canceled = []) as G.
  { induction es as [|e es IH]; intros w Q C; [now split|].
    cbn [fold_left].
    destruct (ThreadPoolSets.step_queued w e) as [Q' C']; try assumption.
    - intro; subst. apply H. now left.
    - apply IH; try assumption. intro Hin. apply H. now right. }
  destruct (G ThreadPool.init eq_refl eq_refl) as [Q C].
  rewrite Q. now repeat split.
Qed.

Lemma queuedTaskCount_counts_every_task_witness :
  ThreadPool.tasksByState (ThreadPool.d ThreadPool.oneTaskDone)
    ThreadPool.Queued =
  ThreadPool.allTasks (ThreadPool.d ThreadPool.oneTaskDone) /\
  ThreadPool.tasksByState (ThreadPool.d ThreadPool.oneTaskDone)
    ThreadPool.Canceled = [] /\
  ThreadPool.queuedTaskCount ThreadPool.oneTaskDone =
  Z.of_nat
    (List.length (ThreadPool.allTasks (ThreadPool.d ThreadPool.oneTaskDone))).
Proof.
  apply (queuedTaskCount_counts_every_task
           [ThreadPool.Submit 10 1 true "job"%string ThreadPool.Normal;
            ThreadPool.RunEnter 11 1; ThreadPool.RunBody 1;
            ThreadPool.RunExit 12 1]).
  intros [H|[H|[H|[H|[]]]]]; discriminate H.
Defined.



(** X16 ([Task::cancel], [Task::run]): once [cancel] has succeeded on a
    task, no later call of [run] or [cancel] changes the task in any way:
    it stays Canceled, its body never runs and it gets no start or finish
    time. *)
Theorem a_canceled_task_stays_canceled : forall t cs,
  fst (ThreadPool.cancel t) = true ->
  ThreadPool.calls (snd (ThreadPool.cancel t)) cs = snd (ThreadPool.cancel t) /\
  ThreadPool.state (ThreadPool.calls (snd (ThreadPool.cancel t)) cs) =
    ThreadPool.Canceled /\
  ThreadPool.bodyRuns (ThreadPool.calls (snd (ThreadPool.cancel t)) cs) =
    ThreadPool.bodyRuns t.
Proof.
  intros t cs H.
  assert (ThreadPool.state (snd (ThreadPool.cancel t)) = ThreadPool.Canceled /\
          ThreadPool.canceled (snd (ThreadPool.cancel t)) = true /\
          ThreadPool.bodyRuns (snd (ThreadPool.cancel t)) =
            ThreadPool.bodyRuns t) as [S [C B]].
  { unfold ThreadPool.cancel in *.
    destruct (ThreadPool.state t); try discriminate. now cbn. }
  rewrite (ThreadPoolSets.calls_canceled cs _ S C). now repeat split.
Qed.

Lemma a_canceled_task_stays_canceled_witness :
  let t := ThreadPool.newTask 10 true "job" ThreadPool.Normal in
  let cs := [ThreadPool.CallRun 11 12; ThreadPool.CallCancel;
             ThreadPool.CallRun 13 14] in
  ThreadPool.calls (snd (ThreadPool.cancel t)) cs = snd (ThreadPool.cancel t) /\
  ThreadPool.state (ThreadPool.calls (snd (ThreadPool.cancel t)) cs) =
    ThreadPool.Canceled /\
  ThreadPool.bodyRuns (ThreadPool.calls (snd (ThreadPool.cancel t)) cs) =
    ThreadPool.bodyRuns t.
Proof.
  intros t cs.
  apply (a_canceled_task_stays_canceled t cs). reflexivity.
Defined.

(** X17 ([ThreadPool::waitForDone]): the loop compares the [int] that is
    left of the timeout with [UINT_MAX], the mark of a wait without limit,
    and -1 equals [UINT_MAX] in that comparison.  So when the waits use up
    a timeout to exactly one millisecond past its end, the caller of a
    pool whose counters differ stays in the loop for ever. *)
Theorem a_timeout_that_lands_on_minus_one_never_ends :
  forall p msecs waits rest,
  ThreadPool.totalCompleted p < ThreadPool.totalSubmitted p ->
  0 < msecs < 2 ^ 31 ->
  Forall (fun elapsed => 0 <= elapsed) waits ->
  (forall n, (n < List.length waits)%nat ->
             fold_right Z.add 0 (firstn n waits) < msecs) ->
  fold_right Z.add 0 waits = msecs + 1 ->
  ThreadPool.waitForDone p msecs (waits ++ rest) = None.
Proof.
  intros p msecs waits rest Behind. revert msecs.
  induction waits as [|e waits IH]; intros msecs R Pos Early Sum.
  - cbn in Sum. lia.
  - cbn [fold_right] in Sum. cbn [app ThreadPool.waitForDone].
    rewrite (ThreadPoolFacts.mustWait_behind p msecs Behind).
    rewrite (ThreadPoolSets.toUnsigned_int msecs) by lia.
    assert ((msecs =? ThreadPool.UINT_MAX) = false) as ->
      by (apply Z.eqb_neq; unfold ThreadPool.UINT_MAX; lia).
    assert ((0 <? msecs) = true) as -> by (apply Z.ltb_lt; lia).
    cbn [orb negb].
    inversion Pos as [|? ? He Hw]; subst.
    destruct waits as [|e' waits].
    + cbn in Sum.
      replace (msecs - e) with ThreadPool.forever
        by (unfold ThreadPool.forever; lia).
      now apply ThreadPoolFacts.waitForDone_forever.
    + apply IH.
      * specialize (Early 1%nat). cbn in Early.
        assert (e + 0 < msecs) by (apply Early; lia). lia.
      * exact Hw.
      * intros n Hn. specialize (Early (S n)).
        cbn [firstn fold_right List.length] in Early.
        cbn [List.length] in Hn.
        assert (e + fold_right Z.add 0 (firstn n (e' :: waits)) < msecs)
          by (apply Early; lia).
        lia.
      * lia.
Qed.

Lemma a_timeout_that_lands_on_minus_one_never_ends_witness :
  ThreadPool.waitForDone (ThreadPool.d ThreadPool.oneTaskDone) 250
    ([100; 100; 51] ++ [100; 100; 100]) = None.
Proof.
  apply (a_timeout_that_lands_on_minus_one_never_ends
           (ThreadPool.d ThreadPool.oneTaskDone) 250 [100; 100; 51]
           [100; 100; 100]).
  - vm_compute. reflexivity.
  - lia.
  - repeat constructor; lia.
  - intros [|[|[|n]]] Hn; cbn; try lia. cbn in Hn. lia.
  - reflexivity.
Defined.
(** ** RenderThread *)

(** X18 ([RenderThread::submitRequest], [RenderThread::run]): the worker
    answers the requests in the order of their submission: after the
    requests [rs] have been submitted behind the ones that wait already,
    a worker that is not told to quit and runs until the queue is empty
    delivers one result per request, in the order of the queue; the
    results are the ones [processRequest] gives, and the worker is not
    busy afterwards. *)
Theorem the_worker_answers_in_submission_order : forall p rs,
  RenderThread.shouldQuit p = false ->
  let p' :=
    fold_left (fun p r => fst (RenderThread.submitRequest p r)) rs p in
  let turns := List.length (RenderThread.requestQueue p ++ rs) in
  RenderThread.completed (snd (RenderThread.workerTurns turns p')) =
    map RenderThread.processRequest (RenderThread.requestQueue p ++ rs) /\
  RenderThread.pendingRequestCount
    (fst (RenderThread.workerTurns turns p')) = 0 /\
  ((0 < turns)%nat ->
   RenderThread.isBusy (fst (RenderThread.workerTurns turns p')) = false).
Proof.
  intros p rs Q p' turns.
  destruct (RenderThreadFacts.submitRequests_queue rs p) as [Hq Hs].
  fold p' in Hq, Hs.
  destruct (RenderThreadFacts.workerTurns_fifo turns p') as [H1 H2];
    [now rewrite Hs|].
  assert (RenderThread.requestQueue
            (fst (RenderThread.workerTurns turns p')) = []) as Empty.
  { rewrite H2, Hq. unfold turns. now rewrite skipn_all. }
  split; [|split].
  - rewrite H1, Hq. unfold turns. now rewrite firstn_all.
  - unfold RenderThread.pendingRequestCount. now rewrite Empty.
  - intro Pos. unfold RenderThread.isBusy. rewrite Empty.
    rewrite RenderThreadFacts.workerTurns_idle; [reflexivity| |].
    + now rewrite Hs.
    + right. split; [exact Pos|]. rewrite Hq. intro E.
      unfold turns in Pos. rewrite E in Pos. inversion Pos.
Qed.

Lemma the_worker_answers_in_submission_order_witness :
  let p' :=
    fold_left (fun p r => fst (RenderThread.submitRequest p r))
      [RenderThread.nullPageRequest; RenderThread.zeroSizeRequest]
      RenderThread.init in
  let turns :=
    List.length
      (RenderThread.requestQueue RenderThread.init ++
       [RenderThread.nullPageRequest; RenderThread.zeroSizeRequest]) in
  RenderThread.completed (snd (RenderThread.workerTurns turns p')) =
    map RenderThread.processRequest
      (RenderThread.requestQueue RenderThread.init ++
       [RenderThread.nullPageRequest; RenderThread.zeroSizeRequest]) /\
  RenderThread.pendingRequestCount
    (fst (RenderThread.workerTurns turns p')) = 0 /\
  ((0 < turns)%nat ->
   RenderThread.isBusy (fst (RenderThread.workerTurns turns p')) = false).
Proof.
  apply (the_worker_answers_in_submission_order RenderThread.init
           [RenderThread.nullPageRequest; RenderThread.zeroSizeRequest]).
  reflexivity.
Defined.

(** X19 ([RenderThread::cancelRequest], [Private::processRequest]):
    [cancelRequest] marks the first request of the queue that has the id,
    and only that one: the request keeps its place, and when its turn
    comes it is answered with success = false, no image and
    "Request was canceled."; later requests of the same id are not marked.
    An id that no queued request has changes nothing. *)
Theorem cancelRequest_marks_the_first_queued_match :
  (forall p pre r post,
     RenderThread.requestQueue p = pre ++ r :: post ->
     (forall x, In x pre ->
                RenderThread.requestId x <> RenderThread.requestId r) ->
     RenderThread.requestQueue
       (RenderThread.cancelRequest p (RenderThread.requestId r)) =
       pre ++ RenderThread.markCanceled r :: post /\
     RenderThread.processRequest (RenderThread.markCanceled r) =
       RenderThread.mkRenderResult (RenderThread.requestId r) None false
         "Request was canceled.") /\
  (forall p id,
     (forall x, In x (RenderThread.requestQueue p) ->
                RenderThread.requestId x <> id) ->
     RenderThread.cancelRequest p id = p).
Proof.
  split.
  - intros p pre r post E H. split; [|reflexivity].
    unfold RenderThread.cancelRequest. cbn [RenderThread.requestQueue].
    rewrite E. now apply RenderThreadFacts.markFirst_match.
  - intros p id H. unfold RenderThread.cancelRequest.
    rewrite RenderThreadFacts.markFirst_absent by assumption.
    now destruct p.
Qed.

Lemma cancelRequest_marks_the_first_queued_match_witness :
  let p :=
    RenderThread.mkPrivate
      [RenderThread.nullPageRequest; RenderThread.zeroSizeRequest;
       RenderThread.zeroSizeRequest] [] false false in
  RenderThread.requestQueue (RenderThread.cancelRequest p 8) =
    [RenderThread.nullPageRequest;
     RenderThread.markCanceled RenderThread.zeroSizeRequest;
     RenderThread.zeroSizeRequest] /\
  RenderThread.cancelRequest p 9 = p.
Proof.
  intro p.
  destruct cancelRequest_marks_the_first_queued_match as [H1 H2].
  split.
  - apply (H1 p [RenderThread.nullPageRequest] RenderThread.zeroSizeRequest
              [RenderThread.zeroSizeRequest]).
    + reflexivity.
    + intros x [<-|[]]. cbn. discriminate.
  - apply (H2 p 9).
    intros x [<-|[<-|[<-|[]]]]; cbn; discriminate.
Defined.

(** X20 ([RenderThread::cancelRequestsForPage],
    [RenderThread::cancelAllRequests], [Private::processRequest]): a
    request that was canceled while it waited is never rendered.  After
    [cancelRequestsForPage] the queued requests of that page, and after
    [cancelAllRequests] all queued requests, are answered with
    success = false, no image and "Request was canceled."; the requests of
    other pages are answered as before, every request keeps its place, and
    a null page pointer cancels nothing. *)
Theorem canceled_requests_are_answered_without_rendering :
  (forall p pg,
     map RenderThread.processRequest
       (RenderThread.requestQueue
          (RenderThread.cancelRequestsForPage p (Some pg))) =
     map (fun r =>
            if RenderThread.samePage (RenderThread.page r) pg
            then RenderThread.mkRenderResult (RenderThread.requestId r) None
                   false "Request was canceled."
            else RenderThread.processRequest r)
         (RenderThread.requestQueue p)) /\
  (forall p, RenderThread.cancelRequestsForPage p None = p) /\
  (forall p,
     map RenderThread.processRequest
       (RenderThread.requestQueue (RenderThread.cancelAllRequests p)) =
     map (fun r =>
            RenderThread.mkRenderResult (RenderThread.requestId r) None
              false "Request was canceled.")
         (RenderThread.requestQueue p)).
Proof.
  split; [|split].
  - intros p pg. unfold RenderThread.cancelRequestsForPage.
    cbn [RenderThread.requestQueue]. rewrite map_map.
    apply map_ext. intro r.
    now destruct (RenderThread.samePage (RenderThread.page r) pg).
  - reflexivity.
  - intro p. unfold RenderThread.cancelAllRequests.
    cbn [RenderThread.requestQueue]. rewrite map_map.
    apply map_ext. intro r. reflexivity.
Qed.

(** X21 ([Private::processRequest]): a request with a positive target
    width and height that is rendered gets an image that fits the target:
    neither side of the image exceeds the target's, and one of them is the
    target's exactly. *)
Theorem the_rendered_image_fits_the_target : forall req w h,
  0 < fst (RenderThread.targetSize req) ->
  0 < snd (RenderThread.targetSize req) ->
  RenderThread.image (RenderThread.processRequest req) = Some (w, h) ->
  0 < w <= fst (RenderThread.targetSize req) /\
  0 < h <= snd (RenderThread.targetSize req) /\
  (w = fst (RenderThread.targetSize req) \/
   h = snd (RenderThread.targetSize req)).
Proof.
  intros req w h Tw Th. unfold RenderThread.processRequest.
  destruct (RenderThread.canceled req); [discriminate|].
  destruct (RenderThread.page req) as [pg|]; [|discriminate].
  destruct (RenderThread.QSizeF_isEmpty (RenderThread.pageSize pg)) eqn:Empty;
    [discriminate|].
  destruct (RenderThread.QImage_isNull
              (RenderThread.renderSize req (RenderThread.pageSize pg)))
    eqn:Null; [discriminate|].
  unfold RenderThread.renderSize in *. cbv zeta in *.
  cbn [RenderThread.image]. intro E. inversion E as [[Ew Eh]]. clear E.
  unfold RenderThread.QSizeF_isEmpty in Empty.
  apply orb_false_iff in Empty. destruct Empty as [Pw Ph].
  apply RenderThreadFacts.Qle_bool_false in Pw, Ph.
  unfold RenderThread.QImage_isNull in Null.
  cbn [fst snd] in Null.
  apply orb_false_iff in Null. destruct Null as [Nw Nh].
  rewrite Ew in Nw. rewrite Eh in Nh.
  apply Z.leb_gt in Nw, Nh.
  unfold RenderThread.scaleX, RenderThread.scaleY in *.
  apply Z.ltb_lt in Tw, Th. rewrite Tw in *. rewrite Th in *.
  apply Z.ltb_lt in Tw, Th.
  set (sx := (inject_Z (fst (RenderThread.targetSize req)) /
              fst (RenderThread.pageSize pg) * 72 / RenderThread.dpi)%Q) in *.
  set (sy := (inject_Z (snd (RenderThread.targetSize req)) /
              snd (RenderThread.pageSize pg) * 72 / RenderThread.dpi)%Q) in *.
  destruct (RenderThreadFacts.qMin_cases sx sy) as [Lx [Ly Which]].
  assert (RenderThread.qRound (fst (RenderThread.pageSize pg) * sx) =
          fst (RenderThread.targetSize req)) as Fx.
  { unfold sx.
    rewrite (RenderThreadFacts.qRound_comp _ _
               (RenderThreadFacts.fit_exact _ _ Pw)).
    apply RenderThreadFacts.qRound_inject_Z. lia. }
  assert (RenderThread.qRound (snd (RenderThread.pageSize pg) * sy) =
          snd (RenderThread.targetSize req)) as Fy.
  { unfold sy.
    rewrite (RenderThreadFacts.qRound_comp _ _
               (RenderThreadFacts.fit_exact _ _ Ph)).
    apply RenderThreadFacts.qRound_inject_Z. lia. }
  assert (w <= fst (RenderThread.targetSize req)) as Bw.
  { rewrite <- Ew, <- Fx. apply RenderThreadFacts.qRound_le.
    apply Qmult_le_l; assumption. }
  assert (h <= snd (RenderThread.targetSize req)) as Bh.
  { rewrite <- Eh, <- Fy. apply RenderThreadFacts.qRound_le.
    apply Qmult_le_l; assumption. }
  split; [lia|]. split; [lia|].
  destruct Which as [W|W].
  - left. rewrite W. exact Fx.
  - right. rewrite W. exact Fy.
Qed.

Lemma the_rendered_image_fits_the_target_witness :
  let req :=
    RenderThread.mkRenderRequest (Some RenderThread.letterPage) (1224, 2000)
      1 0 (0, 0, 0, 0)%Q true 9 false in
  0 < 1224 <= fst (RenderThread.targetSize req) /\
  0 < 1584 <= snd (RenderThread.targetSize req) /\
  (1224 = fst (RenderThread.targetSize req) \/
   1584 = snd (RenderThread.targetSize req)).
Proof.
  intro req.
  apply (the_rendered_image_fits_the_target req 1224 1584).
  - cbn. lia.
  - cbn. lia.
  - vm_compute. reflexivity.
Defined.

(** X22 ([Private::processRequest]): every result carries the id of its
    request; it is a success exactly when it carries an image, and exactly
    when its error text is empty; an image that it carries is at least one
    pixel wide and high. *)
Theorem a_result_is_a_success_exactly_with_an_image : forall req,
  RenderThread.resultId (RenderThread.processRequest req) =
    RenderThread.requestId req /\
  (RenderThread.success (RenderThread.processRequest req) = true <->
   RenderThread.image (RenderThread.processRequest req) <> None) /\
  (RenderThread.success (RenderThread.processRequest req) = true <->
   RenderThread.errorMessage (RenderThread.processRequest req) = ""%string) /\
  (forall w h,
     RenderThread.image (RenderThread.processRequest req) = Some (w, h) ->
     0 < w /\ 0 < h).
Proof.
  intro req. unfold RenderThread.processRequest, RenderThread.failed.
  destruct (RenderThread.canceled req);
    [cbn; repeat split; try congruence; try discriminate|].
  destruct (RenderThread.page req) as [pg|];
    [|cbn; repeat split; try congruence; try discriminate].
  destruct (RenderThread.QSizeF_isEmpty (RenderThread.pageSize pg));
    [cbn; repeat split; try congruence; try discriminate|].
  destruct (RenderThread.QImage_isNull
              (RenderThread.renderSize req (RenderThread.pageSize pg)))
    eqn:Null; [cbn; repeat split; try congruence; try discriminate|].
  cbn [RenderThread.resultId RenderThread.success RenderThread.image
       RenderThread.errorMessage].
  split; [reflexivity|]. split; [split; [discriminate|reflexivity]|].
  split; [split; reflexivity|].
  intros w h E.
  assert (RenderThread.renderSize req (RenderThread.pageSize pg) = (w, h))
    as E' by congruence.
  rewrite E' in Null.
  unfold RenderThread.QImage_isNull in Null. cbn [fst snd] in Null.
  apply orb_false_iff in Null. destruct Null as [Nw Nh].
  apply Z.leb_gt in Nw, Nh. now split.
Qed.
(** ** LazyLoader *)

(** X23 ([LazyLoader::queueRequest], [LazyLoader::hintResourceNeeded],
    [LazyLoader::cancelRequest], [LazyLoader::processNextRequest],
    [Private::sortQueue]): after every sequence of calls the queue is in
    the order of [sortQueue], so the request at its head, the next to be
    dispatched, has the highest priority of the queue, and no request of
    that priority has an earlier time stamp. *)
Theorem the_next_request_has_the_highest_priority : forall sort cs p,
  LazyLoader.conforming sort ->
  LazyLoader.run sort LazyLoader.init cs = Some p ->
  LazyLoader.sortedBy LazyLoader.lessThan (LazyLoader.requestQueue p) /\
  forall head rest r,
    LazyLoader.requestQueue p = head :: rest -> In r rest ->
    LazyLoader.priority r < LazyLoader.priority head \/
    (LazyLoader.priority r = LazyLoader.priority head /\
     LazyLoader.requestTime head <= LazyLoader.requestTime r).
Proof.
  intros sort cs p C R.
  assert (LazyLoader.sortedBy LazyLoader.lessThan (LazyLoader.requestQueue p))
    as S.
  { apply (LazyLoaderCalls.run_sorted sort C cs LazyLoader.init p);
      [constructor|exact R]. }
  split; [exact S|].
  intros head rest r E Hin. unfold LazyLoader.sortedBy in S. rewrite E in S.
  apply StronglySorted_inv in S. destruct S as [_ F].
  rewrite Forall_forall in F. apply LazyLoaderFacts.lessThan_false.
  now apply F.
Qed.

Lemma the_next_request_has_the_highest_priority_witness :
  exists p,
    LazyLoader.run LazyLoader.sortKeepingTies LazyLoader.init
      [LazyLoader.QueueRequest 1 LazyLoader.reqA;
       LazyLoader.QueueRequest 2 LazyLoader.reqB;
       LazyLoader.HintResourceNeeded 3 "b"] = Some p /\
    LazyLoader.sortedBy LazyLoader.lessThan (LazyLoader.requestQueue p) /\
    forall head rest r,
      LazyLoader.requestQueue p = head :: rest -> In r rest ->
      LazyLoader.priority r < LazyLoader.priority head \/
      (LazyLoader.priority r = LazyLoader.priority head /\
       LazyLoader.requestTime head <= LazyLoader.requestTime r).
Proof.
  eexists. split; [vm_compute; reflexivity|].
  apply (the_next_request_has_the_highest_priority
           LazyLoader.sortKeepingTies
           [LazyLoader.QueueRequest 1 LazyLoader.reqA;
            LazyLoader.QueueRequest 2 LazyLoader.reqB;
            LazyLoader.HintResourceNeeded 3 "b"%string]).
  - apply LazyLoaderFacts.sortKeepingTies_conforming.
  - vm_compute. reflexivity.
Defined.

(** X24 ([LazyLoader::queueRequest], [LazyLoader::processNextRequest],
    the completion callback of a load, [LazyLoader::activeRequestCount]):
    after every sequence of calls no key is queued twice, no key is queued
    and active at once, and [activeCount], which [activeRequestCount()]
    returns, is the number of keys in [activeRequests]. *)
Theorem active_loads_are_counted_exactly : forall sort cs p,
  LazyLoader.conforming sort ->
  LazyLoader.run sort LazyLoader.init cs = Some p ->
  NoDup (map LazyLoader.key (LazyLoader.requestQueue p)) /\
  NoDup (LazyLoader.activeRequests p) /\
  (forall k, In k (map LazyLoader.key (LazyLoader.requestQueue p)) ->
             ~ In k (LazyLoader.activeRequests p)) /\
  LazyLoader.activeCount p =
    Z.of_nat (List.length (LazyLoader.activeRequests p)).
Proof.
  intros sort cs p C R.
  assert (LazyLoader.wellFormed p) as [U A Ap N].
  { apply (LazyLoaderCalls.run_wellFormed sort C cs LazyLoader.init p);
      [|exact R].
    split; cbn; [constructor|constructor|easy|reflexivity]. }
  now repeat split.
Qed.

Lemma active_loads_are_counted_exactly_witness :
  exists p,
    LazyLoader.run LazyLoader.sortKeepingTies LazyLoader.init
      [LazyLoader.QueueRequest 1 LazyLoader.reqA;
       LazyLoader.QueueRequest 2 LazyLoader.reqB;
       LazyLoader.Deliver;
       LazyLoader.QueueRequest 3 LazyLoader.reqA;
       LazyLoader.LoadFinished LazyLoader.reqA true] = Some p /\
    NoDup (map LazyLoader.key (LazyLoader.requestQueue p)) /\
    NoDup (LazyLoader.activeRequests p) /\
    (forall k, In k (map LazyLoader.key (LazyLoader.requestQueue p)) ->
               ~ In k (LazyLoader.activeRequests p)) /\
    LazyLoader.activeCount p =
      Z.of_nat (List.length (LazyLoader.activeRequests p)).
Proof.
  eexists. split; [vm_compute; reflexivity|].
  apply (active_loads_are_counted_exactly LazyLoader.sortKeepingTies
           [LazyLoader.QueueRequest 1 LazyLoader.reqA;
            LazyLoader.QueueRequest 2 LazyLoader.reqB;
            LazyLoader.Deliver;
            LazyLoader.QueueRequest 3 LazyLoader.reqA;
            LazyLoader.LoadFinished LazyLoader.reqA true]).
  - apply LazyLoaderFacts.sortKeepingTies_conforming.
  - vm_compute. reflexivity.
Defined.

(** X25 ([LazyLoader::processNextRequest],
    [LazyLoader::setMaxConcurrentLoads]): the number of active loads never
    exceeds the largest limit the scheduler was ever given, the initial 4
    included; in particular it never exceeds 4 when
    [setMaxConcurrentLoads] is not called. *)
Theorem active_loads_stay_within_the_largest_limit :
  forall sort cs p limit,
  LazyLoader.conforming sort ->
  4 <= limit ->
  (forall count, In (LazyLoader.SetMaxConcurrentLoads count) cs ->
                 count <= limit) ->
  LazyLoader.run sort LazyLoader.init cs = Some p ->
  0 <= LazyLoader.activeCount p <= limit.
Proof.
  intros sort cs p limit C L Hc R. split.
  - assert (LazyLoader.wellFormed p) as [_ _ _ N].
    { apply (LazyLoaderCalls.run_wellFormed sort C cs LazyLoader.init p);
        [|exact R].
      split; cbn; [constructor|constructor|easy|reflexivity]. }
    rewrite N. lia.
  - assert (forall cs p0 p',
              (forall count, In (LazyLoader.SetMaxConcurrentLoads count) cs ->
                             count <= limit) ->
              LazyLoader.maxConcurrent p0 <= limit ->
              LazyLoader.activeCount p0 <= limit ->
              LazyLoader.run sort p0 cs = Some p' ->
              LazyLoader.activeCount p' <= limit) as G.
    { clear cs p Hc R. induction cs as [|c cs IH]; intros p0 p' Hc M A R;
        cbn [LazyLoader.run] in R.
      - inversion R; now subst.
      - destruct (LazyLoader.step sort p0 c) as [p1|] eqn:E; [|discriminate].
        destruct (LazyLoaderCalls.step_limit sort C limit p0 c p1)
          as [M1 A1]; try assumption.
        + intros count ->. apply Hc. now left.
        + apply (IH p1 p'); try assumption.
          intros count Hin. apply Hc. now right. }
    apply (G cs LazyLoader.init p); try assumption; cbn; lia.
Qed.

Lemma active_loads_stay_within_the_largest_limit_witness :
  exists p,
    LazyLoader.run LazyLoader.sortKeepingTies LazyLoader.init
      [LazyLoader.SetMaxConcurrentLoads 1;
       LazyLoader.QueueRequest 1 LazyLoader.reqA;
       LazyLoader.QueueRequest 2 LazyLoader.reqB;
       LazyLoader.Deliver; LazyLoader.Deliver; LazyLoader.Deliver]
    = Some p /\
    0 <= LazyLoader.activeCount p <= 4.
Proof.
  eexists. split; [vm_compute; reflexivity|].
  apply (active_loads_stay_within_the_largest_limit
           LazyLoader.sortKeepingTies
           [LazyLoader.SetMaxConcurrentLoads 1;
            LazyLoader.QueueRequest 1 LazyLoader.reqA;
            LazyLoader.QueueRequest 2 LazyLoader.reqB;
            LazyLoader.Deliver; LazyLoader.Deliver; LazyLoader.Deliver]).
  - apply LazyLoaderFacts.sortKeepingTies_conforming.
  - lia.
  - intros count [H|[H|[H|[H|[H|[H|[]]]]]]]; try discriminate H.
    inversion H. lia.
  - vm_compute. reflexivity.
Defined.

(** X26 ([LazyLoader::cancelRequest], [Private::findRequestIndex]):
    [cancelRequest] returns [true] exactly for a key that is queued and
    not active.  It then removes the request of that key, and only it,
    from the queue; the active loads and what was dispatched stay.  When
    it returns [false], for an active or an unknown key, nothing has
    changed. *)
Theorem cancelRequest_removes_only_a_queued_request : forall p k,
  NoDup (map LazyLoader.key (LazyLoader.requestQueue p)) ->
  (fst (LazyLoader.cancelRequest p k) = true <->
   In k (map LazyLoader.key (LazyLoader.requestQueue p)) /\
   ~ In k (LazyLoader.activeRequests p)) /\
  (fst (LazyLoader.cancelRequest p k) = true ->
   (forall x,
      In x (LazyLoader.requestQueue (snd (LazyLoader.cancelRequest p k))) <->
      In x (LazyLoader.requestQueue p) /\ LazyLoader.key x <> k) /\
   LazyLoader.activeRequests (snd (LazyLoader.cancelRequest p k)) =
     LazyLoader.activeRequests p /\
   LazyLoader.activeCount (snd (LazyLoader.cancelRequest p k)) =
     LazyLoader.activeCount p /\
   LazyLoader.dispatched (snd (LazyLoader.cancelRequest p k)) =
     LazyLoader.dispatched p) /\
  (fst (LazyLoader.cancelRequest p k) = false ->
   snd (LazyLoader.cancelRequest p k) = p).
Proof.
  intros p k U. unfold LazyLoader.cancelRequest.
  destruct (LazyLoader.setMember k (LazyLoader.activeRequests p)) eqn:M.
  - apply LazyLoaderCalls.setMember_In in M. cbn [fst snd].
    split; [|split; [discriminate|reflexivity]].
    split; [discriminate|]. intros [_ N]. contradiction.
  - assert (~ In k (LazyLoader.activeRequests p)) as N.
    { intro H. apply LazyLoaderCalls.setMember_In in H. congruence. }
    destruct (0 <=? LazyLoader.findRequestIndex k (LazyLoader.requestQueue p))
      eqn:F; cbn [fst snd].
    + apply Z.leb_le, LazyLoaderCalls.findRequestIndex_found in F.
      split; [split; [now split|reflexivity]|].
      split; [|discriminate]. intros _.
      destruct (LazyLoaderCalls.keys_removeKey k (LazyLoader.requestQueue p) U)
        as [_ [_ I]].
      cbn [LazyLoader.requestQueue LazyLoader.activeRequests
           LazyLoader.activeCount LazyLoader.dispatched].
      now repeat split; try apply I.
    + apply Z.leb_gt in F.
      split; [|split; [discriminate|reflexivity]].
      split; [discriminate|]. intros [Q _].
      apply LazyLoaderCalls.findRequestIndex_found in Q. lia.
Qed.

Lemma cancelRequest_removes_only_a_queued_request_witness :
  let p :=
    LazyLoader.mkPrivate [LazyLoader.reqA; LazyLoader.reqB] ["c"%string] 4 1
      [LazyLoader.reqC] 0 in
  (fst (LazyLoader.cancelRequest p "a") = true <->
   In "a"%string (map LazyLoader.key (LazyLoader.requestQueue p)) /\
   ~ In "a"%string (LazyLoader.activeRequests p)) /\
  (fst (LazyLoader.cancelRequest p "a") = true ->
   (forall x,
      In x (LazyLoader.requestQueue (snd (LazyLoader.cancelRequest p "a"))) <->
      In x (LazyLoader.requestQueue p) /\ LazyLoader.key x <> "a"%string) /\
   LazyLoader.activeRequests (snd (LazyLoader.cancelRequest p "a")) =
     LazyLoader.activeRequests p /\
   LazyLoader.activeCount (snd (LazyLoader.cancelRequest p "a")) =
     LazyLoader.activeCount p /\
   LazyLoader.dispatched (snd (LazyLoader.cancelRequest p "a")) =
     LazyLoader.dispatched p) /\
  (fst (LazyLoader.cancelRequest p "a") = false ->
   snd (LazyLoader.cancelRequest p "a") = p).
Proof.
  intro p.
  apply (cancelRequest_removes_only_a_queued_request p "a"%string).
  cbn. constructor.
  - intros [H|[]]. discriminate H.
  - constructor; [intros []|constructor].
Defined.

(** X27 ([LazyLoader::preload], [LazyLoader::hintResourceNeeded]):
    [preload] queues nothing and starts nothing, and its priority argument
    has no effect: it hints the keys one by one, which leaves the set of
    queued keys, the active loads and the dispatched requests as they
    were; for keys that are not queued it changes nothing at all. *)
Theorem preload_loads_nothing : forall sort clock p resourceKeys prio,
  LazyLoader.conforming sort ->
  Permutation
    (map LazyLoader.key (LazyLoader.requestQueue p))
    (map LazyLoader.key
       (LazyLoader.requestQueue
          (LazyLoader.preload sort clock p resourceKeys prio))) /\
  LazyLoader.activeRequests
    (LazyLoader.preload sort clock p resourceKeys prio) =
    LazyLoader.activeRequests p /\
  LazyLoader.dispatched (LazyLoader.preload sort clock p resourceKeys prio) =
    LazyLoader.dispatched p /\
  LazyLoader.posted (LazyLoader.preload sort clock p resourceKeys prio) =
    LazyLoader.posted p /\
  ((forall k, In k resourceKeys ->
              ~ In k (map LazyLoader.key (LazyLoader.requestQueue p))) ->
   LazyLoader.preload sort clock p resourceKeys prio = p).
Proof.
  intros sort clock p resourceKeys prio C. unfold LazyLoader.preload.
  destruct (LazyLoaderCalls.preloadFrom_fields sort C resourceKeys clock 0 p)
    as [P [A [_ [_ [D Po]]]]].
  split; [exact P|]. split; [exact A|]. split; [exact D|].
  split; [exact Po|].
  apply LazyLoaderCalls.preloadFrom_absent.
Qed.

Lemma preload_loads_nothing_witness :
  let p := LazyLoader.init in
  let keys := ["page-1"%string; "page-2"%string] in
  Permutation
    (map LazyLoader.key (LazyLoader.requestQueue p))
    (map LazyLoader.key
       (LazyLoader.requestQueue
          (LazyLoader.preload LazyLoader.sortKeepingTies (fun _ => 5) p keys
             10))) /\
  LazyLoader.activeRequests
    (LazyLoader.preload LazyLoader.sortKeepingTies (fun _ => 5) p keys 10) =
    LazyLoader.activeRequests p /\
  LazyLoader.dispatched
    (LazyLoader.preload LazyLoader.sortKeepingTies (fun _ => 5) p keys 10) =
    LazyLoader.dispatched p /\
  LazyLoader.posted
    (LazyLoader.preload LazyLoader.sortKeepingTies (fun _ => 5) p keys 10) =
    LazyLoader.posted p /\
  ((forall k, In k keys ->
              ~ In k (map LazyLoader.key (LazyLoader.requestQueue p))) ->
   LazyLoader.preload LazyLoader.sortKeepingTies (fun _ => 5) p keys 10 = p).
Proof.
  intros p keys.
  apply (preload_loads_nothing LazyLoader.sortKeepingTies (fun _ => 5) p keys
           10).
  apply LazyLoaderFacts.sortKeepingTies_conforming.
Defined.

(** X28 ([LazyLoader::hintResourceNeeded], [Private::sortQueue]): a hint
    for a queued key adds 1000 to the priority of its request and stamps
    it with the time of the hint; when the sum is still a [qint64] and
    lifts the request above every other queued request, the request is at
    the head of the queue afterwards, the next to be dispatched.  A
    priority within 1000 of the largest [qint64] wraps around instead:
    the request of priority 2^63 - 1 that is hinted goes behind a request
    of priority 1. *)
Theorem a_hinted_request_moves_to_the_front :
  (forall sort now p r,
     LazyLoader.conforming sort ->
     NoDup (map LazyLoader.key (LazyLoader.requestQueue p)) ->
     In r (LazyLoader.requestQueue p) ->
     - 2 ^ 63 <= LazyLoader.priority r ->
     LazyLoader.priority r + 1000 < 2 ^ 63 ->
     (forall x, In x (LazyLoader.requestQueue p) -> x <> r ->
                LazyLoader.priority x < LazyLoader.priority r + 1000) ->
     exists rest,
       LazyLoader.requestQueue
         (LazyLoader.hintResourceNeeded sort now p (LazyLoader.key r)) =
       LazyLoader.mkLoadRequest (LazyLoader.key r) (LazyLoader.type r)
         (LazyLoader.parameters r) (LazyLoader.onSuccess r)
         (LazyLoader.onError r) (LazyLoader.priority r + 1000) now :: rest) /\
  map (fun x => (LazyLoader.key x, LazyLoader.priority x))
    (LazyLoader.requestQueue
       (LazyLoader.hintResourceNeeded LazyLoader.sortKeepingTies 9
          (LazyLoader.mkPrivate
             [LazyLoader.request "top" (2 ^ 63 - 1); LazyLoader.reqB]
             [] 4 0 [] 2)
          "top")) =
  [("b"%string, 1); ("top"%string, - 2 ^ 63 + 999)].
Proof.
  split; [|vm_compute; reflexivity].
  intros sort now p r C U Hin Lo Hi Top.
  unfold LazyLoader.hintResourceNeeded.
  assert (0 <= LazyLoader.findRequestIndex (LazyLoader.key r)
                 (LazyLoader.requestQueue p)) as F.
  { apply LazyLoaderCalls.findRequestIndex_found. now apply in_map. }
  apply Z.leb_le in F. rewrite F.
  cbn [LazyLoader.sortQueue LazyLoader.requestQueue].
  destruct (LazyLoaderCalls.bump_split now r (LazyLoader.requestQueue p) U Hin)
    as [pre [post [E [B N]]]].
  rewrite B. rewrite LazyLoaderCalls.add64_range by lia.
  set (b := LazyLoader.mkLoadRequest (LazyLoader.key r) (LazyLoader.type r)
              (LazyLoader.parameters r) (LazyLoader.onSuccess r)
              (LazyLoader.onError r) (LazyLoader.priority r + 1000) now).
  destruct (C (pre ++ b :: post)) as [P S].
  destruct (sort LazyLoader.lessThan (pre ++ b :: post)) as [|h rest] eqn:Q.
  - apply Permutation_sym, Permutation_nil in P. now destruct pre.
  - exists rest. f_equal.
    assert (In b (h :: rest)) as Hb.
    { apply (Permutation_in _ P). apply in_or_app. right. now left. }
    destruct Hb as [Hb|Hb]; [exact Hb|]. exfalso.
    unfold LazyLoader.sortedBy in S. apply StronglySorted_inv in S.
    destruct S as [_ Fh]. rewrite Forall_forall in Fh.
    specialize (Fh b Hb). apply LazyLoaderFacts.lessThan_false in Fh.
    assert (In h (pre ++ b :: post)) as Hh.
    { apply (Permutation_in _ (Permutation_sym P)). now left. }
    apply in_app_or in Hh.
    assert (h = b \/ In h (pre ++ post)) as [Eh|Hh'].
    { destruct Hh as [Hh|[Hh|Hh]];
        [right; apply in_or_app; now left|now left
        |right; apply in_or_app; now right]. }
    + subst h. apply Permutation_sym in P.
      assert (NoDup (map LazyLoader.key (b :: rest))) as Ub.
      { apply (Permutation_NoDup (Permutation_map LazyLoader.key
                                    (Permutation_sym P))).
        rewrite <- (LazyLoaderCalls.keys_bump now (LazyLoader.key r)
                      (LazyLoader.requestQueue p)) in U.
        rewrite B in U. rewrite !map_app in *. exact U. }
      cbn [map] in Ub. inversion Ub as [|? ? Hn _]. apply Hn.
      exact (in_map LazyLoader.key rest b Hb).
    + assert (In h (LazyLoader.requestQueue p)) as Hq.
      { rewrite E. apply in_app_or in Hh'. apply in_or_app.
        destruct Hh' as [Hh'|Hh']; [now left|right; now right]. }
      specialize (Top h Hq (N h Hh')).
      unfold b in Fh. cbn [LazyLoader.priority LazyLoader.requestTime] in Fh.
      lia.
Qed.

Lemma a_hinted_request_moves_to_the_front_witness :
  let p :=
    LazyLoader.mkPrivate [LazyLoader.reqA; LazyLoader.reqB] [] 4 0 [] 2 in
  exists rest,
    LazyLoader.requestQueue
      (LazyLoader.hintResourceNeeded LazyLoader.sortKeepingTies 9 p
         (LazyLoader.key LazyLoader.reqB)) =
    LazyLoader.mkLoadRequest (LazyLoader.key LazyLoader.reqB)
      (LazyLoader.type LazyLoader.reqB)
      (LazyLoader.parameters LazyLoader.reqB)
      (LazyLoader.onSuccess LazyLoader.reqB)
      (LazyLoader.onError LazyLoader.reqB)
      (LazyLoader.priority LazyLoader.reqB + 1000) 9 :: rest.
Proof.
  intro p.
  apply (proj1 a_hinted_request_moves_to_the_front
           LazyLoader.sortKeepingTies 9 p LazyLoader.reqB).
  - apply LazyLoaderFacts.sortKeepingTies_conforming.
  - cbn. constructor.
    + intros [H|[]]. discriminate H.
    + constructor; [intros []|constructor].
  - right. now left.
  - cbn. lia.
  - cbn. lia.
  - intros x [<-|[<-|[]]] Hne; [cbn; lia|now elim Hne].
Defined.

(** X29 ([LazyLoader::processNextRequest]): [n] calls of
    [processNextRequest] in a row dispatch the requests at the head of the
    queue, in the order of the queue, and stop at the limit of concurrent
    loads: what is dispatched is the first [m] requests, where [m] is the
    least of [n], the room left under the limit and the length of the
    queue; the counter of active loads goes up by [m]. *)
Theorem dispatch_follows_the_queue_up_to_the_limit : forall n p,
  let room :=
    Z.to_nat (LazyLoader.maxConcurrent p - LazyLoader.activeCount p) in
  let m :=
    Nat.min n (Nat.min room (List.length (LazyLoader.requestQueue p))) in
  LazyLoader.dispatched (LazyLoader.processRequests n p) =
    LazyLoader.dispatched p ++ firstn m (LazyLoader.requestQueue p) /\
  LazyLoader.requestQueue (LazyLoader.processRequests n p) =
    skipn m (LazyLoader.requestQueue p) /\
  LazyLoader.activeCount (LazyLoader.processRequests n p) =
    LazyLoader.activeCount p + Z.of_nat m /\
  LazyLoader.maxConcurrent (LazyLoader.processRequests n p) =
    LazyLoader.maxConcurrent p.
Proof.
  induction n as [|n IH]; intro p; cbv zeta.
  - cbn [LazyLoader.processRequests Nat.min firstn skipn]. rewrite app_nil_r.
    repeat split. lia.
  - cbn [LazyLoader.processRequests].
    destruct (LazyLoader.maxConcurrent p <=? LazyLoader.activeCount p) eqn:L.
    + assert (LazyLoader.processNextRequest p = p) as Idle
        by (unfold LazyLoader.processNextRequest; now rewrite L).
      rewrite Idle, (LazyLoaderCalls.processRequests_idle n p Idle).
      apply Z.leb_le in L.
      replace (Z.to_nat
                 (LazyLoader.maxConcurrent p - LazyLoader.activeCount p))
        with 0%nat by lia.
      cbn [Nat.min]. rewrite ?Nat.min_0_r. cbn [firstn skipn].
      rewrite app_nil_r. repeat split. lia.
    + destruct (LazyLoader.requestQueue p) as [|r rest] eqn:E.
      * assert (LazyLoader.processNextRequest p = p) as Idle
          by (unfold LazyLoader.processNextRequest; rewrite E;
              now rewrite orb_true_r).
        rewrite Idle, (LazyLoaderCalls.processRequests_idle n p Idle).
        rewrite E. cbn [List.length]. rewrite ?Nat.min_0_r.
        cbn [firstn skipn]. rewrite app_nil_r. repeat split. lia.
      * set (p1 :=
               LazyLoader.mkPrivate rest
                 (LazyLoader.setInsert (LazyLoader.key r)
                    (LazyLoader.activeRequests p))
                 (LazyLoader.maxConcurrent p) (LazyLoader.activeCount p + 1)
                 (LazyLoader.dispatched p ++ [r]) (LazyLoader.posted p)).
        assert (LazyLoader.processNextRequest p = p1) as ->.
        { unfold LazyLoader.processNextRequest. now rewrite L, E. }
        specialize (IH p1). cbv zeta in IH. unfold p1 in IH.
        cbn [LazyLoader.maxConcurrent LazyLoader.activeCount
             LazyLoader.requestQueue LazyLoader.dispatched] in IH.
        fold p1 in IH.
        destruct IH as [D [Q [A M]]].
        apply Z.leb_gt in L.
        assert (Nat.min (S n)
                  (Nat.min
                     (Z.to_nat
                        (LazyLoader.maxConcurrent p - LazyLoader.activeCount p))
                     (List.length (r :: rest))) =
                S (Nat.min n
                     (Nat.min
                        (Z.to_nat
                           (LazyLoader.maxConcurrent p -
                            (LazyLoader.activeCount p + 1)))
                        (List.length rest)))) as ->.
        { cbn [List.length]. lia. }
        cbn [firstn skipn]. rewrite D, Q, A, M.
        rewrite <- app_assoc. cbn [app]. repeat split. lia.
Qed.
